(** * ArtificialImproviser: note recorder and generative agent

    Shallow embedding of [src/py/note_collection.py] (class [NoteRecorder])
    and [src/py/generative_agent.py] (class [GenerativeAgent]).

    Modelling choices.
    - Python floats are modelled by exact rationals [Q]; [np.sqrt] by the
      square root rounded down to [2^-64] ([Qsqrt_floor]).
    - Python exceptions are values of [py_error]; a computation in the state
      monad [M S] returns [Ok a] or [Err e] together with the state reached,
      so side effects done before an exception survive it, as in Python.
    - Randomness: every call of [np.random.random()] (and the draws made by
      [random.randint], [random.sample], [random.choice], [np.random.choice],
      [np.random.uniform]) reads the next value of an oracle [draw : nat -> Q];
      the agent's state is the index of the next draw.  Quantifying over all
      oracles with values in [0,1) covers every outcome of the draws. *)

From Stdlib Require Import String QArith Qround Qminmax Qpower Lqa Psatz Lia ZArith List Bool.
Import ListNotations.
Open Scope Q_scope.

(** ** Python exceptions and the state/error monad *)

Inductive py_error : Type :=
| IndexError
| KeyError
| ValueError
| AxisError
| ZeroDivisionError.

Inductive result (A : Type) : Type :=
| Ok : A -> result A
| Err : py_error -> result A.
Arguments Ok {A} _.
Arguments Err {A} _.

Definition M (S A : Type) : Type := S -> result A * S.

Definition ret {S A} (a : A) : M S A := fun s => (Ok a, s).

Definition bind {S A B} (m : M S A) (f : A -> M S B) : M S B :=
  fun s => match m s with
           | (Ok a, s') => f a s'
           | (Err e, s') => (Err e, s')
           end.

Definition raise {S A} (e : py_error) : M S A := fun s => (Err e, s).

Definition get {S} : M S S := fun s => (Ok s, s).
Definition put {S} (s : S) : M S unit := fun _ => (Ok tt, s).

(** [try ... except Exception] : the error becomes [None]. *)
Definition catch {S A} (m : M S A) : M S (option A) :=
  fun s => match m s with
           | (Ok a, s') => (Ok (Some a), s')
           | (Err _, s') => (Ok None, s')
           end.

Notation "x <- m ;; k" := (bind m (fun x => k))
  (at level 61, m at next level, right associativity).
Notation "m ;;; k" := (bind m (fun _ => k))
  (at level 61, right associativity).

(** Python [l[k]] for [k >= 0]. *)
Definition idx {S A} (l : list A) (k : nat) : M S A :=
  match nth_error l k with
  | Some a => ret a
  | None => raise IndexError
  end.

(** Python [l[k]] for any int [k] (negative indices count from the end). *)
Definition py_idx {S A} (l : list A) (k : Z) : M S A :=
  if (k <? 0)%Z then
    if (Z.of_nat (length l) + k <? 0)%Z then raise IndexError
    else idx l (Z.to_nat (Z.of_nat (length l) + k))
  else idx l (Z.to_nat k).

Fixpoint map_m {S A B} (f : A -> M S B) (l : list A) : M S (list B) :=
  match l with
  | [] => ret []
  | x :: xs => y <- f x;; ys <- map_m f xs;; ret (y :: ys)
  end.

Fixpoint filter_m {S A} (f : A -> M S bool) (l : list A) : M S (list A) :=
  match l with
  | [] => ret []
  | x :: xs => b <- f x;; ys <- filter_m f xs;; ret (if b then x :: ys else ys)
  end.

(** Python [l[k] = v]. *)
Fixpoint list_assign {A} (l : list A) (k : nat) (v : A) : option (list A) :=
  match l, k with
  | [], _ => None
  | _ :: xs, O => Some (v :: xs)
  | x :: xs, S k' => option_map (cons x) (list_assign xs k' v)
  end.

(** ** Python numbers on Q *)

Definition Qlt_bool (a b : Q) : bool := negb (Qle_bool b a).

(** [int(q)]: truncation toward zero. *)
Definition py_int (q : Q) : Z :=
  if Qle_bool 0 q then Qfloor q else (- Qfloor (- q))%Z.

(** [min(a, b)] and [max(a, b)]: the first argument unless the second is
    strictly better. *)
Definition py_min (a b : Q) : Q := if Qlt_bool b a then b else a.
Definition py_max (a b : Q) : Q := if Qlt_bool a b then b else a.

(** [np.clip(v, 0, 1)]. *)
Definition clip01 (v : Q) : Q := if Qlt_bool v 0 then 0 else if Qlt_bool 1 v then 1 else v.

Definition Qsum (l : list Q) : Q := fold_right Qplus 0 l.

(** [np.sqrt] on Q: the square root rounded down to a multiple of
    [2^-SQRT_BITS], i.e. [floor(sqrt(q) * 2^64) / 2^64], computed as
    [Z.sqrt (floor (q * 2^128))].  It depends only on the value of [q]
    (not on the numerator and denominator chosen for it) and lies within
    [2^-64] below the real root, finer than the rounding of a double for the
    distances in [0, 2] computed here. *)
Definition SQRT_BITS : Z := 64.
Definition Qsqrt_floor (q : Q) : Q :=
  Z.sqrt (Qnum q * 2 ^ (2 * SQRT_BITS) / Zpos (Qden q)) # Z.to_pos (2 ^ SQRT_BITS).

(** ** Notes *)

Inductive tag : Type := Human | AI.

(** A point is a Python tuple [(x, y, z, angle, velocity[, relative_time])]. *)
Definition point := list Q.

(** A note dict.  Keys absent from a dict are [None] / [[]]: AI notes have no
    ['timestamps'] and no ['start_time']; ['phrase'] is set at phrase end. *)
Record note := mkNote {
  fingers : list Z;
  data_points : list point;
  timestamps : list Q;
  start_time : option Q;
  duration : option Q;
  pause_after : option Q;
  phrase : option Z;
  source : tag
}.

Definition set_duration (n : note) (d : Q) : note :=
  mkNote n.(fingers) n.(data_points) n.(timestamps) n.(start_time) (Some d)
         n.(pause_after) n.(phrase) n.(source).
Definition set_pause_after (n : note) (p : Q) : note :=
  mkNote n.(fingers) n.(data_points) n.(timestamps) n.(start_time) n.(duration)
         (Some p) n.(phrase) n.(source).
Definition set_phrase (n : note) (k : Z) : note :=
  mkNote n.(fingers) n.(data_points) n.(timestamps) n.(start_time) n.(duration)
         n.(pause_after) (Some k) n.(source).

(** [note.get('pause_after', 0)] *)
Definition pause_or_0 (n : note) : Q :=
  match n.(pause_after) with Some p => p | None => 0 end.

(** ** GenerativeAgent *)

Record agent := mkAgent { hotness : Q }.

(** [self.POINT_INTERVAL] of the agent: 0.02 s. *)
Definition AGENT_POINT_INTERVAL : Q := 2 # 100.

(** [set_hotness]: [max(0.0, min(1.0, hotness))]. *)
Definition clamp01 (x : Q) : Q := py_max 0 (py_min 1 x).
Definition set_hotness (a : agent) (x : Q) : agent := mkAgent (clamp01 x).

(** Insertion sort on ints: Python [sorted]. *)
Fixpoint insert_Z (x : Z) (l : list Z) : list Z :=
  match l with
  | [] => [x]
  | y :: ys => if (x <=? y)%Z then x :: l else y :: insert_Z x ys
  end.
Definition sorted_Z (l : list Z) : list Z := fold_right insert_Z [] l.

(** [set(f1) | set(f2)] listed in iteration order (ascending, as CPython
    iterates a set of small non-negative ints). *)
Definition set_union (f1 f2 : list Z) : list Z :=
  sorted_Z (nodup Z.eq_dec (f1 ++ f2)).

Section Draws.

(** The stream of random draws. *)
Variable draw : nat -> Q.

Definition AM := M nat.

(** [np.random.random()] *)
Definition random : AM Q := fun i => (Ok (draw i), S i).

(** [_randbelow(n)]: an int in [0, n). *)
Definition randbelow (n : nat) : AM nat :=
  r <- random;; ret (Z.to_nat (Qfloor (r * inject_Z (Z.of_nat n)))).

(** [random.randint(a, b)] = [a + _randbelow(b - a + 1)]. *)
Definition randint (a b : Z) : AM Z :=
  k <- randbelow (Z.to_nat (b - a + 1));; ret (a + Z.of_nat k)%Z.

(** [random.choice(l)]: uniform; [IndexError] on an empty list. *)
Definition choice {A} (l : list A) : AM A :=
  k <- randbelow (length l);; idx l k.

(** [np.random.choice(l)] raises [ValueError] on an empty list. *)
Definition np_choice {A} (l : list A) : AM A :=
  match l with [] => raise ValueError | _ => choice l end.

(** [np.random.uniform(lo, hi)] = [lo + (hi - lo) * random()]. *)
Definition uniform_value (lo hi r : Q) : Q := lo + (hi - lo) * r.
Definition uniform (lo hi : Q) : AM Q :=
  r <- random;; ret (uniform_value lo hi r).

(** [random.sample(population, k)], pool branch of CPython's algorithm:
    [j = randbelow(n - i); result[i] = pool[j]; pool[j] = pool[n - i - 1]]. *)
Fixpoint sample_loop (fuel i n : nat) (pool : list Z) : AM (list Z) :=
  match fuel with
  | O => ret []
  | S f =>
      j <- randbelow (n - i);;
      x <- idx pool j;;
      y <- idx pool (n - i - 1);;
      match list_assign pool j y with
      | None => raise IndexError
      | Some pool' => rest <- sample_loop f (S i) n pool';; ret (x :: rest)
      end
  end.

Definition sample (population : list Z) (k : Z) : AM (list Z) :=
  let n := length population in
  if ((k <? 0)%Z || (Z.of_nat n <? k)%Z)%bool then raise ValueError
  else sample_loop (Z.to_nat k) 0 n population.

(** [np.random.choice(l, p=probabilities)]: inverse-CDF sampling,
    [cdf = cumsum(p); cdf /= cdf[-1]; idx = searchsorted(cdf, u, 'right')]. *)
Fixpoint cumsum_from (acc : Q) (p : list Q) : list Q :=
  match p with
  | [] => []
  | x :: xs => (acc + x) :: cumsum_from (acc + x) xs
  end.

Fixpoint search_right (u : Q) (cdf : list Q) : nat :=
  match cdf with
  | [] => O
  | c :: cs => if Qlt_bool u c then O else S (search_right u cs)
  end.

Definition choice_p {A} (l : list A) (p : list Q) : AM A :=
  let cdf := cumsum_from 0 p in
  let cdf := map (fun c => c / last cdf 0) cdf in
  u <- random;;
  idx l (search_right u cdf).

(** [_mutate]: [1 / ((1 - hotness) * 985 + 15) > random()]. *)
Definition mutation_den (h : Q) : Q := (1 - h) * 985 + 15.

Definition mutate (h : Q) : AM bool :=
  if Qeq_bool (mutation_den h) 0 then raise ZeroDivisionError
  else r <- random;; ret (Qlt_bool r (1 / mutation_den h)).

(** The blend factor shared by [_interpolate_value] and
    [_interpolate_vector]. *)
Definition blend_factor (h : Q) : AM Q :=
  r <- random;;
  if Qlt_bool h r then (r2 <- random;; ret (if Qlt_bool r2 (1 # 2) then 0 else 1))
  else random.

Definition interpolate_value (h v1 v2 : Q) : AM Q :=
  b <- blend_factor h;; ret (v1 + b * (v2 - v1)).

Definition interpolate_vector (h : Q) (vec1 vec2 : list Q) : AM (list Q) :=
  b <- blend_factor h;; ret (map (fun '(v1, v2) => v1 + b * (v2 - v1)) (combine vec1 vec2)).


(** *** crossover (lines 68-175) *)

(** Lines 83-93: the offspring's fingers. *)
Definition crossover_fingers (h : Q) (f1 f2 : list Z) : AM (list Z) :=
  m <- mutate h;;
  if m then (k <- randint 1 4;; s <- sample [1; 2; 3; 4]%Z k;; ret (sorted_Z s))
  else (r <- random;;
        if Qlt_bool r h then
          (let all_fingers := set_union f1 f2 in
           kept <- filter_m (fun _ => r' <- random;; ret (Qlt_bool r' (1 # 2))) all_fingers;;
           match sorted_Z kept with
           | [] => c <- np_choice all_fingers;; ret [c]
           | fs => ret fs
           end)
        else (r' <- random;; ret (if Qlt_bool r' (1 # 2) then f1 else f2))).

(** Lines 96-105: the first point, one parameter at a time. *)
Definition crossover_first_point (h : Q) (pts1 pts2 : list point) (P : nat) : AM point :=
  map_m (fun param_idx =>
           m <- mutate h;;
           if m then random
           else (q1 <- idx pts1 0;; val1 <- idx q1 param_idx;;
                 q2 <- idx pts2 0;; val2 <- idx q2 param_idx;;
                 new_val <- interpolate_value h val1 val2;;
                 ret (clip01 new_val)))
        (seq 0 P).

(** Lines 108-116: the number of points. *)
Definition crossover_num_points (h : Q) (pts1 pts2 : list point) : AM Z :=
  m <- mutate h;;
  if m then
    (let max_points := py_int ((1 / AGENT_POINT_INTERVAL) * 8) in
     randint 2 (Z.max 2 max_points))
  else
    (v <- interpolate_value h (inject_Z (Z.of_nat (length pts1)))
                              (inject_Z (Z.of_nat (length pts2)));;
     ret (Z.max 2 (py_int v))).

(** Lines 129-132 (and 136-139): the parent index of a step. *)
Definition source_index (point_idx num_new_points : Z) (len : nat) : Z :=
  let s := py_int ((inject_Z point_idx / inject_Z num_new_points) * inject_Z (Z.of_nat len)) in
  let s := Z.min s (Z.of_nat len - 1) in
  if (s =? 0)%Z then 1%Z else s.

(** Lines 133-134: the parent's finite difference at index [s]. *)
Definition step_vec (pts : list point) (s : Z) (P : nat) : AM (list Q) :=
  map_m (fun i => a <- (q <- py_idx pts s;; idx q i);;
                  b <- (q <- py_idx pts (s - 1);; idx q i);;
                  ret (a - b))
        (seq 0 P).

(** Lines 122-151: the points after the first, a walk from [current_point]. *)
Fixpoint crossover_steps (h : Q) (pts1 pts2 : list point) (P : nat) (num_new_points : Z)
         (fuel : nat) (point_idx : Z) (current_point : point) : AM (list point) :=
  match fuel with
  | O => ret []
  | S f =>
      m <- mutate h;;
      interpolated_vec <-
        (if m then map_m (fun _ => uniform (-3 # 10) (3 # 10)) (seq 0 P)
         else (vec1 <- step_vec pts1 (source_index point_idx num_new_points (length pts1)) P;;
               vec2 <- step_vec pts2 (source_index point_idx num_new_points (length pts2)) P;;
               interpolate_vector h vec1 vec2));;
      next_point <- map_m (fun i => c <- idx current_point i;; v <- idx interpolated_vec i;;
                                    ret (c + v)) (seq 0 P);;
      let next_point := map clip01 next_point in
      rest <- crossover_steps h pts1 pts2 P num_new_points f (point_idx + 1) next_point;;
      ret (next_point :: rest)
  end.

(** Lines 154-159: the pause after the note. *)
Definition crossover_pause (h : Q) (n1 n2 : note) : AM Q :=
  m <- mutate h;;
  if m then (r <- random;; ret (r * 5))
  else interpolate_value h (pause_or_0 n1) (pause_or_0 n2).

(** Line 163: the duration. *)
Definition crossover_duration (pts : list point) : Q :=
  if (1 <? length pts)%nat then inject_Z (Z.of_nat (length pts) - 1) * AGENT_POINT_INTERVAL
  else AGENT_POINT_INTERVAL.

Definition crossover (h : Q) (n1 n2 : note) : AM note :=
  let note1_points := n1.(data_points) in
  let note2_points := n2.(data_points) in
  p0 <- idx note1_points 0;;
  let params_per_point := length p0 in
  new_fingers <- crossover_fingers h n1.(fingers) n2.(fingers);;
  new_first_point <- crossover_first_point h note1_points note2_points params_per_point;;
  num_new_points <- crossover_num_points h note1_points note2_points;;
  rest <- crossover_steps h note1_points note2_points params_per_point num_new_points
                          (Z.to_nat (num_new_points - 1)) 1 new_first_point;;
  new_pause <- crossover_pause h n1 n2;;
  let new_data_points := new_first_point :: rest in
  ret (mkNote new_fingers new_data_points [] None
              (Some (crossover_duration new_data_points)) (Some new_pause) None AI).

(** *** select_notes (lines 194-261) *)

Definition tag_eqb (a b : tag) : bool :=
  match a, b with Human, Human | AI, AI => true | _, _ => false end.

(** [n.get('phrase', 1)] *)
Definition phrase_or_1 (n : note) : Z :=
  match n.(phrase) with Some k => k | None => 1%Z end.

(** The helper [select_single_note] (lines 215-247). *)
Definition select_single_note (h : Q) (all_notes : list note) : AM (option note) :=
  m <- mutate h;;
  let use_human := negb m in
  if use_human then
    let human_notes := filter (fun n => tag_eqb n.(source) Human) all_notes in
    let human_notes := match human_notes with [] => all_notes | _ => human_notes end in
    match human_notes with
    | [] => ret (hd_error all_notes)
    | n0 :: rest =>
        match n0.(phrase) with
        | Some _ =>
            let max_phrase := fold_left Z.max (map phrase_or_1 rest) (phrase_or_1 n0) in
            let weights := map (fun n => Qpower 2 (phrase_or_1 n - max_phrase)) human_notes in
            let total_weight := Qsum weights in
            let probabilities := map (fun w => w / total_weight) weights in
            x <- choice_p human_notes probabilities;; ret (Some x)
        | None => x <- choice human_notes;; ret (Some x)
        end
    end
  else
    let ai_notes := filter (fun n => tag_eqb n.(source) AI) all_notes in
    let ai_notes := match ai_notes with [] => all_notes | _ => ai_notes end in
    match ai_notes with
    | [] => ret (hd_error all_notes)
    | _ => x <- choice ai_notes;; ret (Some x)
    end.

Definition select_notes (h : Q) (all_notes : list note) : AM (option (note * note)) :=
  match all_notes with
  | [] => ret None
  | [n] => ret (Some (n, n))
  | _ =>
      r <- catch (note1 <- select_single_note h all_notes;;
                  note2 <- select_single_note h all_notes;;
                  ret (note1, note2));;
      match r with
      | Some (Some note1, Some note2) => ret (Some (note1, note2))
      | _ => ret None
      end
  end.

(** *** generate_phrase (lines 263-320) *)

(** [note.get('data_points') and len(note['data_points']) > 0] *)
Definition has_points (n : note) : bool :=
  match n.(data_points) with [] => false | _ => true end.

Definition in_phrase (k : Z) (n : note) : bool :=
  match n.(phrase) with Some k' => Z.eqb k' k | None => false end.

(** Line 294: [max(1, int(n + variance))] with [variance = u * (n / 2.0)]. *)
Definition phrase_target (n : nat) (u : Q) : Z :=
  Z.max 1 (py_int (inject_Z (Z.of_nat n) + u * (inject_Z (Z.of_nat n) / 2))).

(** Lines 299-318: the generation loop; a failed selection breaks it, a
    failed crossover is skipped. *)
Fixpoint generate_loop (h : Q) (valid_notes : list note) (fuel : nat) : AM (list note) :=
  match fuel with
  | O => ret []
  | S f =>
      note_pair <- select_notes h valid_notes;;
      match note_pair with
      | None => ret []
      | Some (note1, note2) =>
          r <- catch (crossover h note1 note2);;
          rest <- generate_loop h valid_notes f;;
          ret (match r with Some new_note => new_note :: rest | None => rest end)
      end
  end.

Definition generate_phrase (h : Q) (all_notes : list note) (last_phrase_num : Z) : AM (list note) :=
  let n := length (filter (in_phrase last_phrase_num) all_notes) in
  if (n =? 0)%nat then ret []
  else
    let valid_notes := filter has_points all_notes in
    match valid_notes with
    | [] => ret []
    | _ =>
        u <- uniform (-1) 1;;
        generate_loop h valid_notes (Z.to_nat (phrase_target n u))
    end.

End Draws.

(** *** play_note (lines 413-485) *)

(** Decimal rendering of an int: Python [str]. *)
Fixpoint digits_N (fuel : nat) (n : N) (acc : string) : string :=
  match fuel with
  | O => acc
  | S f =>
      let acc' := String (Ascii.ascii_of_N (48 + N.modulo n 10)) acc in
      if (n <? 10)%N then acc' else digits_N f (N.div n 10) acc'
  end.

Definition str_Z (z : Z) : string :=
  let d := digits_N (S (N.size_nat (Z.to_N (Z.abs z)))) (Z.to_N (Z.abs z)) EmptyString in
  if (z <? 0)%Z then ("-" ++ d)%string else d.

(** [",".join(map(str, fingers)) if fingers else ""] *)
Definition fingers_str (fs : list Z) : string :=
  match fs with
  | [] => EmptyString
  | f :: rest => fold_left (fun acc g => (acc ++ ","%string ++ str_Z g)%string) rest (str_Z f)
  end.

Inductive osc_value : Type :=
| OscStr : string -> osc_value
| OscFloat : Q -> osc_value.

Definition msg : Type := (string * osc_value)%type.

(** The world seen by playback: the clock of [time.time()], the messages sent
    to the primary client and to the duplicate client (port 5007), and the
    time the environment takes.  Each I/O step (a send, a [time.sleep], a
    [time.time()] reading) comes after some time the program does not
    control -- the computation since the previous step, the transport of a
    datagram, the overshoot of a sleep: the [k]-th step takes [delay k]
    seconds more than it asks for.  As for the random draws, [delay] is an
    oracle, and quantifying over it covers every timing. *)
Record io := mkIO { clock : Q; sent : list msg; dup_sent : list msg;
                    delay : nat -> Q; steps : nat }.

Definition IOM := M io.

(** One I/O step that asks for [d] seconds. *)
Definition elapse (d : Q) (w : io) : io :=
  mkIO (w.(clock) + d + w.(delay) w.(steps)) w.(sent) w.(dup_sent) w.(delay) (S w.(steps)).

Definition send_message (addr : string) (v : osc_value) : IOM unit :=
  fun w => let w := elapse 0 w in
           (Ok tt, mkIO w.(clock) (w.(sent) ++ [(addr, v)]) w.(dup_sent) w.(delay) w.(steps)).

Definition dup_send_message (dup : bool) (addr : string) (v : osc_value) : IOM unit :=
  if dup then fun w => let w := elapse 0 w in
                       (Ok tt, mkIO w.(clock) w.(sent) (w.(dup_sent) ++ [(addr, v)]) w.(delay) w.(steps))
  else ret tt.

Definition time_now : IOM Q := fun w => let w := elapse 0 w in (Ok w.(clock), w).

Definition sleep (d : Q) : IOM unit := fun w => (Ok tt, elapse d w).

(** No step takes negative time: the clock never goes back. *)
Definition delays_ok (w : io) : Prop := forall k, 0 <= w.(delay) k.

(** The returned dict; ['pause_after'] is absent on the early return. *)
Record play_result := mkPlay {
  note_duration : Q;
  played_pause_after : option Q;
  total_duration : Q
}.

(** One iteration of the loop over [data_points] (lines 443-468). *)
Definition play_point (dup : bool) (i : nat) (pt : point) : IOM unit :=
  (if (0 <? i)%nat then sleep AGENT_POINT_INTERVAL else ret tt);;;
  x <- idx pt 0;; y <- idx pt 1;; z <- idx pt 2;;
  angle <- idx pt 3;; velocity <- idx pt 4;;
  send_message "/x"%string (OscFloat x);;;
  send_message "/y"%string (OscFloat y);;;
  send_message "/z"%string (OscFloat z);;;
  send_message "/angle"%string (OscFloat angle);;;
  send_message "/velocity"%string (OscFloat velocity);;;
  dup_send_message dup "/x"%string (OscFloat x);;;
  dup_send_message dup "/y"%string (OscFloat y);;;
  dup_send_message dup "/z"%string (OscFloat z);;;
  dup_send_message dup "/angle"%string (OscFloat angle);;;
  dup_send_message dup "/velocity"%string (OscFloat velocity).

Fixpoint play_points (dup : bool) (i : nat) (pts : list point) : IOM unit :=
  match pts with
  | [] => ret tt
  | pt :: rest => play_point dup i pt;;; play_points dup (S i) rest
  end.

(** [dup] tells whether [self.duplicate_osc_client] exists. *)
Definition play_note (dup : bool) (n : note) : IOM play_result :=
  let fingers := n.(fingers) in
  let data_points := n.(data_points) in
  let pause_after := match n.(pause_after) with Some p => p | None => 0 end in
  match data_points with
  | [] => ret (mkPlay 0 None 0)
  | _ =>
      let fs := fingers_str fingers in
      send_message "/fingers"%string (OscStr fs);;;
      dup_send_message dup "/fingers"%string (OscStr fs);;;
      start_time <- time_now;;
      play_points dup 0 data_points;;;
      t1 <- time_now;;
      let note_duration := t1 - start_time in
      (if Qlt_bool 0 pause_after then sleep pause_after else ret tt);;;
      t2 <- time_now;;
      ret (mkPlay note_duration (Some pause_after) (t2 - start_time))
  end.

(** ** NoteRecorder: note_similarity (lines 137-178) *)

Definition rbind {A B} (r : result A) (f : A -> result B) : result B :=
  match r with Ok a => f a | Err e => Err e end.
Notation "x <-r r ;; k" := (rbind r (fun x => k))
  (at level 61, r at next level, right associativity).

Fixpoint map_r {A B} (f : A -> result B) (l : list A) : result (list B) :=
  match l with
  | [] => Ok []
  | x :: xs => y <-r f x;; ys <-r map_r f xs;; Ok (y :: ys)
  end.

(** Unpacking [for x, y, z, angle, vel, t in note['data_points']]. *)
Definition traj_row (p : point) : result (list Q) :=
  match p with
  | [x; y; z; angle; vel; _] => Ok [x; y; z; angle; vel]
  | _ => Err ValueError
  end.

Definition vsub (a b : list Q) : list Q := map (fun '(x, y) => x - y) (combine a b).
Definition vadd (a b : list Q) : list Q := map (fun '(x, y) => x + y) (combine a b).
Definition dot (a b : list Q) : Q := Qsum (map (fun '(x, y) => x * y) (combine a b)).

(** [np.linalg.norm] of one vector. *)
Definition norm (v : list Q) : Q := Qsqrt_floor (Qsum (map (fun x => x * x) v)).

(** [np.diff(traj, axis=0)] *)
Fixpoint diffs (rows : list (list Q)) : list (list Q) :=
  match rows with
  | r1 :: ((r2 :: _) as rest) => vsub r2 r1 :: diffs rest
  | _ => []
  end.

(** [path_length]: a trajectory with no row is a 1-d [np.array([])], on
    which [np.linalg.norm(..., axis=1)] raises. *)
Definition path_length (traj : list (list Q)) : result Q :=
  match traj with
  | [] => Err AxisError
  | _ => Ok (Qsum (map norm (diffs traj)))
  end.

(** [np.mean(directions, axis=0)]; [None] stands for the all-NaN vector of
    an empty [directions]. *)
Definition mean_rows (rows : list (list Q)) : option (list Q) :=
  match rows with
  | [] => None
  | _ => Some (map (fun s => s / inject_Z (Z.of_nat (length rows)))
                   (fold_right vadd [0; 0; 0; 0; 0] rows))
  end.

Definition memb_Z (x : Z) (l : list Z) : bool := existsb (Z.eqb x) l.

Definition note_similarity (note1 note2 : note) : result Q :=
  let fingers1 := nodup Z.eq_dec note1.(fingers) in
  let fingers2 := nodup Z.eq_dec note2.(fingers) in
  let finger_sim :=
    match fingers1, fingers2 with
    | _ :: _, _ :: _ =>
        inject_Z (Z.of_nat (length (filter (fun x => memb_Z x fingers2) fingers1)))
        / inject_Z (Z.of_nat (length (nodup Z.eq_dec (note1.(fingers) ++ note2.(fingers)))))
    | _, _ => 0
    end in
  traj1 <-r map_r traj_row note1.(data_points);;
  traj2 <-r map_r traj_row note2.(data_points);;
  path1 <-r path_length traj1;;
  path2 <-r path_length traj2;;
  let path_ratio :=
    if Qlt_bool 0 path1 && Qlt_bool 0 path2 then py_min path1 path2 / py_max path1 path2
    else 0 in
  let direction_sim :=
    match mean_rows (diffs traj1), mean_rows (diffs traj2) with
    | Some avg_dir1, Some avg_dir2 =>
        let norm1 := norm avg_dir1 in
        let norm2 := norm avg_dir2 in
        if Qlt_bool 0 norm1 && Qlt_bool 0 norm2
        then (dot avg_dir1 avg_dir2 / (norm1 * norm2) + 1) / 2
        else 0
    | _, _ => 0
    end in
  Ok ((3 # 10) * finger_sim + (3 # 10) * path_ratio + (4 # 10) * direction_sim).

(** Lines 80-88 of [end_phrase]: similarities of consecutive notes of the
    list and their mean. *)
Fixpoint consecutive_similarities (l : list note) : result (list Q) :=
  match l with
  | n1 :: ((n2 :: _) as rest) =>
      s <-r note_similarity n1 n2;; ss <-r consecutive_similarities rest;; Ok (s :: ss)
  | _ => Ok []
  end.

Definition phrase_cohesion (l : list note) : result Q :=
  similarities <-r consecutive_similarities l;;
  match similarities with
  | [] => Ok 0
  | _ => Ok (Qsum similarities / inject_Z (Z.of_nat (length similarities)))
  end.

(** ** NoteRecorder: state and methods *)

Record recorder := mkRec {
  notes : list note;
  current_note : option note;
  last_record_time : option Q;
  pause_start_time : option Q;
  phrase_num : Z;
  pause_triggered : bool;
  last_phrase_ended : option Z;
  rec_agent : option agent;
  enable_agent : bool;
  frame_count : option Z
}.

Definition REC_POINT_INTERVAL : Q := 2 # 10000.
Definition PAUSE_PHRASE_THRESHOLD : Q := 3.
Definition LAST_NOTE_PAUSE : Q := 3.
(** The literal of line 113. *)
Definition MIN_NOTE_DURATION : Q := 1 # 10.

(** [NoteRecorder(agent, enable_agent)] *)
Definition init_recorder (a : option agent) (enable : bool) : recorder :=
  mkRec [] None None None 1 false None a enable None.

Definition with_notes (st : recorder) (ns : list note) : recorder :=
  mkRec ns st.(current_note) st.(last_record_time) st.(pause_start_time) st.(phrase_num)
        st.(pause_triggered) st.(last_phrase_ended) st.(rec_agent) st.(enable_agent) st.(frame_count).
Definition with_current (st : recorder) (c : option note) : recorder :=
  mkRec st.(notes) c st.(last_record_time) st.(pause_start_time) st.(phrase_num)
        st.(pause_triggered) st.(last_phrase_ended) st.(rec_agent) st.(enable_agent) st.(frame_count).
Definition with_pause (st : recorder) (ps : option Q) (trig : bool) : recorder :=
  mkRec st.(notes) st.(current_note) st.(last_record_time) ps st.(phrase_num)
        trig st.(last_phrase_ended) st.(rec_agent) st.(enable_agent) st.(frame_count).
Definition with_agent (st : recorder) (a : option agent) : recorder :=
  mkRec st.(notes) st.(current_note) st.(last_record_time) st.(pause_start_time) st.(phrase_num)
        st.(pause_triggered) st.(last_phrase_ended) a st.(enable_agent) st.(frame_count).

Definition RM := M recorder.

(** Apply [f] to the last element ([l[-1]]). *)
Fixpoint update_last {A} (f : A -> A) (l : list A) : list A :=
  match l with
  | [] => []
  | [x] => [f x]
  | x :: xs => x :: update_last f xs
  end.

Definition lift {S A} (r : result A) : M S A :=
  match r with Ok a => ret a | Err e => raise e end.

Definition key {S A} (o : option A) : M S A :=
  match o with Some a => ret a | None => raise KeyError end.

(** [save_current_note] (lines 105-117). *)
Definition save_current_note : RM unit :=
  st <- get;;
  match st.(current_note) with
  | None => ret tt
  | Some cn =>
      last_ts <- py_idx cn.(timestamps) (-1);;
      start <- key cn.(start_time);;
      let d := last_ts - start in
      let cn := set_duration cn d in
      let cn := match cn.(pause_after) with None => set_pause_after cn 0 | Some _ => cn end in
      let notes' := if Qle_bool MIN_NOTE_DURATION d then st.(notes) ++ [cn] else st.(notes) in
      put (mkRec notes' None st.(last_record_time) st.(pause_start_time) st.(phrase_num)
                 st.(pause_triggered) st.(last_phrase_ended) st.(rec_agent) st.(enable_agent)
                 (Some 0%Z))
  end.

(** [if self.current_note is not None: self.save_current_note()] *)
Definition close_open_note : RM unit :=
  st <- get;;
  match st.(current_note) with
  | Some _ => save_current_note
  | None => ret tt
  end.

(** Lines 22-26 of [start_note]: back-fill the previous note's pause. *)
Definition backfill_last (timestamp : Q) (last_note : note) : note :=
  match last_note.(timestamps) with
  | [] => last_note
  | ts =>
      if Qeq_bool (pause_or_0 last_note) 0
      then set_pause_after last_note (py_max 0 (timestamp - last ts 0))
      else last_note
  end.

Definition start_note (fingers : list Z) (x y z angle velocity timestamp : Q) : RM unit :=
  close_open_note;;;
  st <- get;;
  let ns := update_last (backfill_last timestamp) st.(notes) in
  put (mkRec ns
             (Some (mkNote fingers [[x; y; z; angle; velocity; 0]] [timestamp] (Some timestamp)
                           None None None Human))
             (Some timestamp) None st.(phrase_num) false st.(last_phrase_ended)
             st.(rec_agent) st.(enable_agent) st.(frame_count)).

(** [record_point] (lines 40-46). *)
Definition record_point (x y z angle velocity timestamp : Q) : RM unit :=
  st <- get;;
  match st.(current_note), st.(last_record_time) with
  | Some cn, Some lrt =>
      if Qle_bool REC_POINT_INTERVAL (timestamp - lrt) then
        start <- key cn.(start_time);;
        let relative_time := timestamp - start in
        let cn' := mkNote cn.(fingers) (cn.(data_points) ++ [[x; y; z; angle; velocity; relative_time]])
                          (cn.(timestamps) ++ [timestamp]) cn.(start_time) cn.(duration)
                          cn.(pause_after) cn.(phrase) cn.(source) in
        put (mkRec st.(notes) (Some cn') (Some timestamp) st.(pause_start_time) st.(phrase_num)
                   st.(pause_triggered) st.(last_phrase_ended) st.(rec_agent) st.(enable_agent)
                   st.(frame_count))
      else ret tt
  | Some _, None => raise ValueError  (* [timestamp - None] raises TypeError *)
  | None, _ => ret tt
  end.

(** [end_phrase] (lines 63-103). *)
Definition tag_phrase (k : Z) (n : note) : note :=
  match n.(phrase) with None => set_phrase n k | Some _ => n end.

Definition end_phrase (timestamp : Q) : RM unit :=
  st <- get;;
  let assigned_any := existsb (fun n => match n.(phrase) with None => true | Some _ => false end)
                              st.(notes) in
  let ns := map (tag_phrase st.(phrase_num)) st.(notes) in
  let ns := update_last (fun n => set_pause_after n LAST_NOTE_PAUSE) ns in
  put (with_notes st ns);;;
  c <- lift (phrase_cohesion ns);;
  st <- get;;
  let a' := if st.(enable_agent) then
              match st.(rec_agent) with
              | Some a => Some (set_hotness a (clamp01 (2 * ((8 # 10) - c))))
              | None => None
              end
            else st.(rec_agent) in
  let phrase_num_ended := st.(phrase_num) in
  put (mkRec st.(notes) st.(current_note) st.(last_record_time) None
             (if assigned_any then (phrase_num_ended + 1)%Z else phrase_num_ended)
             false (Some phrase_num_ended) a' st.(enable_agent) st.(frame_count)).

(** [pause] (lines 48-61); the boolean tells whether [end_phrase] ran. *)
Definition pause (timestamp : Q) : RM bool :=
  close_open_note;;;
  st <- get;;
  put (with_current st None);;;
  st <- get;;
  match st.(pause_start_time) with
  | None => put (with_pause st (Some timestamp) false);;; ret false
  | Some ps =>
      if Qle_bool PAUSE_PHRASE_THRESHOLD (timestamp - ps) && negb st.(pause_triggered) then
        end_phrase timestamp;;;
        st' <- get;;
        put (with_pause st' st'.(pause_start_time) true);;;
        ret true
      else ret false
  end.

(** [finalize] (lines 119-131): lines 123-127 fill the gaps between
    consecutive notes; an exception leaves the gaps already filled.  The loop
    of lines 129-131 is the identity here: every note record has a source. *)
Fixpoint fill_gaps (l : list note) : list note * option py_error :=
  match l with
  | n1 :: ((n2 :: _) as rest) =>
      match py_idx (S:=unit) n1.(timestamps) (-1) tt with
      | (Err e, _) => (l, Some e)
      | (Ok end_time, _) =>
          match n2.(start_time) with
          | None => (l, Some KeyError)
          | Some next_start_time =>
              let n1' := if Qeq_bool (pause_or_0 n1) 0
                         then set_pause_after n1 (next_start_time - end_time) else n1 in
              let (rest', e) := fill_gaps rest in (n1' :: rest', e)
          end
      end
  | _ => (l, None)
  end.

Definition finalize (current_time : Q) : RM unit :=
  close_open_note;;;
  st <- get;;
  let (ns, e) := fill_gaps st.(notes) in
  put (with_notes st ns);;;
  match e with Some e => raise e | None => ret tt end.

(** A run of [pause] calls; the list of the calls that ran [end_phrase]. *)
Fixpoint run_pauses (ts : list Q) : RM (list bool) :=
  match ts with
  | [] => ret []
  | t :: rest => b <- pause t;; bs <- run_pauses rest;; ret (b :: bs)
  end.

(** ** Specification predicates *)

(** Partial-correctness triple of a computation of [M]: from every state, a
    value satisfies [P] and an exception satisfies [E]. *)
Definition post {S A} (E : py_error -> Prop) (m : M S A) (P : A -> Prop) : Prop :=
  forall s, match fst (m s) with Ok a => P a | Err e => E e end.

Definition draws_unit (draw : nat -> Q) : Prop := forall i, 0 <= draw i /\ draw i < 1.

Definition finger_ok (f : Z) : Prop := (1 <= f <= 4)%Z.

Definition in_unit (x : Q) : Prop := 0 <= x /\ x <= 1.

(** A finger list as the data model has it: non-empty, drawn from 1..4. *)
Definition fingers_wf (fs : list Z) : Prop := fs <> [] /\ forall f, In f fs -> finger_ok f.

(** Every point of the list has width [w]. *)
Definition width (w : nat) (pts : list point) : Prop := forall p, In p pts -> length p = w.

(** The messages [play_note] sends to a client for one point. *)
Definition point_msgs (pt : point) : list msg :=
  [("/x"%string, OscFloat (nth 0 pt 0)); ("/y"%string, OscFloat (nth 1 pt 0));
   ("/z"%string, OscFloat (nth 2 pt 0)); ("/angle"%string, OscFloat (nth 3 pt 0));
   ("/velocity"%string, OscFloat (nth 4 pt 0))].

(** What a successful [crossover] of [n1] and [n2] returns. *)
Definition crossover_out (n1 n2 n : note) : Prop :=
  (fingers_wf n1.(fingers) -> fingers_wf n2.(fingers) -> fingers_wf n.(fingers)) /\
  (2 <= length n.(data_points))%nat /\
  (forall p x, In p n.(data_points) -> In x p -> in_unit x) /\
  (exists p, n.(pause_after) = Some p /\ (0 <= pause_or_0 n1 -> 0 <= pause_or_0 n2 -> 0 <= p)) /\
  n.(duration) = Some (inject_Z (Z.of_nat (length n.(data_points)) - 1) * AGENT_POINT_INTERVAL) /\
  n.(source) = AI.

(** Boolean checks of the data model, used on concrete notes. *)
Definition in_unit_b (x : Q) : bool := Qle_bool 0 x && Qle_bool x 1.
Definition points_unit_b (pts : list point) : bool := forallb (forallb in_unit_b) pts.
Definition fingers_wf_b (fs : list Z) : bool :=
  match fs with
  | [] => false
  | _ => forallb (fun f => (1 <=? f)%Z && (f <=? 4)%Z) fs
  end.
Definition width_b (w : nat) (pts : list point) : bool :=
  forallb (fun p => Nat.eqb (length p) w) pts.

(** Sample notes. *)
Definition pt6 (x : Q) (t : Q) : point := [x; x; x; x; x; t].
Definition pt5 (x : Q) : point := [x; x; x; x; x].

(** A recorded note of two 6-tuples. *)
Definition human6 : note :=
  mkNote [1; 2]%Z [pt6 (1 # 10) 0; pt6 (3 # 10) (1 # 5)] [0; 1 # 5] (Some 0) (Some (1 # 5))
         (Some 1) (Some 1%Z) Human.

(** A note of two 5-tuples (no relative time). *)
Definition note5 : note :=
  mkNote [3]%Z [pt5 (1 # 2); pt5 (7 # 10)] [] None (Some (2 # 100)) (Some 0) (Some 1%Z) AI.

(** A note of a single point. *)
Definition one_point : note :=
  mkNote [2]%Z [pt6 (1 # 2) 0] [0] (Some 0) (Some 0) (Some 0) (Some 1%Z) Human.

(** The oracle whose every draw is [1/2]. *)
Definition half_draws : nat -> Q := fun _ => 1 # 2.

(** A playback world at time 0 whose steps take 0, 1 and 2 ms in turn. *)
Definition sample_io : io := mkIO 0 [] [] (fun k => inject_Z (Z.of_nat (k mod 3)) / 1000) 0.

(** A recorder holding two recorded notes, agent enabled at hotness 0. *)
Definition rec_two : recorder :=
  with_notes (init_recorder (Some (mkAgent 0)) true) [human6; human6].

(** A recorder computation that leaves the number of stored notes as it is. *)
Definition keeps_len {A} (m : RM A) : Prop :=
  forall s, length (snd (m s)).(notes) = length s.(notes).

(** A recorder with an open note of two samples, 0.2 s apart. *)
Definition open_note : note :=
  mkNote [1]%Z [pt6 (1 # 10) 0; pt6 (3 # 10) (1 # 5)] [0; 1 # 5] (Some 0) None None None Human.
Definition rec_open : recorder :=
  mkRec [human6] (Some open_note) (Some (1 # 5)) None 1 false None None false None.

(** Notes of phrase 1 and an untagged note played after it: the phrase
    that ends next (phrase 2) holds one note. *)
Definition fresh6 : note :=
  mkNote [1; 2]%Z [pt6 (1 # 10) 0; pt6 (3 # 10) (1 # 5)] [4; 4 + (1 # 5)] (Some 4) (Some (1 # 5))
         None None Human.
Definition rec_phrase2 : recorder :=
  mkRec [human6; fresh6] None None None 2 false (Some 1%Z) (Some (mkAgent 0)) true None.

(** A recorder after a note from 0 s to 0.2 s, followed by pauses at
    1, 4, 5 and 8 s (one silence, no new note). *)
Definition silence_run : RM (list bool) :=
  start_note [1]%Z (1 # 10) (1 # 10) (1 # 10) (1 # 10) (1 # 10) 0;;;
  record_point (3 # 10) (3 # 10) (3 # 10) (3 # 10) (3 # 10) (1 # 5);;;
  run_pauses [1; 4; 5; 8].

(** Four recorded notes of phrase 1. *)
Definition four_notes : list note := [human6; human6; human6; human6].

(** The oracle whose first draw is [0.65] (so [np.random.uniform(-1, 1)]
    returns [0.3]) and every later draw [1/2]. *)
Definition draws_u03 : nat -> Q := fun i => if Nat.eqb i 0 then 13 # 20 else 1 # 2.

(** Python's [round] (half to even), as the spec's target count uses it. *)
Definition py_round (q : Q) : Z :=
  let f := Qfloor q in
  let d := q - inject_Z f in
  if Qlt_bool d (1 # 2) then f
  else if Qlt_bool (1 # 2) d then (f + 1)%Z
  else if Z.even f then f else (f + 1)%Z.

(** ** GenerativeAgent: the other methods *)

(** [generate_crossovers] (lines 177-192): [num_crossovers] independent
    crossovers of the same two parents; an exception is not caught. *)
Fixpoint generate_crossovers_loop (draw : nat -> Q) (h : Q) (note1 note2 : note) (k : nat)
  : AM (list note) :=
  match k with
  | O => ret []
  | S k' =>
      c <- crossover draw h note1 note2;;
      rest <- generate_crossovers_loop draw h note1 note2 k';;
      ret (c :: rest)
  end.

Definition generate_crossovers (draw : nat -> Q) (h : Q) (note1 note2 : note)
           (num_crossovers : Z) : AM (list note) :=
  generate_crossovers_loop draw h note1 note2 (Z.to_nat num_crossovers).

(** The note played by [play_phrase] after the phrase (line 354):
    [{'data_points': [(0, 0, 0, 0, 0)], 'fingers': [], 'pause_after': 0,
    'source': 'ai'}]. *)
Definition END_OF_PHRASE_NOTE : note :=
  mkNote [] [[0; 0; 0; 0; 0]] [] None None (Some 0) None AI.

(** Lines 342-350: every note is played; an exception of [play_note] is
    caught and the loop goes on. *)
Fixpoint play_notes (dup : bool) (notes : list note) : IOM unit :=
  match notes with
  | [] => ret tt
  | n :: rest => catch (play_note dup n);;; play_notes dup rest
  end.

(** [play_phrase] (lines 322-363); [osc_client] tells whether the client
    is not [None]. *)
Definition play_phrase (dup osc_client : bool) (notes : list note) : IOM Q :=
  match notes with
  | [] => ret 0
  | _ =>
      if negb osc_client then ret 0
      else
        start_time <- time_now;;
        play_notes dup notes;;;
        catch (play_note dup END_OF_PHRASE_NOTE);;;
        t <- time_now;;
        ret (t - start_time)
  end.

(** The world of [on_phrase_end]: the agent's random draws, the OSC world
    and the [note_recorder] argument (possibly [None]). *)
Record agent_world := mkAW {
  aw_draws : nat;
  aw_io : io;
  aw_rec : option recorder
}.

Definition on_draws {A} (m : AM A) : M agent_world A :=
  fun s => let (r, i) := m s.(aw_draws) in (r, mkAW i s.(aw_io) s.(aw_rec)).

Definition on_io {A} (m : IOM A) : M agent_world A :=
  fun s => let (r, w) := m s.(aw_io) in (r, mkAW s.(aw_draws) w s.(aw_rec)).

(** [on_phrase_end] (lines 365-411). *)
Definition on_phrase_end (draw : nat -> Q) (h : Q) (dup osc_client : bool)
           (all_notes : list note) (last_phrase_num : Z) : M agent_world unit :=
  match all_notes with
  | [] => ret tt
  | _ =>
      r <- catch (on_draws (generate_phrase draw h all_notes last_phrase_num));;
      match r with
      | None => ret tt
      | Some [] => ret tt
      | Some new_phrase_notes =>
          catch (on_io (play_phrase dup osc_client new_phrase_notes));;;
          s <- get;;
          match s.(aw_rec) with
          | None => ret tt
          | Some st => put (mkAW s.(aw_draws) s.(aw_io) (Some (with_pause st None false)))
          end
      end
  end.

(** ** NoteRecorder: [clear] and sequences of calls *)

(** [clear] (lines 183-187): [phrase_num], [pause_triggered] and
    [last_phrase_ended] are kept. *)
Definition clear : RM unit :=
  st <- get;;
  put (mkRec [] None None None st.(phrase_num) st.(pause_triggered) st.(last_phrase_ended)
             st.(rec_agent) st.(enable_agent) st.(frame_count)).

(** The public calls a caller (the frame loop of [main.py]) makes. *)
Inductive rec_call : Type :=
| CallStart (fingers : list Z) (x y z angle velocity timestamp : Q)
| CallRecord (x y z angle velocity timestamp : Q)
| CallPause (timestamp : Q)
| CallFinalize (current_time : Q)
| CallClear.

Definition run_call (c : rec_call) : RM unit :=
  match c with
  | CallStart fs x y z a v t => start_note fs x y z a v t
  | CallRecord x y z a v t => record_point x y z a v t
  | CallPause t => pause t;;; ret tt
  | CallFinalize t => finalize t
  | CallClear => clear
  end.

Fixpoint run_calls (cs : list rec_call) : RM unit :=
  match cs with
  | [] => ret tt
  | c :: rest => run_call c;;; run_calls rest
  end.

(** ** hand_detection.py *)

(** A MediaPipe landmark; only [x] and [y] are read. *)
Record landmark := mkLm { lx : Q; ly : Q }.

(** [l[k]] on a list, in [result]. *)
Definition nth_r {A} (l : list A) (k : nat) : result A :=
  match nth_error l k with Some a => Ok a | None => Err IndexError end.

(** [FINGER_TIPS] and [FINGER_NUMBERS], in their insertion order. *)
Definition FINGER_TIPS : list (string * nat) :=
  [("thumb", 4%nat); ("index", 8%nat); ("middle", 12%nat); ("ring", 16%nat); ("pinky", 20%nat)]%string.
Definition FINGER_NUMBERS : list (string * Z) :=
  [("index", 1%Z); ("middle", 2%Z); ("ring", 3%Z); ("pinky", 4%Z)]%string.

Fixpoint lookup_str {A} (k : string) (d : list (string * A)) : option A :=
  match d with
  | [] => None
  | (k', v) :: rest => if String.eqb k k' then Some v else lookup_str k rest
  end.

(** [x**2] *)
Definition sq (q : Q) : Q := q * q.

(** [np.sqrt((thumb_pos[0] - finger_pos[0])**2 + (thumb_pos[1] - finger_pos[1])**2)],
    with [np.sqrt] as [Qsqrt_floor]. *)
Definition tip_distance (thumb tip : landmark) : Q :=
  Qsqrt_floor (sq (thumb.(lx) - tip.(lx)) + sq (thumb.(ly) - tip.(ly))).

(** The loop of lines 67-78 of [get_touching_fingers]. *)
Fixpoint touching_loop (hand_landmarks : list landmark) (thumb_tip : landmark)
         (adjusted_threshold : Q) (tips : list (string * nat)) (touching : list Z)
  : result (list Z) :=
  match tips with
  | [] => Ok touching
  | (finger_name, finger_idx) :: rest =>
      if String.eqb finger_name "thumb" then
        touching_loop hand_landmarks thumb_tip adjusted_threshold rest touching
      else
        finger_tip <-r nth_r hand_landmarks finger_idx;;
        let distance := tip_distance thumb_tip finger_tip in
        if Qlt_bool distance adjusted_threshold then
          num <-r (match lookup_str finger_name FINGER_NUMBERS with
                   | Some v => Ok v | None => Err KeyError end);;
          touching_loop hand_landmarks thumb_tip adjusted_threshold rest (touching ++ [num])
        else touching_loop hand_landmarks thumb_tip adjusted_threshold rest touching
  end.

(** [get_touching_fingers] (lines 52-80); [main.py] passes the default
    [distance_threshold = 0.1]. *)
Definition get_touching_fingers (hand_landmarks : list landmark) (hand_z distance_threshold : Q)
  : result (list Z) :=
  thumb_tip <-r nth_r hand_landmarks 4;;
  let adjusted_threshold := distance_threshold - hand_z * (7 # 100) in
  touching <-r touching_loop hand_landmarks thumb_tip adjusted_threshold FINGER_TIPS [];;
  Ok (sorted_Z touching).

Definition color : Type := (Z * Z * Z)%type.
Definition MAGENTA : color := (255, 0, 255)%Z.
Definition GREEN : color := (0, 255, 0)%Z.
Definition RED : color := (0, 0, 255)%Z.

(** [get_finger_colors] (lines 83-104); default [distance_threshold = 0.05]. *)
Definition get_finger_colors (hand_landmarks : list landmark) (hand_z distance_threshold : Q)
  : result (list color) :=
  thumb_tip <-r nth_r hand_landmarks 4;;
  let adjusted_threshold := distance_threshold - hand_z * (2 # 100) in
  Ok (map (fun '(i, landmark) =>
             if Nat.eqb i 4 then MAGENTA
             else if Qlt_bool (tip_distance thumb_tip landmark) adjusted_threshold then GREEN
             else RED)
          (combine (seq 0 (length hand_landmarks)) hand_landmarks)).

(** [np.mean] of a list; on an empty list numpy gives NaN, which
    [get_hand_position] never returns (its [np.argmax] raises first). *)
Definition np_mean (l : list Q) : Q := Qsum l / inject_Z (Z.of_nat (length l)).

(** [np.argmax]: the first index of the maximum; [ValueError] when empty. *)
Fixpoint argmax_loop (best_i : nat) (best : Q) (i : nat) (l : list Q) : nat :=
  match l with
  | [] => best_i
  | x :: xs => if Qlt_bool best x then argmax_loop i x (S i) xs
               else argmax_loop best_i best (S i) xs
  end.

Definition np_argmax (l : list Q) : result nat :=
  match l with
  | [] => Err ValueError
  | x :: xs => Ok (argmax_loop 0 x 1 xs)
  end.

(** [get_hand_position] (lines 107-132). *)
Definition get_hand_position (hand_landmarks : list landmark) : result (Q * Q * Q) :=
  let x_coords := map lx hand_landmarks in
  let y_coords := map ly hand_landmarks in
  let avg_x := np_mean x_coords in
  let avg_y := np_mean y_coords in
  lowest_point_idx <-r np_argmax y_coords;;
  lowest <-r nth_r hand_landmarks lowest_point_idx;;
  let lowest_y := lowest.(ly) in
  pinky_base <-r nth_r hand_landmarks 17;;
  let distance_normalized :=
    Qsqrt_floor (sq (pinky_base.(lx) - lowest.(lx)) + sq (pinky_base.(ly) - lowest_y)) in
  let normalized_z := (distance_normalized - (125 # 1000)) / (175 # 1000) in
  Ok (avg_x, avg_y, clip01 normalized_z).

(** ** main.py: the frame loop *)

(** [np.clip(a, lo, hi)] = [np.minimum(np.maximum(a, lo), hi)]. *)
Definition np_clip (a lo hi : Q) : Q :=
  let m := if Qlt_bool a lo then lo else a in
  if Qlt_bool hi m then hi else m.

(** Lines 118-135 of [main.py]: the velocity of a frame, from the previous
    frame's position, time and velocity. *)
Definition frame_velocity (previous_hand_pos : option (Q * Q * Q))
           (previous_time previous_velocity : Q) (hand_pos : Q * Q * Q) (current_time : Q) : Q :=
  match previous_hand_pos with
  | None => 0
  | Some (px, py, pz) =>
      let time_delta := current_time - previous_time in
      if Qlt_bool 0 time_delta then
        let '(x, y, z) := hand_pos in
        let dx := x - px in
        let dy := y - py in
        let dz := z - pz in
        let distance := Qsqrt_floor (sq dx + sq dy + sq dz) in
        let raw_velocity := distance / time_delta in
        let velocity := np_clip (raw_velocity / 2) 0 1 in
        np_clip velocity (previous_velocity - (5 # 100)) (previous_velocity + (5 # 100))
      else 0
  end.

(** [finger_tracking[hand_idx]]: a dict finger -> frames since release, in
    insertion order. *)
Definition tracking := list (Z * Z).

Fixpoint dict_get (d : tracking) (k : Z) : option Z :=
  match d with
  | [] => None
  | (k', v) :: rest => if Z.eqb k k' then Some v else dict_get rest k
  end.

(** [d[k] = v]: in place for a present key, appended otherwise. *)
Fixpoint dict_set (d : tracking) (k v : Z) : tracking :=
  match d with
  | [] => [(k, v)]
  | (k', v') :: rest => if Z.eqb k k' then (k, v) :: rest else (k', v') :: dict_set rest k v
  end.

(** [del d[k]] *)
Fixpoint dict_del (d : tracking) (k : Z) : tracking :=
  match d with
  | [] => []
  | (k', v') :: rest => if Z.eqb k k' then rest else (k', v') :: dict_del rest k
  end.

Definition DEBOUNCE_FRAMES : Z := 20.

(** [set(touching)] in iteration order (ascending small ints). *)
Definition set_iter (l : list Z) : list Z := sorted_Z (nodup Z.eq_dec l).

(** One iteration of lines 108-113. *)
Definition age_finger (current_fingers : list Z) (d : tracking) (finger : Z) : tracking :=
  if memb_Z finger current_fingers then d
  else match dict_get d finger with
       | None => d  (* not reached: [finger] is a key of [d] *)
       | Some c =>
           let d := dict_set d finger (c + 1)%Z in
           if (DEBOUNCE_FRAMES <=? c + 1)%Z then dict_del d finger else d
       end.

(** Lines 95-113: the tracking dict after a frame with a hand. *)
Definition update_tracking (tr : tracking) (touching : list Z) : tracking :=
  let current_fingers := set_iter touching in
  let d := fold_left (fun d finger => dict_set d finger 0%Z) current_fingers tr in
  fold_left (age_finger current_fingers) (map fst d) d.

(** Line 116: [[f for f, count in finger_tracking[hand_idx].items() if count == 0]]. *)
Definition active_fingers (tr : tracking) : list Z :=
  map fst (filter (fun '(f, count) => Z.eqb count 0) tr).

(** ** Invariants of the recorder *)

(** Consecutive sample times at least [POINT_INTERVAL] apart. *)
Fixpoint spaced (ts : list Q) : Prop :=
  match ts with
  | t1 :: ((t2 :: _) as rest) => REC_POINT_INTERVAL <= t2 - t1 /\ spaced rest
  | _ => True
  end.

(** A note as [start_note] and [record_point] build it. *)
Definition note_wf (n : note) : Prop :=
  n.(data_points) <> [] /\ (forall p, In p n.(data_points) -> length p = 6%nat) /\
  length n.(data_points) = length n.(timestamps) /\ spaced n.(timestamps) /\
  n.(start_time) <> None.

Definition note_msgs (n : note) : list msg :=
  match n.(data_points) with
  | [] => []
  | dp => ("/fingers"%string, OscStr (fingers_str n.(fingers))) :: flat_map point_msgs dp
  end.

(** The time [play_note] asks to sleep for a note: the intervals between
    its points and its pause when positive. *)
Definition note_play_time (n : note) : Q :=
  match n.(data_points) with
  | [] => 0
  | dp => inject_Z (Z.of_nat (length dp) - 1) * AGENT_POINT_INTERVAL +
          (if Qlt_bool 0 (pause_or_0 n) then pause_or_0 n else 0)
  end.

Definition END_OF_PHRASE_MSGS : list msg :=
  ("/fingers"%string, OscStr EmptyString) :: point_msgs [0; 0; 0; 0; 0].

(** IO computations only append to the primary client's messages. *)
Definition grows {A} (m : IOM A) : Prop :=
  forall w, exists L, (snd (m w)).(sent) = w.(sent) ++ L.

(** The count a finger has after the aging loop, from the one before. *)
Definition aged (current_fingers : list Z) (f : Z) (o : option Z) : option Z :=
  if memb_Z f current_fingers then o
  else match o with
       | Some c => if (DEBOUNCE_FRAMES <=? c + 1)%Z then None else Some (c + 1)%Z
       | None => None
       end.

(** The landmark index of each finger number's tip. *)
Definition tip_of_finger : list (Z * nat) := [(1%Z, 8%nat); (2%Z, 12%nat); (3%Z, 16%nat); (4%Z, 20%nat)].

(** A note of [self.notes]: closed by [save_current_note], so its duration
    is stamped and at least [MIN_NOTE_DURATION], and its pause is set. *)
Definition stored_ok (n : note) : Prop :=
  exists s, n.(start_time) = Some s /\ n.(duration) = Some (last n.(timestamps) 0 - s) /\
            MIN_NOTE_DURATION <= last n.(timestamps) 0 - s /\ n.(pause_after) <> None.

(** The recorder's invariant; [FP] is a property of the finger lists the
    caller passes to [start_note]. *)
Definition recorder_wf (FP : list Z -> Prop) (st : recorder) : Prop :=
  (forall n, In n st.(notes) -> note_wf n /\ stored_ok n /\ FP n.(fingers)) /\
  match st.(current_note) with
  | None => True
  | Some cn => (note_wf cn /\ FP cn.(fingers)) /\ cn.(phrase) = None /\
               st.(last_record_time) = Some (last cn.(timestamps) 0)
  end /\
  (1 <= st.(phrase_num))%Z /\
  (forall n k, In n st.(notes) -> n.(phrase) = Some k -> (1 <= k < st.(phrase_num))%Z).

(** [x] is [y] with at most its pause (and phrase) changed. *)
Definition same_data (x y : note) : Prop :=
  x.(fingers) = y.(fingers) /\ x.(data_points) = y.(data_points) /\ x.(timestamps) = y.(timestamps) /\
  x.(start_time) = y.(start_time) /\ x.(duration) = y.(duration) /\
  (y.(pause_after) <> None -> x.(pause_after) <> None).

(** The calls whose [start_note] fingers satisfy [FP]. *)
Definition call_ok (FP : list Z -> Prop) (c : rec_call) : Prop :=
  match c with CallStart fs _ _ _ _ _ _ => FP fs | _ => True end.

(** ** main.py: note collection in the frame loop *)

(** The loop variables of [main.py] that outlive a frame;
    [finger_tracking] is [finger_tracking.get(0)], hand 0's dict if any. *)
Record main_state := mkMain {
  finger_tracking : option tracking;
  previous_hand_pos : option (Q * Q * Q);
  previous_time : Q;
  previous_velocity : Q;
  previous_active_fingers : list Z }.

(** Lines 52-61, with [t0] the first [time.time()]. *)
Definition init_main (t0 : Q) : main_state := mkMain None None t0 0 [].

(** Lines 89-93: [get_hand_position], then [get_touching_fingers] at the
    hand's z with the default threshold 0.1. *)
Definition frame_detect (hand_landmarks : list landmark) : result ((Q * Q * Q) * list Z) :=
  hand_pos <-r get_hand_position hand_landmarks;;
  let '(_, _, hand_z) := hand_pos in
  touching <-r get_touching_fingers hand_landmarks hand_z (1 # 10);;
  Ok (hand_pos, touching).

(** Lines 147-161: the recorder call of a frame with a hand. *)
Definition note_collection_call (active_fingers previous_active_fingers : list Z)
           (hand_pos : Q * Q * Q) (hand_angle velocity current_time_session : Q) : rec_call :=
  let '(x, y, z) := hand_pos in
  let fingers_changed :=
    if list_eq_dec Z.eq_dec (sorted_Z active_fingers) (sorted_Z previous_active_fingers)
    then false else true in
  match active_fingers with
  | _ :: _ =>
      if fingers_changed then CallStart active_fingers x y z hand_angle velocity current_time_session
      else CallRecord x y z hand_angle velocity current_time_session
  | [] => CallPause current_time_session
  end.

(** Lines 68-163 for one frame read at [current_time]: [hand] is the
    first detected hand's landmarks with its [get_hand_angle] (an
    [arctan2], taken as given), or [None] when no hand is detected
    (lines 219-222). The result is the recorder call the frame makes. *)
Definition main_frame (session_start_time current_time : Q) (hand : option (list landmark * Q))
           (s : main_state) : result (option rec_call) * main_state :=
  match hand with
  | None =>
      (Ok None, mkMain None s.(previous_hand_pos) s.(previous_time) s.(previous_velocity)
                       s.(previous_active_fingers))
  | Some (hand_landmarks, hand_angle) =>
      match frame_detect hand_landmarks with
      | Err e => (Err e, s)
      | Ok (hand_pos, touching) =>
          let tr := update_tracking (match s.(finger_tracking) with Some d => d | None => [] end)
                                    touching in
          let active := active_fingers tr in
          let velocity := frame_velocity s.(previous_hand_pos) s.(previous_time)
                                         s.(previous_velocity) hand_pos current_time in
          (Ok (Some (note_collection_call active s.(previous_active_fingers) hand_pos hand_angle
                                          velocity (current_time - session_start_time))),
           mkMain (Some tr) (Some hand_pos) current_time velocity active)
      end
  end.

(** The frame loop (lines 67-163) driving the recorder; each frame is a
    [time.time()] reading and the detected hand. An exception ends it. *)
Fixpoint main_loop (session_start_time : Q) (frames : list (Q * option (list landmark * Q)))
         (s : main_state) (st : recorder) : result unit * (main_state * recorder) :=
  match frames with
  | [] => (Ok tt, (s, st))
  | (current_time, hand) :: rest =>
      let (r, s') := main_frame session_start_time current_time hand s in
      match r with
      | Err e => (Err e, (s', st))
      | Ok None => main_loop session_start_time rest s' st
      | Ok (Some c) =>
          let (r2, st') := run_call c st in
          match r2 with
          | Err e => (Err e, (s', st'))
          | Ok _ => main_loop session_start_time rest s' st'
          end
      end
  end.

(** The first exception of hand detection ([get_hand_position] or
    [get_touching_fingers]) among the frames with a hand, if any. *)
Fixpoint first_detect_error (frames : list (Q * option (list landmark * Q))) : option py_error :=
  match frames with
  | [] => None
  | (_, None) :: rest => first_detect_error rest
  | (_, Some (hand_landmarks, _)) :: rest =>
      match frame_detect hand_landmarks with
      | Err e => Some e
      | Ok _ => first_detect_error rest
      end
  end.

(** A finger list as the main loop passes it to [start_note]: non-empty,
    without repeats, finger numbers 1-4. *)
Definition fingers_ok (fs : list Z) : Prop :=
  fs <> [] /\ NoDup fs /\ Forall (fun f => (1 <= f <= 4)%Z) fs.

(** Hand 0's tracking dict, when present: keys without repeats, counts
    non-negative. *)
Definition track_ok (o : option tracking) : Prop :=
  match o with
  | None => True
  | Some d => NoDup (map fst d) /\ (forall f c, dict_get d f = Some c -> (0 <= c)%Z)
  end.

(** ** Time order of the recorder's notes *)

(** A pause that is set is not negative. *)
Definition pause_ok (n : note) : Prop := forall p, n.(pause_after) = Some p -> 0 <= p.

(** Each note's samples are no later than the next note's start. *)
Fixpoint chronological (l : list note) : Prop :=
  match l with
  | n1 :: ((n2 :: _) as rest) =>
      (forall s2, n2.(start_time) = Some s2 -> forall x, In x n1.(timestamps) -> x <= s2) /\
      chronological rest
  | _ => True
  end.

(** The recorder's notes against a time [T] no earlier than any sample. *)
Definition rec_chrono (T : Q) (st : recorder) : Prop :=
  (forall n, In n st.(notes) -> pause_ok n /\ forall x, In x n.(timestamps) -> x <= T) /\
  chronological st.(notes) /\
  match st.(current_note) with
  | None => True
  | Some cn =>
      pause_ok cn /\ (forall x, In x cn.(timestamps) -> x <= T) /\
      (forall s, cn.(start_time) = Some s -> forall n x, In n st.(notes) -> In x n.(timestamps) -> x <= s)
  end.

(** The timestamp a call passes, if any ([finalize] ignores its own). *)
Definition call_time (c : rec_call) : option Q :=
  match c with
  | CallStart _ _ _ _ _ _ t | CallRecord _ _ _ _ _ t | CallPause t => Some t
  | CallFinalize _ | CallClear => None
  end.

(** The calls pass non-decreasing timestamps, from [T] on. *)
Fixpoint times_from (T : Q) (cs : list rec_call) : Prop :=
  match cs with
  | [] => True
  | c :: rest =>
      match call_time c with
      | Some t => T <= t /\ times_from t rest
      | None => times_from T rest
      end
  end.

(** Same samples and start. *)
Definition same_times (a b : note) : Prop :=
  a.(timestamps) = b.(timestamps) /\ a.(start_time) = b.(start_time).

(** Sample inputs. *)

(** 21 landmarks; the index and middle tips touch the thumb tip. *)
Definition lm_at (x y : Q) : landmark := mkLm x y.
Definition hand21 : list landmark :=
  [lm_at (1 # 2) (9 # 10); lm_at (1 # 2) (8 # 10); lm_at (1 # 2) (7 # 10); lm_at (1 # 2) (6 # 10);
   lm_at (1 # 2) (1 # 2);  lm_at (4 # 10) (7 # 10); lm_at (4 # 10) (6 # 10); lm_at (4 # 10) (55 # 100);
   lm_at (1 # 2) (51 # 100); lm_at (45 # 100) (7 # 10); lm_at (45 # 100) (6 # 10);
   lm_at (45 # 100) (55 # 100); lm_at (52 # 100) (1 # 2); lm_at (55 # 100) (7 # 10);
   lm_at (55 # 100) (6 # 10); lm_at (55 # 100) (4 # 10); lm_at (7 # 10) (3 # 10);
   lm_at (6 # 10) (75 # 100); lm_at (6 # 10) (65 # 100); lm_at (6 # 10) (55 # 100);
   lm_at (8 # 10) (2 # 10)].

Definition tracking_ab : tracking := [(1, 0); (3, 5)]%Z.

Definition sample_calls : list rec_call :=
  [CallStart [1]%Z (1 # 10) (1 # 10) (1 # 10) (1 # 10) (1 # 10) 0;
   CallRecord (2 # 10) (2 # 10) (2 # 10) (2 # 10) (2 # 10) (1 # 5);
   CallPause 1].

(** ** Proofs *)

(** [Qsqrt_floor] is a function of the value of its argument. *)
Lemma Qsqrt_floor_proper q q' : q == q' -> Qsqrt_floor q = Qsqrt_floor q'.
Proof.
  unfold Qeq, Qsqrt_floor. destruct q as [a d], q' as [a' d']; cbn [Qnum Qden]. intros E.
  f_equal. f_equal.
  set (K := (2 ^ (2 * SQRT_BITS))%Z).
  rewrite <- (Z.div_mul_cancel_r (a * K) (Zpos d) (Zpos d')) by lia.
  rewrite <- (Z.div_mul_cancel_r (a' * K) (Zpos d') (Zpos d)) by lia.
  replace (a * K * Zpos d')%Z with (K * (a * Zpos d'))%Z by ring. rewrite E.
  f_equal; ring.
Qed.

(** [Qsqrt_floor q] is the root of [q] rounded down to a multiple of
    [2^-64]: its square is at most [q], and [q] is below the square of the
    next multiple. *)
Lemma Qsqrt_floor_spec q : 0 <= q ->
  Qsqrt_floor q * Qsqrt_floor q <= q /\
  q < (Qsqrt_floor q + (1 # Z.to_pos (2 ^ SQRT_BITS))) * (Qsqrt_floor q + (1 # Z.to_pos (2 ^ SQRT_BITS))).
Proof.
  destruct q as [a d]. unfold Qle, Qlt, Qsqrt_floor, Qmult, Qplus. cbn [Qnum Qden]. intros Ha.
  set (K := (2 ^ SQRT_BITS)%Z).
  assert (HK : (0 < K)%Z) by (unfold K, SQRT_BITS; lia).
  replace (2 ^ (2 * SQRT_BITS))%Z with (K * K)%Z by (unfold K; rewrite <- Z.pow_add_r by (unfold SQRT_BITS; lia); f_equal; lia).
  rewrite !Pos2Z.inj_mul, !Z2Pos.id by exact HK.
  set (N := (a * (K * K) / Z.pos d)%Z).
  set (s := Z.sqrt N).
  assert (Ha0 : (0 <= a)%Z) by lia.
  assert (HN0 : (0 <= N)%Z) by (apply Z.div_pos; lia).
  destruct (Z.sqrt_spec N HN0) as [Hs1 Hs2]. fold s in Hs1, Hs2.
  assert (HNd : (Z.pos d * N <= a * (K * K))%Z) by (apply Z.mul_div_le; lia).
  assert (HNd2 : (a * (K * K) < Z.pos d * (N + 1))%Z).
  { pose proof (Z.mod_pos_bound (a * (K * K)) (Z.pos d) ltac:(lia)) as Hm.
    pose proof (Z.div_mod (a * (K * K)) (Z.pos d) ltac:(lia)) as Hdm. fold N in Hdm. lia. }
  split.
  - nia.
  - nia.
Qed.

Lemma Qlt_bool_iff a b : Qlt_bool a b = true <-> a < b.
Proof.
  unfold Qlt_bool. rewrite negb_true_iff. split; intro H.
  - apply Qnot_le_lt. intro H'. apply Qle_bool_iff in H'. congruence.
  - destruct (Qle_bool b a) eqn:E; [|reflexivity].
    apply Qle_bool_iff in E. exfalso. apply (Qlt_not_le a b); assumption.
Qed.

Lemma Qlt_bool_false a b : Qlt_bool a b = false <-> b <= a.
Proof.
  unfold Qlt_bool. rewrite negb_false_iff. apply Qle_bool_iff.
Qed.

Lemma post_ret {S A} E (a : A) (P : A -> Prop) : P a -> post (S:=S) E (ret a) P.
Proof. intros H s. exact H. Qed.

Lemma post_raise {S A} (E : py_error -> Prop) e (P : A -> Prop) : E e -> post (S:=S) E (raise e) P.
Proof. intros H s. exact H. Qed.

Lemma post_bind {S A B} E (m : M S A) (f : A -> M S B) Q P :
  post E m Q -> (forall a, Q a -> post E (f a) P) -> post E (bind m f) P.
Proof.
  intros Hm Hf s. unfold bind. specialize (Hm s).
  destruct (m s) as [[a|e] s']; simpl in *; [apply Hf|]; assumption.
Qed.

Lemma post_weaken {S A} (E E' : py_error -> Prop) (m : M S A) (P P' : A -> Prop) :
  post E m P -> (forall a, P a -> P' a) -> (forall e, E e -> E' e) -> post E' m P'.
Proof.
  intros H HP HE s. specialize (H s). destruct (fst (m s)); auto.
Qed.

Lemma post_conseq {S A} E (m : M S A) (P P' : A -> Prop) :
  post E m P -> (forall a, P a -> P' a) -> post E m P'.
Proof. intros H HP. exact (post_weaken E E m P P' H HP (fun e x => x)). Qed.

Lemma post_true {S A} (m : M S A) : post (fun _ => True) m (fun _ => True).
Proof. intros s. destruct (fst (m s)); exact I. Qed.

Lemma post_idx {S A} E (l : list A) k :
  (k < length l)%nat \/ E IndexError -> post (S:=S) E (idx l k) (fun a => In a l).
Proof.
  intros H s. unfold idx. destruct (nth_error l k) eqn:Hn.
  - simpl. eapply nth_error_In; eassumption.
  - simpl. destruct H as [H|H]; [|exact H].
    apply nth_error_None in Hn. lia.
Qed.

Lemma post_idx_nth {S A} E (l : list A) k :
  (k < length l)%nat \/ E IndexError -> post (S:=S) E (idx l k) (fun a => nth_error l k = Some a).
Proof.
  intros H s. unfold idx. destruct (nth_error l k) eqn:Hn; [reflexivity|].
  simpl. destruct H as [H|H]; [|exact H]. apply nth_error_None in Hn. lia.
Qed.

Lemma post_map_m {S A B} E (f : A -> M S B) (l : list A) (P : B -> Prop) :
  (forall a, In a l -> post E (f a) P) ->
  post E (map_m f l) (fun ys => length ys = length l /\ forall y, In y ys -> P y).
Proof.
  induction l as [|x xs IH]; intros H; simpl.
  - apply post_ret. split; [reflexivity | intros y []].
  - apply post_bind with (Q := P); [apply H; left; reflexivity|].
    intros y Hy. apply post_bind with (Q := fun ys => length ys = length xs /\ forall y, In y ys -> P y).
    + apply IH. intros a Ha. apply H. right. exact Ha.
    + intros ys [Hl Hys]. apply post_ret. simpl. split; [congruence|].
      intros z [<-|Hz]; auto.
Qed.

Lemma post_filter_m {S A} E (f : A -> M S bool) (l : list A) :
  (forall a, In a l -> post E (f a) (fun _ => True)) ->
  post E (filter_m f l) (fun ys => forall y, In y ys -> In y l).
Proof.
  induction l as [|x xs IH]; intros H; simpl.
  - apply post_ret. intros y [].
  - apply post_bind with (Q := fun _ => True); [apply H; left; reflexivity|].
    intros b _. apply post_bind with (Q := fun ys => forall y, In y ys -> In y xs).
    + apply IH. intros a Ha. apply H. right. exact Ha.
    + intros ys Hys. apply post_ret. intros y Hy.
      destruct b; [destruct Hy as [<-|Hy]; [left; reflexivity|]|]; right; auto.
Qed.

Section DrawLemmas.

Variable draw : nat -> Q.
Hypothesis Hdraw : draws_unit draw.

Lemma post_random E : post E (random draw) (fun r => 0 <= r /\ r < 1).
Proof. intros i. simpl. apply Hdraw. Qed.

Lemma floor_scaled_lt (r : Q) (n : nat) :
  0 <= r -> r < 1 -> (0 < n)%nat -> (Z.to_nat (Qfloor (r * inject_Z (Z.of_nat n))) < n)%nat.
Proof.
  intros H0 H1 Hn.
  assert (Hpos : 0 < inject_Z (Z.of_nat n)).
  { change 0 with (inject_Z 0). rewrite <- Zlt_Qlt. lia. }
  assert (Hx : r * inject_Z (Z.of_nat n) < inject_Z (Z.of_nat n)).
  { setoid_replace (inject_Z (Z.of_nat n)) with (1 * inject_Z (Z.of_nat n)) at 2 by ring.
    apply Qmult_lt_r; assumption. }
  pose proof (Qfloor_le (r * inject_Z (Z.of_nat n))) as Hf.
  assert (Hlt : inject_Z (Qfloor (r * inject_Z (Z.of_nat n))) < inject_Z (Z.of_nat n))
    by (eapply Qle_lt_trans; eassumption).
  rewrite <- Zlt_Qlt in Hlt. lia.
Qed.

Lemma post_randbelow E n : (0 < n)%nat -> post E (randbelow draw n) (fun k => (k < n)%nat).
Proof.
  intros Hn. unfold randbelow. eapply post_bind; [apply post_random|].
  intros r [H0 H1]. apply post_ret. apply floor_scaled_lt; assumption.
Qed.

Lemma post_randint E a b : (a <= b)%Z -> post E (randint draw a b) (fun k => (a <= k <= b)%Z).
Proof.
  intros Hab. unfold randint. eapply post_bind; [apply post_randbelow; lia|].
  intros k Hk. apply post_ret. cbv beta in *. lia.
Qed.

Lemma post_choice {A} E (l : list A) : l <> [] -> post E (choice draw l) (fun x => In x l).
Proof.
  intros Hl. unfold choice. eapply post_bind.
  - apply post_randbelow. destruct l; [congruence | simpl; lia].
  - intros k Hk. apply post_idx. left. exact Hk.
Qed.

Lemma post_mutate E h :
  (Qeq_bool (mutation_den h) 0 = true -> E ZeroDivisionError) ->
  post E (mutate draw h) (fun _ => True).
Proof.
  intros HZ. unfold mutate. destruct (Qeq_bool (mutation_den h) 0) eqn:Hd.
  - apply post_raise. auto.
  - eapply post_bind; [apply post_random|]. intros. apply post_ret. exact I.
Qed.

Lemma post_blend E h : post E (blend_factor draw h) in_unit.
Proof.
  unfold blend_factor. eapply post_bind; [apply post_random|]. intros r _.
  destruct (Qlt_bool h r).
  - eapply post_bind; [apply post_random|]. intros r2 _. apply post_ret.
    destruct (Qlt_bool r2 (1 # 2)); unfold in_unit; split; discriminate.
  - apply (post_weaken E E _ _ _ (post_random E)); [|auto].
    intros a [Ha1 Ha2]. split; lra.
Qed.

End DrawLemmas.

(** *** Lists *)

Lemma In_insert_Z x a l : In x (insert_Z a l) <-> x = a \/ In x l.
Proof.
  induction l as [|y ys IH]; simpl.
  - intuition congruence.
  - destruct (a <=? y)%Z; simpl; [intuition congruence|]. rewrite IH. tauto.
Qed.

Lemma In_sorted_Z x l : In x (sorted_Z l) <-> In x l.
Proof.
  induction l as [|y ys IH]; simpl; [tauto|].
  rewrite In_insert_Z, IH. intuition congruence.
Qed.

Lemma sorted_Z_nil l : sorted_Z l = [] -> l = [].
Proof.
  destruct l as [|y ys]; [reflexivity|]. simpl.
  destruct (sorted_Z ys) as [|z zs]; simpl; [discriminate|].
  destruct (y <=? z)%Z; discriminate.
Qed.

Lemma list_assign_some {A} (l : list A) j v :
  (j < length l)%nat ->
  exists l', list_assign l j v = Some l' /\ length l' = length l /\
             (forall x, In x l' -> x = v \/ In x l).
Proof.
  revert j. induction l as [|y ys IH]; intros j Hj; simpl in Hj; [lia|].
  destruct j as [|j].
  - exists (v :: ys). simpl. split; [reflexivity|]. split; [reflexivity|].
    intros x [<-|Hx]; [left; reflexivity | right; right; exact Hx].
  - destruct (IH j) as (l' & H1 & H2 & H3); [lia|].
    exists (y :: l'). simpl. rewrite H1. simpl. split; [reflexivity|].
    split; [congruence|]. intros x [<-|Hx]; [right; left; reflexivity|].
    destruct (H3 x Hx); [left | right; right]; assumption.
Qed.

Lemma post_py_idx {S A} E (l : list A) (k : Z) :
  (0 <= k < Z.of_nat (length l))%Z \/ E IndexError ->
  post (S:=S) E (py_idx l k) (fun a => In a l).
Proof.
  intros H. unfold py_idx. destruct (k <? 0)%Z eqn:Hk.
  - destruct H as [H|H].
    + apply Z.ltb_lt in Hk. lia.
    + destruct (Z.of_nat (length l) + k <? 0)%Z; [apply post_raise; exact H|].
      apply post_idx. right. exact H.
  - apply post_idx. destruct H as [H|H]; [left; lia | right; exact H].
Qed.

Lemma length_combine_map {A B C} (f : A * B -> C) (l1 : list A) (l2 : list B) n :
  length l1 = n -> length l2 = n -> length (map f (combine l1 l2)) = n.
Proof. intros H1 H2. rewrite length_map, length_combine. lia. Qed.

Section SampleLemmas.

Variable draw : nat -> Q.
Hypothesis Hdraw : draws_unit draw.

Lemma post_sample_loop E fuel i n pool :
  length pool = n -> (i + fuel <= n)%nat -> (forall x, In x pool -> finger_ok x) ->
  post E (sample_loop draw fuel i n pool)
       (fun s => length s = fuel /\ forall x, In x s -> finger_ok x).
Proof.
  revert i pool. induction fuel as [|f IH]; intros i pool Hlen Hle Hok; simpl.
  - apply post_ret. split; [reflexivity | intros x []].
  - eapply post_bind; [apply post_randbelow; [exact Hdraw | lia]|]. intros j Hj. cbv beta in Hj.
    eapply post_bind; [apply post_idx; left; lia|]. intros x Hx.
    eapply post_bind; [apply post_idx; left; lia|]. intros y Hy.
    destruct (list_assign_some pool j y) as (pool' & Ha & Hl' & Hin); [lia|].
    rewrite Ha.
    eapply post_bind; [apply IH; [lia | lia |]|].
    + intros z Hz. destruct (Hin z Hz) as [->|Hz']; auto.
    + intros rest [Hr1 Hr2]. apply post_ret. simpl. split; [congruence|].
      intros z [<-|Hz]; auto.
Qed.

Lemma post_sample_fingers E k :
  (1 <= k <= 4)%Z ->
  post E (sample draw [1; 2; 3; 4]%Z k)
       (fun s => s <> [] /\ forall x, In x s -> finger_ok x).
Proof.
  intros Hk. unfold sample. simpl length.
  destruct ((k <? 0)%Z || (Z.of_nat 4 <? k)%Z)%bool eqn:Hb.
  - apply orb_true_iff in Hb. destruct Hb as [Hb|Hb]; apply Z.ltb_lt in Hb; lia.
  - assert (Hp : post E (sample_loop draw (Z.to_nat k) 0 4 [1; 2; 3; 4]%Z)
                       (fun s => length s = Z.to_nat k /\ forall x, In x s -> finger_ok x)).
    { apply post_sample_loop; [reflexivity | lia |].
      intros x Hx. unfold finger_ok. simpl in Hx. lia. }
    apply (post_weaken E E _ _ _ Hp); [|auto].
    intros s [Hs1 Hs2]. split; [|exact Hs2]. intros ->. simpl in Hs1. lia.
Qed.

End SampleLemmas.

(** *** Arithmetic facts *)

Lemma clip01_unit v : in_unit (clip01 v).
Proof.
  unfold clip01, in_unit. destruct (Qlt_bool v 0) eqn:H0; [split; discriminate|].
  destruct (Qlt_bool 1 v) eqn:H1; [split; discriminate|].
  apply Qlt_bool_false in H0. apply Qlt_bool_false in H1. split; assumption.
Qed.

Lemma interp_nonneg v1 v2 b : 0 <= v1 -> 0 <= v2 -> in_unit b -> 0 <= v1 + b * (v2 - v1).
Proof.
  intros H1 H2 [Hb0 Hb1].
  assert (HA : 0 <= (1 - b) * v1) by (apply Qmult_le_0_compat; lra).
  assert (HB : 0 <= b * v2) by (apply Qmult_le_0_compat; lra).
  setoid_replace (v1 + b * (v2 - v1)) with ((1 - b) * v1 + b * v2) by ring. lra.
Qed.

Lemma py_int_nonneg q : 0 <= q -> py_int q = Qfloor q /\ (0 <= Qfloor q)%Z.
Proof.
  intros Hq. unfold py_int. apply Qle_bool_iff in Hq as Hb. rewrite Hb. split; [reflexivity|].
  apply Qle_bool_iff in Hb. apply Qfloor_resp_le in Hb. exact Hb.
Qed.

Lemma source_index_range pidx num len :
  (2 <= len)%nat -> (0 <= pidx)%Z -> (0 < num)%Z ->
  (1 <= source_index pidx num len <= Z.of_nat len - 1)%Z.
Proof.
  intros Hlen Hp Hn. unfold source_index.
  assert (Hx : 0 <= (inject_Z pidx / inject_Z num) * inject_Z (Z.of_nat len)).
  { apply Qmult_le_0_compat.
    - apply Qmult_le_0_compat.
      + change 0 with (inject_Z 0). rewrite <- Zle_Qle. exact Hp.
      + apply Qinv_le_0_compat. change 0 with (inject_Z 0). rewrite <- Zle_Qle. lia.
    - change 0 with (inject_Z 0). rewrite <- Zle_Qle. lia. }
  destruct (py_int_nonneg _ Hx) as [-> Hf].
  destruct (Z.min _ _ =? 0)%Z eqn:Hz; [lia|]. apply Z.eqb_neq in Hz. lia.
Qed.

Lemma mutation_den_pos h : 0 <= h -> h <= 1 -> Qeq_bool (mutation_den h) 0 = false.
Proof.
  intros H0 H1. destruct (Qeq_bool (mutation_den h) 0) eqn:E; [|reflexivity].
  apply Qeq_bool_iff in E. unfold mutation_den in E. exfalso. lra.
Qed.

Lemma In_set_union x f1 f2 : In x (set_union f1 f2) <-> In x (f1 ++ f2).
Proof. unfold set_union. rewrite In_sorted_Z. apply nodup_In. Qed.

(** *** crossover: the pieces *)

Section CrossoverLemmas.

Variable draw : nat -> Q.
Hypothesis Hdraw : draws_unit draw.
Variable h : Q.
Variable E : py_error -> Prop.
Hypothesis HZ : Qeq_bool (mutation_den h) 0 = true -> E ZeroDivisionError.

Lemma post_interpolate_value v1 v2 :
  post E (interpolate_value draw h v1 v2)
       (fun v => 0 <= v1 -> 0 <= v2 -> 0 <= v).
Proof.
  unfold interpolate_value. eapply post_bind; [apply post_blend; exact Hdraw|].
  intros b Hb. apply post_ret. intros H1 H2. apply interp_nonneg; assumption.
Qed.

Lemma post_crossover_fingers f1 f2 :
  E ValueError \/ (fingers_wf f1 /\ fingers_wf f2) ->
  post E (crossover_fingers draw h f1 f2)
       (fun fs => fingers_wf f1 -> fingers_wf f2 -> fingers_wf fs).
Proof.
  intros HF. unfold crossover_fingers.
  eapply post_bind; [apply post_mutate; [exact Hdraw | exact HZ]|]. intros m _. destruct m.
  - eapply post_bind; [apply post_randint; [exact Hdraw | lia]|]. intros k Hk.
    eapply post_bind; [apply post_sample_fingers; [exact Hdraw | exact Hk]|].
    intros s [Hs1 Hs2]. apply post_ret. intros _ _. split.
    + intros Hn. apply Hs1. apply sorted_Z_nil. exact Hn.
    + intros f Hf. apply Hs2. apply In_sorted_Z. exact Hf.
  - eapply post_bind; [apply post_random; exact Hdraw|]. intros r _.
    destruct (Qlt_bool r h).
    + eapply post_bind.
      { apply post_filter_m. intros a _.
        eapply post_bind; [apply post_random; exact Hdraw|]. intros. apply post_ret. exact I. }
      intros kept Hkept. destruct (sorted_Z kept) as [|z zs] eqn:Hs.
      * unfold np_choice. destruct (set_union f1 f2) as [|a rest] eqn:Hu.
        -- apply post_raise. destruct HF as [HF|[[Hf1 _] _]]; [exact HF|].
           exfalso. destruct f1 as [|x xs]; [congruence|].
           assert (Hx : In x (set_union (x :: xs) f2)) by (apply In_set_union; left; reflexivity).
           rewrite Hu in Hx. exact Hx.
        -- rewrite <- Hu. eapply post_bind; [apply post_choice; [exact Hdraw | congruence]|].
           intros c Hc. apply post_ret. intros [_ Hf1] [_ Hf2]. split; [discriminate|].
           intros f [<-|[]]. apply In_set_union, in_app_or in Hc. destruct Hc; auto.
      * apply post_ret. intros [_ Hf1] [_ Hf2]. split; [discriminate|].
        intros f Hf. rewrite <- Hs in Hf. apply In_sorted_Z, Hkept, In_set_union, in_app_or in Hf.
        destruct Hf; auto.
    + eapply post_bind; [apply post_random; exact Hdraw|]. intros r' _. apply post_ret.
      intros H1 H2. destruct (Qlt_bool r' (1 # 2)); assumption.
Qed.

Lemma post_crossover_first_point pts1 pts2 P :
  E IndexError \/ (exists q1 q2 r1 r2, pts1 = q1 :: r1 /\ pts2 = q2 :: r2 /\
                                      (P <= length q1)%nat /\ (P <= length q2)%nat) ->
  post E (crossover_first_point draw h pts1 pts2 P)
       (fun p => length p = P /\ forall x, In x p -> in_unit x).
Proof.
  intros HI. unfold crossover_first_point.
  eapply post_conseq; [apply post_map_m with (P := in_unit) |].
  - intros k Hk. apply in_seq in Hk.
    eapply post_bind; [apply post_mutate; [exact Hdraw | exact HZ]|]. intros m _. destruct m.
    + eapply post_conseq; [apply post_random; exact Hdraw |].
      intros a [Ha1 Ha2]. split; lra.
    + eapply post_bind; [apply post_idx_nth; destruct HI as [HI|(q1 & q2 & r1 & r2 & -> & -> & _)];
                         [right; exact HI | left; simpl; lia]|].
      intros q1 Hq1. eapply post_bind.
      { apply post_idx. destruct HI as [HI|(q1' & q2 & r1 & r2 & -> & -> & H1 & _)];
          [right; exact HI | left; simpl in Hq1; injection Hq1 as <-; lia]. }
      intros v1 _.
      eapply post_bind; [apply post_idx_nth; destruct HI as [HI|(q1' & q2 & r1 & r2 & -> & -> & _)];
                         [right; exact HI | left; simpl; lia]|].
      intros q2 Hq2. eapply post_bind.
      { apply post_idx. destruct HI as [HI|(q1' & q2' & r1 & r2 & -> & -> & _ & H2)];
          [right; exact HI | left; simpl in Hq2; injection Hq2 as <-; lia]. }
      intros v2 _. eapply post_bind; [apply post_interpolate_value|].
      intros v _. apply post_ret. apply clip01_unit.
  - intros p [Hl Hp]. rewrite length_seq in Hl. split; assumption.
Qed.

Lemma post_crossover_num_points pts1 pts2 :
  post E (crossover_num_points draw h pts1 pts2) (fun k => (2 <= k)%Z).
Proof.
  unfold crossover_num_points. eapply post_bind; [apply post_mutate; [exact Hdraw | exact HZ]|].
  intros m _. destruct m.
  - cbv zeta. eapply post_conseq; [apply post_randint; [exact Hdraw | lia] |].
    intros k Hk. cbv beta in Hk. lia.
  - eapply post_bind; [apply post_interpolate_value|]. intros v _. apply post_ret. cbv beta. lia.
Qed.

Lemma post_crossover_pause n1 n2 :
  post E (crossover_pause draw h n1 n2)
       (fun p => 0 <= pause_or_0 n1 -> 0 <= pause_or_0 n2 -> 0 <= p).
Proof.
  unfold crossover_pause. eapply post_bind; [apply post_mutate; [exact Hdraw | exact HZ]|].
  intros m _. destruct m.
  - eapply post_bind; [apply post_random; exact Hdraw|]. intros r [Hr _].
    apply post_ret. intros _ _. apply Qmult_le_0_compat; [exact Hr | discriminate].
  - apply post_interpolate_value.
Qed.

Lemma post_uniform lo hi : post E (uniform draw lo hi) (fun _ => True).
Proof.
  unfold uniform. eapply post_bind; [apply post_random; exact Hdraw|]. intros. apply post_ret. exact I.
Qed.

Lemma post_step_vec pts s P :
  E IndexError \/ ((1 <= s <= Z.of_nat (length pts) - 1)%Z /\ width P pts) ->
  post E (step_vec pts s P) (fun v => length v = P).
Proof.
  intros HI. unfold step_vec.
  eapply post_conseq; [apply post_map_m with (P := fun _ => True)|].
  - intros i Hi. apply in_seq in Hi.
    apply post_bind with (Q := fun _ => True).
    { eapply post_bind.
      - apply post_py_idx. destruct HI as [HI|[Hs _]]; [right; exact HI | left; lia].
      - intros q Hq. eapply post_conseq; [apply post_idx|intros; exact I].
        destruct HI as [HI|[_ HW]]; [right; exact HI | left; rewrite (HW q Hq); lia]. }
    intros a _. apply post_bind with (Q := fun _ => True).
    { eapply post_bind.
      - apply post_py_idx. destruct HI as [HI|[Hs _]]; [right; exact HI | left; lia].
      - intros q Hq. eapply post_conseq; [apply post_idx|intros; exact I].
        destruct HI as [HI|[_ HW]]; [right; exact HI | left; rewrite (HW q Hq); lia]. }
    intros b _. apply post_ret. exact I.
  - intros v [Hl _]. rewrite length_seq in Hl. exact Hl.
Qed.

Lemma post_crossover_steps pts1 pts2 P num fuel pidx cur :
  E IndexError \/ ((2 <= length pts1)%nat /\ (2 <= length pts2)%nat /\ width P pts1 /\ width P pts2) ->
  (0 <= pidx)%Z -> (0 < num)%Z -> length cur = P ->
  post E (crossover_steps draw h pts1 pts2 P num fuel pidx cur)
       (fun rest => length rest = fuel /\
                    forall p, In p rest -> length p = P /\ forall x, In x p -> in_unit x).
Proof.
  intros HI Hp0 Hn. revert pidx cur Hp0. induction fuel as [|f IH]; intros pidx cur Hp0 Hc; simpl.
  - apply post_ret. split; [reflexivity | intros p []].
  - eapply post_bind; [apply post_mutate; [exact Hdraw | exact HZ]|]. intros m _.
    apply post_bind with (Q := fun v : list Q => length v = P).
    + destruct m.
      * eapply post_conseq; [apply post_map_m with (P := fun _ => True)|].
        -- intros. apply post_uniform.
        -- intros v [Hl _]. rewrite length_seq in Hl. exact Hl.
      * eapply post_bind.
        { apply post_step_vec. destruct HI as [HI|(H1 & H2 & W1 & W2)]; [left; exact HI|].
          right. split; [apply source_index_range; lia | exact W1]. }
        intros v1 H1. eapply post_bind.
        { apply post_step_vec. destruct HI as [HI|(H1' & H2 & W1 & W2)]; [left; exact HI|].
          right. split; [apply source_index_range; lia | exact W2]. }
        intros v2 H2. unfold interpolate_vector.
        eapply post_bind; [apply post_blend; exact Hdraw|]. intros b _.
        apply post_ret. apply length_combine_map; assumption.
    + intros v Hv. apply post_bind with (Q := fun np : list Q => length np = P).
      * eapply post_conseq; [apply post_map_m with (P := fun _ => True)|].
        -- intros i Hi. apply in_seq in Hi.
           apply post_bind with (Q := fun _ => True);
             [eapply post_conseq; [apply post_idx; left; lia | intros; exact I]|].
           intros c _. apply post_bind with (Q := fun _ => True);
             [eapply post_conseq; [apply post_idx; left; lia | intros; exact I]|].
           intros w _. apply post_ret. exact I.
        -- intros np [Hl _]. rewrite length_seq in Hl. exact Hl.
      * intros np Hnp. cbv zeta.
        eapply post_bind; [apply IH; [lia | rewrite length_map; exact Hnp]|].
        intros rest [Hr1 Hr2]. apply post_ret. split; [simpl; congruence|].
        intros p [<-|Hp'].
        -- split; [rewrite length_map; exact Hnp|].
           intros x Hx. apply in_map_iff in Hx. destruct Hx as (y & <- & _). apply clip01_unit.
        -- apply Hr2. exact Hp'.
Qed.

Lemma post_crossover n1 n2 :
  E IndexError \/ ((2 <= length n1.(data_points))%nat /\ (2 <= length n2.(data_points))%nat /\
                   exists P, width P n1.(data_points) /\ width P n2.(data_points)) ->
  E ValueError \/ (fingers_wf n1.(fingers) /\ fingers_wf n2.(fingers)) ->
  post E (crossover draw h n1 n2) (crossover_out n1 n2).
Proof.
  intros HI HF. unfold crossover. cbv zeta.
  eapply post_bind.
  { apply post_idx_nth with (k := 0%nat).
    destruct HI as [HI|(H1 & _)]; [right; exact HI | left; lia]. }
  intros p0 Hp0.
  assert (HI' : E IndexError \/
                ((2 <= length n1.(data_points))%nat /\ (2 <= length n2.(data_points))%nat /\
                 width (length p0) n1.(data_points) /\ width (length p0) n2.(data_points))).
  { destruct HI as [HI|(H1 & H2 & P & W1 & W2)]; [left; exact HI|]. right.
    assert (HP : length p0 = P) by (apply W1; eapply nth_error_In; exact Hp0).
    rewrite HP. auto. }
  eapply post_bind; [apply post_crossover_fingers; exact HF|]. intros fs Hfs.
  eapply post_bind.
  { apply post_crossover_first_point.
    destruct HI' as [HI'|(H1 & H2 & W1 & W2)]; [left; exact HI'|]. right.
    destruct (data_points n1) as [|q1 r1] eqn:D1; [simpl in H1; lia|].
    destruct (data_points n2) as [|q2 r2] eqn:D2; [simpl in H2; lia|].
    exists q1, q2, r1, r2. split; [reflexivity|]. split; [reflexivity|].
    rewrite (W1 q1 (or_introl eq_refl)), (W2 q2 (or_introl eq_refl)). lia. }
  intros fp [Hfl Hfu].
  eapply post_bind; [apply post_crossover_num_points|]. intros num Hnum. cbv beta in Hnum.
  eapply post_bind; [apply post_crossover_steps; [exact HI' | lia | lia | exact Hfl]|].
  intros rest [Hr1 Hr2].
  eapply post_bind; [apply post_crossover_pause|]. intros pz Hpz.
  apply post_ret. unfold crossover_out; simpl.
  assert (Hlen : (2 <= S (length rest))%nat) by lia.
  split; [exact Hfs|]. split; [exact Hlen|]. split.
  { intros p x [<-|Hp] Hx; [apply Hfu; exact Hx | apply (Hr2 p Hp); exact Hx]. }
  split; [exists pz; split; [reflexivity | exact Hpz]|]. split; [|reflexivity].
  unfold crossover_duration. simpl length.
  destruct (1 <? S (length rest))%nat eqn:Hb; [reflexivity|].
  apply Nat.ltb_ge in Hb. lia.
Qed.

End CrossoverLemmas.

(** *** Catching exceptions; generate_phrase never raises *)

Lemma post_catch {S A} E E' (m : M S A) P :
  post E' m P -> post E (catch m) (fun r => match r with Some a => P a | None => True end).
Proof.
  intros H s. specialize (H s). unfold catch. destruct (m s) as [[a|e] s']; simpl in *; auto.
Qed.

Lemma post_catch_ok {S A} E (m : M S A) P :
  post (fun _ => False) m P -> post E (catch m) (fun r => exists a, r = Some a /\ P a).
Proof.
  intros H s. specialize (H s). unfold catch.
  destruct (m s) as [[a|e] s']; simpl in *; [eauto | contradiction].
Qed.

Lemma post_select_notes_total draw h l :
  post (fun _ => False) (select_notes draw h l) (fun _ => True).
Proof.
  unfold select_notes. destruct l as [|a [|b l]]; try (apply post_ret; exact I).
  eapply post_bind; [apply (post_catch _ (fun _ => True)); apply post_true|].
  intros r _. destruct r as [[[x|] [y|]]|]; apply post_ret; exact I.
Qed.

Section GenerateLemmas.

Variable draw : nat -> Q.
Hypothesis Hdraw : draws_unit draw.
Variable h : Q.

Lemma post_crossover_ai n1 n2 :
  post (fun _ => True) (crossover draw h n1 n2) (fun n => n.(source) = AI).
Proof.
  eapply post_conseq; [apply (post_crossover draw Hdraw h (fun _ => True) (fun _ => I));
                       left; exact I|].
  intros n (_ & _ & _ & _ & _ & HS). exact HS.
Qed.

Lemma post_generate_loop vn fuel :
  post (fun _ => False) (generate_loop draw h vn fuel)
       (fun l => (length l <= fuel)%nat /\ forall n, In n l -> n.(source) = AI).
Proof.
  induction fuel as [|f IH]; simpl.
  - apply post_ret. simpl. split; [lia | intros n []].
  - eapply post_bind; [apply post_select_notes_total|]. intros [[n1 n2]|] _.
    + eapply post_bind; [apply (post_catch _ _ _ _ (post_crossover_ai n1 n2))|]. intros r Hr.
      eapply post_bind; [exact IH|]. intros rest [Hl Hs]. apply post_ret.
      destruct r as [nn|]; simpl in *; split; try lia; auto.
      intros n [<-|Hn]; auto.
    + apply post_ret. split; [simpl; lia | intros n []].
Qed.

Lemma post_generate_phrase notes k :
  post (fun _ => False) (generate_phrase draw h notes k) (fun l => forall n, In n l -> n.(source) = AI).
Proof.
  unfold generate_phrase. cbv zeta.
  destruct (_ =? 0)%nat; [apply post_ret; intros n []|].
  destruct (filter has_points notes) as [|v vs]; [apply post_ret; intros n []|].
  eapply post_bind; [apply post_uniform; exact Hdraw|]. intros u _.
  eapply post_conseq; [apply post_generate_loop|]. intros l [_ Hs]. exact Hs.
Qed.

End GenerateLemmas.

(** *** select_notes *)

Lemma search_right_lt u cdf :
  cdf <> [] -> u < last cdf 0 -> (search_right u cdf < length cdf)%nat.
Proof.
  induction cdf as [|c cs IH]; intros Hne Hu; [congruence|]. simpl.
  destruct (Qlt_bool u c) eqn:Hc; [lia|].
  destruct cs as [|c' cs'].
  - simpl in Hu. apply Qlt_bool_false in Hc. exfalso. apply (Qlt_not_le u c); assumption.
  - assert (Hl : last (c :: c' :: cs') 0 = last (c' :: cs') 0) by reflexivity.
    rewrite Hl in Hu. specialize (IH ltac:(discriminate) Hu). simpl in *. lia.
Qed.

Lemma last_map_ne {A B} (f : A -> B) (l : list A) (da : A) (db : B) :
  l <> [] -> last (map f l) db = f (last l da).
Proof.
  induction l as [|x xs IH]; intros Hne; [congruence|].
  destruct xs as [|y ys]; [reflexivity|].
  change (last (map f (x :: y :: ys)) db) with (last (map f (y :: ys)) db).
  change (last (x :: y :: ys) da) with (last (y :: ys) da).
  apply IH. discriminate.
Qed.

Lemma cumsum_last acc p :
  p <> [] -> last (cumsum_from acc p) 0 == acc + Qsum p.
Proof.
  revert acc. induction p as [|x xs IH]; intros acc Hne; [congruence|].
  destruct xs as [|y ys].
  - simpl. ring.
  - change (last (cumsum_from acc (x :: y :: ys)) 0) with (last (cumsum_from (acc + x) (y :: ys)) 0).
    rewrite IH; [|discriminate]. simpl. ring.
Qed.

Lemma Qsum_pos p : p <> [] -> (forall w, In w p -> 0 < w) -> 0 < Qsum p.
Proof.
  induction p as [|x xs IH]; intros Hne Hp; [congruence|]. simpl.
  assert (Hx : 0 < x) by (apply Hp; left; reflexivity).
  destruct xs as [|y ys].
  - simpl. lra.
  - assert (0 < Qsum (y :: ys)) by (apply IH; [discriminate | intros w Hw; apply Hp; right; exact Hw]).
    lra.
Qed.

Lemma length_cumsum acc p : length (cumsum_from acc p) = length p.
Proof. revert acc. induction p; intros; simpl; [reflexivity | rewrite IHp; reflexivity]. Qed.

Section SelectLemmas.

Variable draw : nat -> Q.
Hypothesis Hdraw : draws_unit draw.

Lemma post_choice_p {A} E (l : list A) (p : list Q) :
  l <> [] -> length p = length l -> (forall w, In w p -> 0 < w) ->
  post E (choice_p draw l p) (fun x => In x l).
Proof.
  intros Hl Hp Hpos. unfold choice_p. cbv zeta.
  assert (Hpne : p <> []) by (intros ->; destruct l; simpl in Hp; congruence).
  assert (Hcne : cumsum_from 0 p <> []) by (destruct p; [congruence | discriminate]).
  assert (HL : 0 < last (cumsum_from 0 p) 0).
  { rewrite cumsum_last by exact Hpne. pose proof (Qsum_pos p Hpne Hpos). lra. }
  eapply post_bind; [apply post_random; exact Hdraw|]. intros u [Hu0 Hu1].
  apply post_idx. left.
  set (L := last (cumsum_from 0 p) 0) in *.
  assert (Hlt : lt (search_right u (map (fun c => c / L) (cumsum_from 0 p)))
                  (length (map (fun c => c / L) (cumsum_from 0 p)))).
  { apply search_right_lt.
    - destruct (cumsum_from 0 p); [congruence | discriminate].
    - rewrite (last_map_ne _ _ 0 0 Hcne). fold L.
      assert (HLL : L / L == 1) by (unfold Qdiv; apply Qmult_inv_r; intro H; rewrite H in HL; discriminate).
      rewrite HLL. exact Hu1. }
  rewrite length_map, length_cumsum in Hlt. lia.
Qed.

Lemma fallback_pool {A} (f : A -> bool) (l : list A) :
  (forall x, In x (match filter f l with [] => l | _ :: _ => filter f l end) -> In x l) /\
  (match filter f l with [] => l | _ :: _ => filter f l end = [] -> l = []).
Proof.
  destruct (filter f l) as [|y ys] eqn:Hf; [split; auto|]. split.
  - intros x Hx. rewrite <- Hf in Hx. apply filter_In in Hx. apply Hx.
  - discriminate.
Qed.

Lemma post_select_single_note E h l :
  (Qeq_bool (mutation_den h) 0 = true -> E ZeroDivisionError) ->
  post E (select_single_note draw h l)
       (fun o => match o with Some x => In x l | None => l = [] end).
Proof.
  intros HZ. unfold select_single_note.
  eapply post_bind; [apply post_mutate; [exact Hdraw | exact HZ]|]. intros m _. cbv zeta.
  destruct (negb m).
  - destruct (fallback_pool (fun n => tag_eqb n.(source) Human) l) as [Hin Hnil].
    destruct (match filter (fun n => tag_eqb n.(source) Human) l with
              | [] => l | _ :: _ => filter (fun n => tag_eqb n.(source) Human) l end)
      as [|n0 rest] eqn:Hpool.
    + apply post_ret. rewrite (Hnil eq_refl). reflexivity.
    + destruct (phrase n0).
      * eapply post_bind; [apply post_choice_p|].
        -- discriminate.
        -- rewrite !length_map. reflexivity.
        -- intros w Hw. apply in_map_iff in Hw. destruct Hw as (w0 & <- & Hw0).
           set (ws := map _ (n0 :: rest)) in *.
           assert (Hws : forall w, In w ws -> 0 < w).
           { intros w Hw. subst ws. apply in_map_iff in Hw. destruct Hw as (n & <- & _).
             apply Qpower_0_lt. reflexivity. }
           assert (HT : 0 < Qsum ws) by (apply Qsum_pos; [discriminate | exact Hws]).
           unfold Qdiv. apply Qmult_lt_0_compat; [apply Hws; exact Hw0 | apply Qinv_lt_0_compat; exact HT].
        -- intros x Hx. apply post_ret. apply Hin. exact Hx.
      * eapply post_bind; [apply post_choice; [exact Hdraw | discriminate]|].
        intros x Hx. apply post_ret. apply Hin. exact Hx.
  - destruct (fallback_pool (fun n => tag_eqb n.(source) AI) l) as [Hin Hnil].
    destruct (match filter (fun n => tag_eqb n.(source) AI) l with
              | [] => l | _ :: _ => filter (fun n => tag_eqb n.(source) AI) l end)
      as [|n0 rest] eqn:Hpool.
    + apply post_ret. rewrite (Hnil eq_refl). reflexivity.
    + eapply post_bind; [apply post_choice; [exact Hdraw | discriminate]|].
      intros x Hx. apply post_ret. apply Hin. exact Hx.
Qed.

Lemma post_select_notes h l :
  0 <= h -> h <= 1 -> (2 <= length l)%nat ->
  post (fun _ => False) (select_notes draw h l)
       (fun o => exists a b, o = Some (a, b) /\ In a l /\ In b l).
Proof.
  intros H0 H1 Hl.
  assert (HZ : Qeq_bool (mutation_den h) 0 = true -> False)
    by (rewrite mutation_den_pos by assumption; discriminate).
  unfold select_notes. destruct l as [|x [|y l']]; [simpl in Hl; lia | simpl in Hl; lia |].
  set (l := x :: y :: l'). fold l.
  eapply post_bind.
  { apply post_catch_ok with
      (P := fun pr : option note * option note =>
              match fst pr with Some a => In a l | None => l = [] end /\
              match snd pr with Some b => In b l | None => l = [] end).
    eapply post_bind; [apply post_select_single_note; exact HZ|]. intros o1 Ho1.
    eapply post_bind; [apply post_select_single_note; exact HZ|]. intros o2 Ho2.
    apply post_ret. exact (conj Ho1 Ho2). }
  intros r (pr & -> & Ho1 & Ho2).
  destruct pr as [[a|] [b|]]; simpl in Ho1, Ho2; try (subst l; discriminate).
  apply post_ret. exists a, b. auto.
Qed.

End SelectLemmas.

(** *** clamp01 *)

Lemma clamp01_idem x : clamp01 (clamp01 x) = clamp01 x.
Proof.
  unfold clamp01, py_min, py_max.
  destruct (Qlt_bool x 1) eqn:H1.
  - destruct (Qlt_bool 0 x) eqn:H2.
    + rewrite H1, H2. reflexivity.
    + reflexivity.
  - reflexivity.
Qed.

Lemma clamp01_low x : x <= 0 -> clamp01 x = 0.
Proof.
  intros Hx. unfold clamp01, py_min, py_max.
  assert (H1 : Qlt_bool x 1 = true) by (apply Qlt_bool_iff; lra). rewrite H1.
  assert (H2 : Qlt_bool 0 x = false) by (apply Qlt_bool_false; lra). rewrite H2. reflexivity.
Qed.

Lemma clamp01_high x : 1 <= x -> clamp01 x = 1.
Proof.
  intros Hx. unfold clamp01, py_min, py_max.
  assert (H1 : Qlt_bool x 1 = false) by (apply Qlt_bool_false; lra). rewrite H1. reflexivity.
Qed.

Lemma clamp01_mid x : 0 <= x -> x <= 1 -> clamp01 x == x.
Proof.
  intros H0 H1. unfold clamp01, py_min, py_max.
  destruct (Qlt_bool x 1) eqn:E1.
  - destruct (Qlt_bool 0 x) eqn:E2; [reflexivity|]. apply Qlt_bool_false in E2. lra.
  - apply Qlt_bool_false in E1. change (1 == x). lra.
Qed.

(** *** play_note *)

(** Closes a goal [lhs <= rhs] in which the delays [dl k] of the steps taken
    appear, all known non-negative by [Hd]. *)
Ltac bound_delays dl Hd :=
  repeat match goal with
         | |- context [dl ?k] =>
             let x := fresh "x" in let Hx := fresh "Hx" in
             pose proof (Hd k) as Hx; cbn [delay] in Hx; set (x := dl k) in *
         end;
  try unfold AGENT_POINT_INTERVAL in *; lra.
Lemma play_point_spec dup i pt w :
  (5 <= length pt)%nat ->
  exists w', play_point dup i pt w = (Ok tt, w') /\
    w'.(sent) = w.(sent) ++ point_msgs pt /\
    w'.(dup_sent) = w.(dup_sent) ++ (if dup then point_msgs pt else []) /\
    w'.(delay) = w.(delay) /\
    (delays_ok w ->
     (if (0 <? i)%nat then w.(clock) + AGENT_POINT_INTERVAL else w.(clock)) <= w'.(clock)).
Proof.
  intros Hl. destruct pt as [|x [|y [|z [|a [|v rest]]]]]; simpl in Hl; try lia.
  destruct w as [c s d dl k].
  unfold play_point. destruct (0 <? i)%nat, dup;
    cbv [bind ret sleep idx send_message dup_send_message nth_error elapse
         clock sent dup_sent delay steps point_msgs nth];
    eexists; (split; [reflexivity|]); cbv beta iota;
    repeat rewrite <- app_assoc; simpl app; rewrite ?app_nil_r.
  all: split; [reflexivity|].
  all: split; [reflexivity|].
  all: split; [reflexivity|].
  all: unfold delays_ok; intros Hd.
  all: bound_delays dl Hd.
Qed.

Lemma play_points_spec dup i pts w :
  (forall p, In p pts -> (5 <= length p)%nat) ->
  exists w', play_points dup i pts w = (Ok tt, w') /\
    w'.(sent) = w.(sent) ++ flat_map point_msgs pts /\
    w'.(dup_sent) = w.(dup_sent) ++ (if dup then flat_map point_msgs pts else []) /\
    w'.(delay) = w.(delay) /\
    (delays_ok w ->
     w.(clock) + inject_Z (Z.of_nat (length pts)) * AGENT_POINT_INTERVAL <=
     w'.(clock) + (if (0 <? i)%nat then 0 else AGENT_POINT_INTERVAL)).
Proof.
  revert i w. induction pts as [|p ps IH]; intros i w Hp; cbn [play_points].
  - exists w. split; [reflexivity|]. destruct dup; rewrite ?app_nil_r; (split; [reflexivity|]);
      (split; [reflexivity|]); (split; [reflexivity|]); intros _; destruct (0 <? i)%nat;
      change (inject_Z (Z.of_nat (length []))) with 0; unfold AGENT_POINT_INTERVAL; lra.
  - destruct (play_point_spec dup i p w (Hp p (or_introl eq_refl))) as (w1 & Hc & S1 & D1 & L1 & T1).
    unfold bind. rewrite Hc.
    destruct (IH (S i) w1) as (w' & H1 & H2 & H3 & L2 & T2);
      [intros q Hq; apply Hp; right; exact Hq|].
    exists w'. rewrite H1. split; [reflexivity|]. cbn [flat_map].
    rewrite H2, H3, S1, D1, <- !app_assoc. split; [reflexivity|].
    split; [destruct dup; reflexivity|]. split; [congruence|].
    intros Hd. assert (Hd1 : delays_ok w1) by (unfold delays_ok in *; rewrite L1; exact Hd).
    specialize (T1 Hd). specialize (T2 Hd1). change (0 <? S i)%nat with true in T2.
    cbn [length]. rewrite Nat2Z.inj_succ, <- Z.add_1_r, inject_Z_plus. change (inject_Z 1) with 1.
    revert T1; destruct (0 <? i)%nat; intros T1; unfold AGENT_POINT_INTERVAL in *; lra.
Qed.

(** *** Closing a note *)

Lemma nth_error_last {A} (a : A) (l : list A) (d : A) :
  nth_error (a :: l) (length l) = Some (last (a :: l) d).
Proof.
  revert a. induction l as [|b l IH]; intros a; [reflexivity|].
  change (nth_error (b :: l) (length l) = Some (last (b :: l) d)). apply IH.
Qed.

Lemma py_idx_last {St A} (l : list A) (d : A) (s : St) :
  l <> [] -> py_idx l (-1) s = (Ok (last l d), s).
Proof.
  intros Hl. destruct l as [|a l]; [congruence|]. unfold py_idx. simpl (-1 <? 0)%Z.
  replace (length (a :: l)) with (S (length l)) by reflexivity.
  destruct (Z.of_nat (S (length l)) + -1 <? 0)%Z eqn:Hb; [apply Z.ltb_lt in Hb; lia|].
  replace (Z.to_nat (Z.of_nat (S (length l)) + -1)) with (length l) by lia.
  unfold idx. rewrite (nth_error_last a l d). reflexivity.
Qed.

Lemma length_update_last {A} (f : A -> A) l : length (update_last f l) = length l.
Proof.
  induction l as [|x xs IH]; [reflexivity|].
  destruct xs as [|y ys]; [reflexivity|]. simpl in *. rewrite IH. reflexivity.
Qed.

Lemma fill_gaps_cons2 n1 n2 r :
  fill_gaps (n1 :: n2 :: r) =
  match py_idx (S:=unit) n1.(timestamps) (-1) tt with
  | (Err e, _) => (n1 :: n2 :: r, Some e)
  | (Ok end_time, _) =>
      match n2.(start_time) with
      | None => (n1 :: n2 :: r, Some KeyError)
      | Some next_start_time =>
          let n1' := if Qeq_bool (pause_or_0 n1) 0
                     then set_pause_after n1 (next_start_time - end_time) else n1 in
          let (rest', e) := fill_gaps (n2 :: r) in (n1' :: rest', e)
      end
  end.
Proof. reflexivity. Qed.

Lemma length_fill_gaps l : length (fst (fill_gaps l)) = length l.
Proof.
  induction l as [|n1 rest IH]; [reflexivity|].
  destruct rest as [|n2 rest']; [reflexivity|]. rewrite fill_gaps_cons2.
  destruct (py_idx (timestamps n1) (-1) tt) as [[e_t|e] []]; [|reflexivity].
  destruct (start_time n2); [|reflexivity].
  destruct (fill_gaps (n2 :: rest')) as [r e] eqn:Hf. simpl in *. rewrite IH. reflexivity.
Qed.

Lemma keeps_len_bind {A B} (m : RM A) (f : A -> RM B) :
  keeps_len m -> (forall a, keeps_len (f a)) -> keeps_len (bind m f).
Proof.
  intros Hm Hf s. unfold bind. specialize (Hm s).
  destruct (m s) as [[a|e] s'] eqn:E; simpl in *; [rewrite Hf|]; exact Hm.
Qed.

Lemma keeps_len_ret {A} (a : A) : keeps_len (ret a).
Proof. intros s. reflexivity. Qed.

Lemma keeps_len_end_phrase t : keeps_len (end_phrase t).
Proof.
  intros s. unfold end_phrase. cbv [bind get put lift ret raise with_notes]. simpl.
  destruct (phrase_cohesion _); simpl; rewrite length_update_last, length_map; reflexivity.
Qed.

Lemma keeps_len_after_close t :
  keeps_len (st <- get;; put (with_current st None);;;
             st <- get;;
             match st.(pause_start_time) with
             | None => put (with_pause st (Some t) false);;; ret false
             | Some ps =>
                 if Qle_bool PAUSE_PHRASE_THRESHOLD (t - ps) && negb st.(pause_triggered) then
                   end_phrase t;;;
                   st' <- get;;
                   put (with_pause st' st'.(pause_start_time) true);;;
                   ret true
                 else ret false
             end).
Proof.
  intros s. cbv [bind get put with_current]. simpl.
  destruct (pause_start_time s) as [ps|]; [|reflexivity].
  destruct (_ && _); [|reflexivity].
  pose proof (keeps_len_end_phrase t) as H.
  match goal with |- context [end_phrase t ?s0] =>
    specialize (H s0); destruct (end_phrase t s0) as [[r|e] s1] end; simpl in *; exact H.
Qed.

Lemma len_bind_keeps {A B} (m : RM A) (f : A -> RM B) s :
  (forall a, keeps_len (f a)) -> length (snd (bind m f s)).(notes) = length (snd (m s)).(notes).
Proof.
  intros H. unfold bind. destruct (m s) as [[a|e] s']; simpl; [apply H | reflexivity].
Qed.

Lemma save_current_note_run st cn s0 :
  st.(current_note) = Some cn -> cn.(timestamps) <> [] -> cn.(start_time) = Some s0 ->
  let d := last cn.(timestamps) 0 - s0 in
  let cn1 := set_duration cn d in
  let cn2 := match cn1.(pause_after) with None => set_pause_after cn1 0 | Some _ => cn1 end in
  save_current_note st =
    (Ok tt, mkRec (if Qle_bool MIN_NOTE_DURATION d then st.(notes) ++ [cn2] else st.(notes))
                  None st.(last_record_time) st.(pause_start_time) st.(phrase_num)
                  st.(pause_triggered) st.(last_phrase_ended) st.(rec_agent) st.(enable_agent)
                  (Some 0%Z)).
Proof.
  intros Hc Ht Hs. unfold save_current_note. cbv [bind get]. rewrite Hc.
  rewrite (py_idx_last _ 0 _ Ht). rewrite Hs. reflexivity.
Qed.

Lemma len_close_open_note st :
  length (snd (close_open_note st)).(notes) =
  match st.(current_note) with Some _ => length (snd (save_current_note st)).(notes)
                             | None => length st.(notes) end.
Proof.
  unfold close_open_note. cbv [bind get]. destruct (current_note st); reflexivity.
Qed.

Lemma len_start_note fs x y z a v t st :
  length (snd (start_note fs x y z a v t st)).(notes) = length (snd (close_open_note st)).(notes).
Proof.
  unfold start_note. apply len_bind_keeps. intros _ s. cbv [bind get put]. simpl.
  apply length_update_last.
Qed.

Lemma len_pause t st :
  length (snd (pause t st)).(notes) = length (snd (close_open_note st)).(notes).
Proof.
  unfold pause. apply len_bind_keeps. intros _. exact (keeps_len_after_close t).
Qed.

Lemma len_finalize t st :
  length (snd (finalize t st)).(notes) = length (snd (close_open_note st)).(notes).
Proof.
  unfold finalize. apply len_bind_keeps. intros _ s. cbv [bind get put with_notes].
  pose proof (length_fill_gaps (notes s)) as H.
  destruct (fill_gaps (notes s)) as [ns e]. simpl in *.
  destruct e; simpl; exact H.
Qed.

(** *** note_similarity *)

Lemma Qmult_comm_L x y : x * y = y * x.
Proof.
  destruct x as [a b], y as [c d]. unfold Qmult. simpl. rewrite Z.mul_comm, Pos.mul_comm. reflexivity.
Qed.

Lemma dot_comm a b : dot a b = dot b a.
Proof.
  revert b. induction a as [|x a IH]; intros b; destruct b as [|y b]; try reflexivity.
  unfold dot in *. simpl. rewrite Qmult_comm_L, IH. reflexivity.
Qed.

Lemma py_min_comm a b : py_min a b == py_min b a.
Proof.
  unfold py_min. destruct (Qlt_bool b a) eqn:H1, (Qlt_bool a b) eqn:H2; try reflexivity.
  - apply Qlt_bool_iff in H1, H2. lra.
  - apply Qlt_bool_false in H1, H2. lra.
Qed.

Lemma py_max_comm a b : py_max a b == py_max b a.
Proof.
  unfold py_max. destruct (Qlt_bool b a) eqn:H1, (Qlt_bool a b) eqn:H2; try reflexivity.
  - apply Qlt_bool_iff in H1, H2. lra.
  - apply Qlt_bool_false in H1, H2. lra.
Qed.

Lemma memb_Z_In x l : memb_Z x l = true <-> In x l.
Proof.
  unfold memb_Z. rewrite existsb_exists. split.
  - intros (y & Hy & He). apply Z.eqb_eq in He. subst. exact Hy.
  - intros Hx. exists x. split; [exact Hx | apply Z.eqb_refl].
Qed.

Lemma NoDup_same_length (a b : list Z) :
  NoDup a -> NoDup b -> (forall x, In x a <-> In x b) -> length a = length b.
Proof.
  intros Ha Hb H. apply Nat.le_antisymm; apply NoDup_incl_length; auto; intros x Hx; apply H; exact Hx.
Qed.

Lemma inter_len_sym (l1 l2 : list Z) :
  NoDup l1 -> NoDup l2 ->
  length (filter (fun x => memb_Z x l2) l1) = length (filter (fun x => memb_Z x l1) l2).
Proof.
  intros H1 H2. apply NoDup_same_length; try (apply NoDup_filter; assumption).
  intros x. rewrite !filter_In, !memb_Z_In. tauto.
Qed.

Lemma union_len_sym (f1 f2 : list Z) :
  length (nodup Z.eq_dec (f1 ++ f2)) = length (nodup Z.eq_dec (f2 ++ f1)).
Proof.
  apply NoDup_same_length; try apply NoDup_nodup.
  intros x. rewrite !nodup_In, !in_app_iff. tauto.
Qed.

Lemma traj_row_err p e : traj_row p = Err e -> e = ValueError.
Proof.
  unfold traj_row. intros H.
  repeat match type of H with context [match ?l with _ => _ end] => destruct l end; congruence.
Qed.

Lemma map_r_traj_err l e : map_r traj_row l = Err e -> e = ValueError.
Proof.
  induction l as [|p ps IH]; simpl; [discriminate|].
  destruct (traj_row p) eqn:Hp; simpl; [|intros H; injection H as <-; eapply traj_row_err; exact Hp].
  destruct (map_r traj_row ps); simpl; [discriminate | exact IH].
Qed.

Lemma path_length_err t e : path_length t = Err e -> e = AxisError.
Proof. destruct t; simpl; congruence. Qed.

(** *** generate_phrase: the number of notes *)

Lemma generate_phrase_unfold draw h notes k i v vs :
  length (filter (in_phrase k) notes) <> 0%nat ->
  filter has_points notes = v :: vs ->
  generate_phrase draw h notes k i =
  generate_loop draw h (v :: vs)
    (Z.to_nat (phrase_target (length (filter (in_phrase k) notes)) (uniform_value (-1) 1 (draw i))))
    (S i).
Proof.
  intros Hn Hv. unfold generate_phrase. cbv zeta.
  destruct (Nat.eqb_spec (length (filter (in_phrase k) notes)) 0) as [E|E]; [contradiction|].
  rewrite Hv. reflexivity.
Qed.

Lemma phrase_target_4 u : -1 <= u -> u < 1 -> (2 <= phrase_target 4 u <= 5)%Z.
Proof.
  intros H0 H1. unfold phrase_target.
  change (inject_Z (Z.of_nat 4)) with (4 # 1).
  assert (E2 : (4 # 1) / 2 == 2) by reflexivity.
  assert (Hx0 : 2 <= (4 # 1) + u * ((4 # 1) / 2)) by (rewrite E2; lra).
  assert (Hx1 : (4 # 1) + u * ((4 # 1) / 2) < 6) by (rewrite E2; lra).
  destruct (py_int_nonneg ((4 # 1) + u * ((4 # 1) / 2))) as [-> _]; [lra|].
  assert (Hf0 : (2 <= Qfloor ((4 # 1) + u * ((4 # 1) / 2)))%Z).
  { change 2%Z with (Qfloor (inject_Z 2)) at 1. apply Qfloor_resp_le.
    change (inject_Z 2) with (2 # 1). lra. }
  assert (Hf1 : (Qfloor ((4 # 1) + u * ((4 # 1) / 2)) < 6)%Z).
  { pose proof (Qfloor_le ((4 # 1) + u * ((4 # 1) / 2))) as Hle.
    assert (Hlt : inject_Z (Qfloor ((4 # 1) + u * ((4 # 1) / 2))) < inject_Z 6).
    { change (inject_Z 6) with (6 # 1). lra. }
    rewrite <- Zlt_Qlt in Hlt. exact Hlt. }
  lia.
Qed.

Section GenerateExact.

Variable draw : nat -> Q.
Hypothesis Hdraw : draws_unit draw.
Variable h : Q.
Hypothesis Hh0 : 0 <= h.
Hypothesis Hh1 : h <= 1.
Variable vn : list note.
Variable P : nat.
Hypothesis Hwf : forall x, In x vn ->
  (2 <= length x.(data_points))%nat /\ width P x.(data_points) /\ fingers_wf x.(fingers).

Lemma post_select_notes_nonempty :
  vn <> [] ->
  post (fun _ => False) (select_notes draw h vn)
       (fun o => exists a b, o = Some (a, b) /\ In a vn /\ In b vn).
Proof.
  intros Hne. destruct (Nat.le_gt_cases 2 (length vn)) as [Hl|Hl].
  - apply post_select_notes; assumption.
  - destruct vn as [|x [|y l]]; simpl in Hl; [congruence | | lia].
    apply post_ret. exists x, x. simpl. auto.
Qed.

Lemma post_generate_loop_exact fuel :
  vn <> [] -> post (fun _ => False) (generate_loop draw h vn fuel) (fun l => length l = fuel).
Proof.
  intros Hne. induction fuel as [|f IH]; simpl; [apply post_ret; reflexivity|].
  assert (HZ : Qeq_bool (mutation_den h) 0 = true -> False)
    by (rewrite mutation_den_pos by assumption; discriminate).
  eapply post_bind; [apply post_select_notes_nonempty; exact Hne|].
  intros o (a & b & -> & Ha & Hb).
  destruct (Hwf a Ha) as (Ha2 & Haw & Haf). destruct (Hwf b Hb) as (Hb2 & Hbw & Hbf).
  eapply post_bind.
  { apply post_catch_ok. apply (post_crossover draw Hdraw h (fun _ => False) HZ a b).
    - right. split; [exact Ha2|]. split; [exact Hb2|]. exists P. split; assumption.
    - right. split; assumption. }
  intros r (nn & -> & _). eapply post_bind; [exact IH|]. intros rest Hr.
  apply post_ret. simpl. congruence.
Qed.

End GenerateExact.

(** *** Boolean checks *)

Lemma points_unit_b_spec pts :
  points_unit_b pts = true -> forall p x, In p pts -> In x p -> in_unit x.
Proof.
  unfold points_unit_b. intros H p x Hp Hx.
  rewrite forallb_forall in H. specialize (H p Hp). rewrite forallb_forall in H.
  specialize (H x Hx). unfold in_unit_b in H. apply andb_true_iff in H as [H1 H2].
  apply Qle_bool_iff in H1, H2. split; assumption.
Qed.

Lemma fingers_wf_b_spec fs : fingers_wf_b fs = true -> fingers_wf fs.
Proof.
  unfold fingers_wf_b, fingers_wf, finger_ok. destruct fs as [|f fs]; [discriminate|].
  intros H. split; [discriminate|]. intros g Hg. rewrite forallb_forall in H.
  specialize (H g Hg). apply andb_true_iff in H as [H1 H2]. apply Z.leb_le in H1, H2. lia.
Qed.

Lemma width_b_spec w pts : width_b w pts = true -> width w pts.
Proof.
  unfold width_b, width. intros H p Hp. rewrite forallb_forall in H.
  apply Nat.eqb_eq. apply H. exact Hp.
Qed.

Lemma half_draws_unit : draws_unit half_draws.
Proof. intros i. unfold half_draws. split; lra. Qed.

(** ** The claims *)

(** C1: for parents of at least two points with components in [0,1],
    well-formed fingers and a non-negative pause, and for every outcome of
    the draws, a note returned by [crossover] has well-formed fingers, at
    least two points, every component in [0,1], a non-negative pause,
    duration (points - 1) * 0.02 s (so at least 0.02 s), and source AI. *)
Theorem crossover_output_wf (draw : nat -> Q) (h : Q) (n1 n2 n : note) (i : nat) :
  draws_unit draw ->
  (2 <= length n1.(data_points))%nat -> (2 <= length n2.(data_points))%nat ->
  (forall p x, In p n1.(data_points) -> In x p -> in_unit x) ->
  (forall p x, In p n2.(data_points) -> In x p -> in_unit x) ->
  fingers_wf n1.(fingers) -> fingers_wf n2.(fingers) ->
  0 <= pause_or_0 n1 -> 0 <= pause_or_0 n2 ->
  fst (crossover draw h n1 n2 i) = Ok n ->
  fingers_wf n.(fingers) /\
  (2 <= length n.(data_points))%nat /\
  (forall p x, In p n.(data_points) -> In x p -> in_unit x) /\
  (exists p, n.(pause_after) = Some p /\ 0 <= p) /\
  n.(duration) = Some (inject_Z (Z.of_nat (length n.(data_points)) - 1) * AGENT_POINT_INTERVAL) /\
  (forall d, n.(duration) = Some d -> AGENT_POINT_INTERVAL <= d) /\
  n.(source) = AI.
Proof.
  intros Hdraw H1 H2 _ _ F1 F2 P1 P2 Hok.
  pose proof (post_crossover draw Hdraw h (fun _ => True) (fun _ => I) n1 n2
                (or_introl I) (or_introl I) i) as H.
  rewrite Hok in H. destruct H as (HF & HL & HU & (p & Hp & Hp0) & HD & HS).
  split; [apply HF; assumption|]. split; [exact HL|]. split; [exact HU|].
  split; [exists p; split; [exact Hp | apply Hp0; assumption]|].
  split; [exact HD|]. split; [|exact HS].
  intros d Hd. rewrite HD in Hd. injection Hd as <-.
  assert (Hk : 1 <= inject_Z (Z.of_nat (length (data_points n)) - 1)).
  { change 1 with (inject_Z 1). rewrite <- Zle_Qle. lia. }
  unfold AGENT_POINT_INTERVAL.
  setoid_replace (2 # 100) with (1 * (2 # 100)) at 1 by reflexivity.
  apply Qmult_le_compat_r; [exact Hk | discriminate].
Qed.

Lemma crossover_output_wf_witness :
  match fst (crossover half_draws 0 human6 human6 0%nat) with
  | Ok n =>
      fingers_wf n.(fingers) /\
      (2 <= length n.(data_points))%nat /\
      (forall p x, In p n.(data_points) -> In x p -> in_unit x) /\
      (exists p, n.(pause_after) = Some p /\ 0 <= p) /\
      n.(duration) = Some (inject_Z (Z.of_nat (length n.(data_points)) - 1) * AGENT_POINT_INTERVAL) /\
      (forall d, n.(duration) = Some d -> AGENT_POINT_INTERVAL <= d) /\
      n.(source) = AI
  | Err _ => False
  end.
Proof.
  destruct (fst (crossover half_draws 0 human6 human6 0%nat)) as [n|e] eqn:Hc.
  - apply (crossover_output_wf half_draws 0 human6 human6 n 0%nat).
    + exact half_draws_unit.
    + simpl; lia.
    + simpl; lia.
    + apply points_unit_b_spec. vm_compute. reflexivity.
    + apply points_unit_b_spec. vm_compute. reflexivity.
    + apply fingers_wf_b_spec. vm_compute. reflexivity.
    + apply fingers_wf_b_spec. vm_compute. reflexivity.
    + vm_compute. discriminate.
    + vm_compute. discriminate.
    + exact Hc.
  - vm_compute in Hc. discriminate.
Defined.

(** X20: when both parents have at least two points and their points have
    one common width, [crossover] never raises [IndexError]: the parent index
    of a non-mutated step lies in [1, length - 1].  The validity filter of
    [generate_phrase] admits a one-point note; for it, [crossover] raises
    [IndexError] when a step is not mutated (all draws 1/2), and
    [generate_phrase] catches the failure and skips the note. *)
Theorem crossover_index_in_bounds (draw : nat -> Q) (h : Q) (n1 n2 : note) (P i : nat) :
  draws_unit draw ->
  (2 <= length n1.(data_points))%nat -> (2 <= length n2.(data_points))%nat ->
  width P n1.(data_points) -> width P n2.(data_points) ->
  fst (crossover draw h n1 n2 i) <> Err IndexError /\
  has_points one_point = true /\
  fst (crossover half_draws 0 one_point one_point 0%nat) = Err IndexError /\
  fst (generate_phrase half_draws 0 [one_point] 1 0%nat) = Ok [].
Proof.
  intros Hdraw H1 H2 W1 W2. split; [|split; [reflexivity | split; vm_compute; reflexivity]].
  assert (HZ : Qeq_bool (mutation_den h) 0 = true -> ZeroDivisionError <> IndexError)
    by (intros _; discriminate).
  assert (HF : ValueError <> IndexError \/ (fingers_wf n1.(fingers) /\ fingers_wf n2.(fingers)))
    by (left; discriminate).
  pose proof (post_crossover draw Hdraw h (fun e => e <> IndexError) HZ n1 n2
                (or_intror (conj H1 (conj H2 (ex_intro _ P (conj W1 W2))))) HF i) as H.
  destruct (fst (crossover draw h n1 n2 i)) as [n|e]; [discriminate|].
  intros He. injection He as ->. apply H. reflexivity.
Qed.

Lemma crossover_index_in_bounds_witness :
  fst (crossover half_draws 0 human6 human6 3%nat) <> Err IndexError /\
  has_points one_point = true /\
  fst (crossover half_draws 0 one_point one_point 0%nat) = Err IndexError /\
  fst (generate_phrase half_draws 0 [one_point] 1 0%nat) = Ok [].
Proof.
  apply (crossover_index_in_bounds half_draws 0 human6 human6 6 3%nat).
  - exact half_draws_unit.
  - simpl; lia.
  - simpl; lia.
  - apply width_b_spec. vm_compute. reflexivity.
  - apply width_b_spec. vm_compute. reflexivity.
Defined.

(** C9: [crossover] takes [params_per_point] from the first parent's first
    point ([len(note1_points[0])]; the comment says 5: x, y, z, angle,
    velocity).  Two parents of two points each, the first of 6-tuples (a
    recorded note, with its relative time) and the second of 5-tuples, make
    [crossover] raise [IndexError] for hotness 0 and all draws 1/2: the first
    point reads component 5 of the second parent's first point.  With the
    parents swapped, the width read is 5 and the same call succeeds. *)
Lemma crossover_mixed_width_index_error :
  (2 <= length human6.(data_points))%nat /\ (2 <= length note5.(data_points))%nat /\
  draws_unit half_draws /\
  fst (crossover half_draws 0 human6 note5 0%nat) = Err IndexError /\
  (exists n, fst (crossover half_draws 0 note5 human6 0%nat) = Ok n).
Proof.
  split; [simpl; lia|]. split; [simpl; lia|]. split; [exact half_draws_unit|].
  split; [vm_compute; reflexivity|]. eexists. vm_compute. reflexivity.
Qed.

(** C7: [select_notes] on an empty list returns no selection ([None]); on a
    one-note list it returns that note paired with itself; on a list of two
    or more notes (with hotness in [0,1] and draws in [0,1)) it returns a
    pair of notes of the list. *)
Theorem select_notes_cases (draw : nat -> Q) (h : Q) (l : list note) (i : nat) :
  draws_unit draw -> 0 <= h -> h <= 1 ->
  (l = [] -> fst (select_notes draw h l i) = Ok None) /\
  (forall n, l = [n] -> fst (select_notes draw h l i) = Ok (Some (n, n))) /\
  ((2 <= length l)%nat ->
   exists a b, fst (select_notes draw h l i) = Ok (Some (a, b)) /\ In a l /\ In b l).
Proof.
  intros Hdraw H0 H1. split; [intros ->; reflexivity|]. split; [intros n ->; reflexivity|].
  intros Hl. pose proof (post_select_notes draw Hdraw h l H0 H1 Hl i) as H.
  destruct (fst (select_notes draw h l i)) as [o|e]; [|contradiction].
  destruct H as (a & b & -> & Ha & Hb). exists a, b. auto.
Qed.

Lemma select_notes_cases_witness :
  ([] = @nil note -> fst (select_notes half_draws (1 # 2) [] 0%nat) = Ok None) /\
  (forall n, [human6; note5] = [n] -> fst (select_notes half_draws (1 # 2) [human6; note5] 0%nat) = Ok (Some (n, n))) /\
  ((2 <= length [human6; note5])%nat ->
   exists a b, fst (select_notes half_draws (1 # 2) [human6; note5] 0%nat) = Ok (Some (a, b)) /\
               In a [human6; note5] /\ In b [human6; note5]).
Proof.
  split; [|apply (select_notes_cases half_draws (1 # 2) [human6; note5] 0%nat);
           [exact half_draws_unit | vm_compute; discriminate | vm_compute; discriminate]].
  apply (select_notes_cases half_draws (1 # 2) [] 0%nat);
    [exact half_draws_unit | vm_compute; discriminate | vm_compute; discriminate].
Defined.

(** C8: when the agent is enabled, a phrase closure ([end_phrase]) that
    completes sets the agent's hotness to [clamp(2 * (0.8 - c), 0, 1)],
    where [c] is the cohesion computed on the tagged notes: hotness 0 when
    [c >= 0.8], 1 when [c <= 0.3], and [2 * (0.8 - c)] in between. *)
Theorem end_phrase_hotness (t : Q) (st st' : recorder) (a : agent) :
  st.(enable_agent) = true -> st.(rec_agent) = Some a ->
  end_phrase t st = (Ok tt, st') ->
  exists c a', phrase_cohesion st'.(notes) = Ok c /\
    st'.(rec_agent) = Some a' /\
    a'.(hotness) = clamp01 (2 * ((8 # 10) - c)) /\
    ((8 # 10) <= c -> a'.(hotness) = 0) /\
    (c <= 3 # 10 -> a'.(hotness) = 1) /\
    (3 # 10 <= c -> c <= 8 # 10 -> a'.(hotness) == 2 * ((8 # 10) - c)).
Proof.
  intros Hen Ha Hrun.
  unfold end_phrase in Hrun. cbv [bind get put lift ret raise with_notes] in Hrun. simpl in Hrun.
  destruct (phrase_cohesion _) as [c|e] eqn:Hc; [|discriminate].
  rewrite Hen, Ha in Hrun. injection Hrun as <-. simpl.
  exists c, (set_hotness a (clamp01 (2 * ((8 # 10) - c)))). split; [exact Hc|].
  split; [reflexivity|]. simpl. rewrite clamp01_idem.
  split; [reflexivity|]. split; [intros Hc1; apply clamp01_low; lra|].
  split; [intros Hc1; apply clamp01_high; lra|].
  intros Hc1 Hc2. apply clamp01_mid; lra.
Qed.

Lemma end_phrase_hotness_witness :
  exists c a', phrase_cohesion (snd (end_phrase 5 rec_two)).(notes) = Ok c /\
    (snd (end_phrase 5 rec_two)).(rec_agent) = Some a' /\
    a'.(hotness) = clamp01 (2 * ((8 # 10) - c)) /\
    ((8 # 10) <= c -> a'.(hotness) = 0) /\
    (c <= 3 # 10 -> a'.(hotness) = 1) /\
    (3 # 10 <= c -> c <= 8 # 10 -> a'.(hotness) == 2 * ((8 # 10) - c)).
Proof.
  apply (end_phrase_hotness 5 rec_two (snd (end_phrase 5 rec_two)) (mkAgent 0)).
  - reflexivity.
  - reflexivity.
  - vm_compute. reflexivity.
Defined.

(** C10: [play_note] on a note without data points returns at once with
    note and total duration 0 and sends nothing (the world is unchanged);
    on a note with points (each of at least 5 components) it sends one
    fingers message and then the 5 parameter messages of each point, in
    point order, to the client (and the same to the duplicate client when
    there is one). *)
Theorem play_note_messages (dup : bool) (n : note) (w : io) :
  (forall p, In p n.(data_points) -> (5 <= length p)%nat) ->
  (n.(data_points) = [] -> play_note dup n w = (Ok (mkPlay 0 None 0), w)) /\
  (n.(data_points) <> [] ->
   exists r w', play_note dup n w = (Ok r, w') /\
     w'.(sent) = w.(sent) ++ ("/fingers"%string, OscStr (fingers_str n.(fingers)))
                              :: flat_map point_msgs n.(data_points) /\
     w'.(dup_sent) = w.(dup_sent) ++
       (if dup then ("/fingers"%string, OscStr (fingers_str n.(fingers)))
                    :: flat_map point_msgs n.(data_points) else [])).
Proof.
  intros Hp. unfold play_note. cbv zeta.
  destruct (data_points n) as [|p ps] eqn:Hd; [split; [reflexivity | congruence]|].
  split; [discriminate|]. intros _.
  destruct dup; cbv [bind send_message dup_send_message time_now elapse ret
                      clock sent dup_sent delay steps].
  all: match goal with |- context [play_points ?b 0 ?pts ?w0] =>
    destruct (play_points_spec b 0 pts w0 Hp) as (w2 & H1 & H2 & H3 & _); rewrite H1 end.
  all: cbv [sleep elapse ret clock sent dup_sent delay steps]; destruct (Qlt_bool 0 _).
  all: eexists; eexists; (split; [reflexivity|]); cbv [sent dup_sent] in H2, H3 |- *;
    rewrite H2, H3, <- ?app_assoc, ?app_nil_r; split; reflexivity.
Qed.

Lemma play_note_messages_witness :
  (human6.(data_points) = [] -> play_note true human6 (sample_io) = (Ok (mkPlay 0 None 0), sample_io)) /\
  (human6.(data_points) <> [] ->
   exists r w', play_note true human6 (sample_io) = (Ok r, w') /\
     w'.(sent) = [] ++ ("/fingers"%string, OscStr (fingers_str human6.(fingers)))
                        :: flat_map point_msgs human6.(data_points) /\
     w'.(dup_sent) = [] ++
       (if true then ("/fingers"%string, OscStr (fingers_str human6.(fingers)))
                     :: flat_map point_msgs human6.(data_points) else [])).
Proof.
  apply (play_note_messages true human6 (sample_io)).
  intros p Hp. simpl in Hp. destruct Hp as [<-|[<-|[]]]; simpl; lia.
Defined.

(** C6: closing an open note (whose timestamps are non-empty and whose
    start time is set) stamps its duration as last timestamp minus start
    time and appends it to the notes iff that duration is at least 0.1 s;
    otherwise the notes are unchanged.  [start_note], [pause] and [finalize]
    close the open note this way: each of them grows the notes by one
    exactly when the duration is at least 0.1 s. *)
Theorem close_note_min_duration (st : recorder) (cn : note) (s0 : Q)
        (fs : list Z) (x y z angle velocity t : Q) :
  st.(current_note) = Some cn -> cn.(timestamps) <> [] -> cn.(start_time) = Some s0 ->
  (exists st', save_current_note st = (Ok tt, st') /\ st'.(current_note) = None /\
     (MIN_NOTE_DURATION <= last cn.(timestamps) 0 - s0 ->
        exists n', st'.(notes) = st.(notes) ++ [n'] /\
                   n'.(duration) = Some (last cn.(timestamps) 0 - s0) /\
                   n'.(data_points) = cn.(data_points) /\ n'.(fingers) = cn.(fingers)) /\
     (last cn.(timestamps) 0 - s0 < MIN_NOTE_DURATION -> st'.(notes) = st.(notes))) /\
  length (snd (start_note fs x y z angle velocity t st)).(notes) =
    Nat.add (length st.(notes)) (if Qle_bool MIN_NOTE_DURATION (last cn.(timestamps) 0 - s0) then 1%nat else 0%nat) /\
  length (snd (pause t st)).(notes) =
    Nat.add (length st.(notes)) (if Qle_bool MIN_NOTE_DURATION (last cn.(timestamps) 0 - s0) then 1%nat else 0%nat) /\
  length (snd (finalize t st)).(notes) =
    Nat.add (length st.(notes)) (if Qle_bool MIN_NOTE_DURATION (last cn.(timestamps) 0 - s0) then 1%nat else 0%nat).
Proof.
  intros Hc Ht Hs. pose proof (save_current_note_run st cn s0 Hc Ht Hs) as Hrun. cbv zeta in Hrun.
  assert (Hlen : length (snd (close_open_note st)).(notes) =
                 Nat.add (length st.(notes)) (if Qle_bool MIN_NOTE_DURATION (last cn.(timestamps) 0 - s0)
                                              then 1%nat else 0%nat)).
  { rewrite len_close_open_note, Hc, Hrun. simpl.
    destruct (Qle_bool _ _); [rewrite length_app; reflexivity | lia]. }
  split; [|rewrite len_start_note, len_pause, len_finalize; auto].
  eexists. split; [exact Hrun|]. split; [reflexivity|]. simpl. split.
  - intros Hd. apply Qle_bool_iff in Hd. rewrite Hd. eexists. split; [reflexivity|].
    destruct (pause_after cn); simpl; auto.
  - intros Hd. destruct (Qle_bool _ _) eqn:E; [|reflexivity].
    apply Qle_bool_iff in E. exfalso. apply (Qlt_not_le _ _ Hd E).
Qed.

Lemma close_note_min_duration_witness :
  (exists st', save_current_note rec_open = (Ok tt, st') /\ st'.(current_note) = None /\
     (MIN_NOTE_DURATION <= last open_note.(timestamps) 0 - 0 ->
        exists n', st'.(notes) = rec_open.(notes) ++ [n'] /\
                   n'.(duration) = Some (last open_note.(timestamps) 0 - 0) /\
                   n'.(data_points) = open_note.(data_points) /\ n'.(fingers) = open_note.(fingers)) /\
     (last open_note.(timestamps) 0 - 0 < MIN_NOTE_DURATION -> st'.(notes) = rec_open.(notes))) /\
  length (snd (start_note [2]%Z 0 0 0 0 0 1 rec_open)).(notes) =
    Nat.add (length rec_open.(notes)) (if Qle_bool MIN_NOTE_DURATION (last open_note.(timestamps) 0 - 0) then 1%nat else 0%nat) /\
  length (snd (pause 1 rec_open)).(notes) =
    Nat.add (length rec_open.(notes)) (if Qle_bool MIN_NOTE_DURATION (last open_note.(timestamps) 0 - 0) then 1%nat else 0%nat) /\
  length (snd (finalize 1 rec_open)).(notes) =
    Nat.add (length rec_open.(notes)) (if Qle_bool MIN_NOTE_DURATION (last open_note.(timestamps) 0 - 0) then 1%nat else 0%nat).
Proof.
  apply (close_note_min_duration rec_open open_note 0 [2]%Z 0 0 0 0 0 1).
  - reflexivity.
  - discriminate.
  - reflexivity.
Defined.

(** C5: [note_similarity] is symmetric: for any two notes (in particular
    two notes with points), either both orders return a value and the two
    values are equal, or both orders raise the same exception. *)
Theorem note_similarity_symmetric (A B : note) :
  (exists x y, note_similarity A B = Ok x /\ note_similarity B A = Ok y /\ x == y) \/
  (exists e, note_similarity A B = Err e /\ note_similarity B A = Err e).
Proof.
  unfold note_similarity. cbv zeta.
  destruct (map_r traj_row (data_points A)) as [t1|e1] eqn:H1;
  destruct (map_r traj_row (data_points B)) as [t2|e2] eqn:H2; simpl.
  - destruct (path_length t1) as [p1|a1] eqn:P1;
    destruct (path_length t2) as [p2|a2] eqn:P2; simpl.
    + left. do 2 eexists. split; [reflexivity|]. split; [reflexivity|].
      apply Qplus_comp; [apply Qplus_comp|]; apply Qmult_comp; try reflexivity.
      * rewrite (inter_len_sym (nodup Z.eq_dec (fingers A)) (nodup Z.eq_dec (fingers B)))
          by apply NoDup_nodup.
        rewrite (union_len_sym (fingers A) (fingers B)).
        destruct (nodup Z.eq_dec (fingers A)), (nodup Z.eq_dec (fingers B)); reflexivity.
      * rewrite andb_comm. destruct (_ && _); [|reflexivity].
        rewrite (py_min_comm p1 p2), (py_max_comm p1 p2). reflexivity.
      * destruct (mean_rows (diffs t1)), (mean_rows (diffs t2)); try reflexivity.
        rewrite andb_comm, dot_comm, (Qmult_comm_L (norm l)). reflexivity.
    + right. exists a2. auto.
    + right. exists a1. auto.
    + right. exists a1. rewrite (path_length_err _ _ P1), (path_length_err _ _ P2). auto.
  - right. exists e2. auto.
  - right. exists e1. auto.
  - right. exists e1. rewrite (map_r_traj_err _ _ H1), (map_r_traj_err _ _ H2). auto.
Qed.

(** C2 (discrepancy): [end_phrase] averages the similarities of consecutive
    notes over the whole notes list, not over the notes of the phrase that
    just ended.  Here phrase 2 holds a single note, so its cohesion is 0 and
    the hotness should become [clamp(1.6) = 1]; the code instead scores the
    pair (phrase-1 note, phrase-2 note), gets a cohesion above 0.9 and sets
    the hotness to 0. *)
Theorem end_phrase_cohesion_spans_phrases :
  fst (end_phrase 5 rec_phrase2) = Ok tt /\
  length (filter (in_phrase 2) (snd (end_phrase 5 rec_phrase2)).(notes)) = 1%nat /\
  phrase_cohesion (filter (in_phrase 2) (snd (end_phrase 5 rec_phrase2)).(notes)) = Ok 0 /\
  (exists c, phrase_cohesion (snd (end_phrase 5 rec_phrase2)).(notes) = Ok c /\ 9 # 10 < c) /\
  (snd (end_phrase 5 rec_phrase2)).(rec_agent) = Some (mkAgent 0).
Proof.
  split; [vm_compute; reflexivity|]. split; [vm_compute; reflexivity|].
  split; [vm_compute; reflexivity|]. split; [|vm_compute; reflexivity].
  eexists. split; [vm_compute; reflexivity|]. vm_compute. reflexivity.
Qed.

(** C3 (discrepancy): [end_phrase] resets [pause_start_time] to [None], so
    the next [pause] call of the same silence starts a new pause episode and
    phrase closure fires again 3 s later: in one silence with pauses at 1,
    4, 5 and 8 s and no new note, [end_phrase] runs at 4 s and again at 8 s. *)
Theorem pause_retriggers_in_one_silence :
  fst (silence_run (init_recorder (Some (mkAgent 0)) true)) = Ok [false; true; false; true].
Proof. vm_compute. reflexivity. Qed.

(** C4: for a just-ended phrase of [n >= 1] notes and at least one note with
    points, [generate_phrase] never raises; with [u] the draw of
    [np.random.uniform(-1, 1)] (in [-1, 1)), it returns at most
    [max(1, int(n + u * n / 2))] notes (truncation, not rounding), all of
    source AI; failed selections or crossovers only shorten the list.  With
    hotness in [0,1] and notes with points that have at least two points of
    one common width and well-formed fingers, it returns exactly that many;
    for [n = 4] that count lies in [2, 5]. *)
Theorem generate_phrase_target (draw : nat -> Q) (h : Q) (notes : list note) (k : Z) (i : nat) :
  draws_unit draw ->
  (1 <= length (filter (in_phrase k) notes))%nat ->
  filter has_points notes <> [] ->
  -1 <= uniform_value (-1) 1 (draw i) /\ uniform_value (-1) 1 (draw i) < 1 /\
  exists l, fst (generate_phrase draw h notes k i) = Ok l /\
    (length l <= Z.to_nat (phrase_target (length (filter (in_phrase k) notes))
                                         (uniform_value (-1) 1 (draw i))))%nat /\
    (forall x, In x l -> x.(source) = AI) /\
    (0 <= h -> h <= 1 ->
     (exists P, forall x, In x (filter has_points notes) ->
        (2 <= length x.(data_points))%nat /\ width P x.(data_points) /\ fingers_wf x.(fingers)) ->
     length l = Z.to_nat (phrase_target (length (filter (in_phrase k) notes))
                                        (uniform_value (-1) 1 (draw i)))) /\
    (length (filter (in_phrase k) notes) = 4%nat ->
     (2 <= phrase_target 4 (uniform_value (-1) 1 (draw i)) <= 5)%Z).
Proof.
  intros Hdraw Hn Hv.
  assert (Hu : -1 <= uniform_value (-1) 1 (draw i) /\ uniform_value (-1) 1 (draw i) < 1).
  { destruct (Hdraw i) as [D0 D1]. unfold uniform_value. split; lra. }
  split; [apply Hu|]. split; [apply Hu|].
  destruct (filter has_points notes) as [|v vs] eqn:Hf; [congruence|].
  rewrite (generate_phrase_unfold draw h notes k i v vs ltac:(lia) Hf).
  set (fuel := Z.to_nat (phrase_target (length (filter (in_phrase k) notes))
                                       (uniform_value (-1) 1 (draw i)))).
  pose proof (post_generate_loop draw Hdraw h (v :: vs) fuel (S i)) as HL.
  destruct (fst (generate_loop draw h (v :: vs) fuel (S i))) as [l|e] eqn:Hl; [|contradiction].
  destruct HL as [Hle Hai].
  exists l. split; [reflexivity|]. split; [exact Hle|]. split; [exact Hai|]. split.
  - intros H0 H1 (P & HP).
    pose proof (post_generate_loop_exact draw Hdraw h H0 H1 (v :: vs) P HP fuel
                  ltac:(discriminate) (S i)) as HE.
    rewrite Hl in HE. exact HE.
  - intros H4. apply phrase_target_4; apply Hu.
Qed.

Lemma generate_phrase_target_witness :
  -1 <= uniform_value (-1) 1 (half_draws 0%nat) /\ uniform_value (-1) 1 (half_draws 0%nat) < 1 /\
  exists l, fst (generate_phrase half_draws 0 four_notes 1 0%nat) = Ok l /\
    (length l <= Z.to_nat (phrase_target (length (filter (in_phrase 1) four_notes))
                                         (uniform_value (-1) 1 (half_draws 0%nat))))%nat /\
    (forall x, In x l -> x.(source) = AI) /\
    (0 <= 0 -> 0 <= 1 ->
     (exists P, forall x, In x (filter has_points four_notes) ->
        (2 <= length x.(data_points))%nat /\ width P x.(data_points) /\ fingers_wf x.(fingers)) ->
     length l = Z.to_nat (phrase_target (length (filter (in_phrase 1) four_notes))
                                        (uniform_value (-1) 1 (half_draws 0%nat)))) /\
    (length (filter (in_phrase 1) four_notes) = 4%nat ->
     (2 <= phrase_target 4 (uniform_value (-1) 1 (half_draws 0%nat)) <= 5)%Z).
Proof.
  apply (generate_phrase_target half_draws 0 four_notes 1 0%nat).
  - exact half_draws_unit.
  - vm_compute. lia.
  - vm_compute. discriminate.
Defined.

(** C4 (counterexample): a phrase of four notes and a uniform draw of 0.3:
    [round(4 + 0.3 * 2) = 5], but [generate_phrase] targets
    [int(4.6) = 4] notes and returns 4. *)
Lemma generate_phrase_truncates :
  draws_unit draws_u03 /\
  length (filter (in_phrase 1) four_notes) = 4%nat /\
  uniform_value (-1) 1 (draws_u03 0%nat) == 3 # 10 /\
  py_round (4 + (3 # 10) * (4 / 2)) = 5%Z /\
  exists l, fst (generate_phrase draws_u03 0 four_notes 1 0%nat) = Ok l /\ length l = 4%nat.
Proof.
  split.
  { intros i. unfold draws_u03. destruct (Nat.eqb i 0); split; lra. }
  split; [reflexivity|]. split; [reflexivity|]. split; [reflexivity|].
  eexists. split; [vm_compute; reflexivity | reflexivity].
Qed.

(** ** Further properties: Interpolation and crossover *)
Lemma interp_between v1 v2 b : in_unit b -> Qmin v1 v2 <= v1 + b * (v2 - v1) <= Qmax v1 v2.
Proof.
  intros [H0 H1]. destruct (Qlt_le_dec v1 v2) as [Hl|Hl].
  - rewrite Q.min_l by lra. rewrite Q.max_r by lra. split; nra.
  - rewrite Q.min_r by lra. rewrite Q.max_l by lra. split; nra.
Qed.

Lemma nth_error_interp (f : Q * Q -> Q) vec1 vec2 k x :
  nth_error (map f (combine vec1 vec2)) k = Some x ->
  exists a c, nth_error vec1 k = Some a /\ nth_error vec2 k = Some c /\ x = f (a, c).
Proof.
  revert vec2 k. induction vec1 as [|a v1 IH]; intros [|c v2] k Hk; destruct k; simpl in *;
    try discriminate.
  - injection Hk as <-. eauto.
  - apply IH. exact Hk.
Qed.

(** X1: _interpolate_value returns a value between its two inputs, and _interpolate_vector returns,
    at every index, a value between the two vectors' entries at that index; neither raises. *)
Theorem interpolate_between (draw : nat -> Q) (h : Q) (Hd : draws_unit draw) :
  (forall v1 v2 i, match fst (interpolate_value draw h v1 v2 i) with
                   | Ok v => Qmin v1 v2 <= v <= Qmax v1 v2
                   | Err _ => False end) /\
  (forall vec1 vec2 i, match fst (interpolate_vector draw h vec1 vec2 i) with
                       | Ok r => forall k x, nth_error r k = Some x ->
                                 exists a c, nth_error vec1 k = Some a /\ nth_error vec2 k = Some c /\
                                             Qmin a c <= x <= Qmax a c
                       | Err _ => False end).
Proof.
  split.
  - intros v1 v2. unfold interpolate_value. eapply post_bind; [apply post_blend; exact Hd|].
    intros b Hb. apply post_ret. apply interp_between. exact Hb.
  - intros vec1 vec2. unfold interpolate_vector. eapply post_bind; [apply post_blend; exact Hd|].
    intros b Hb. apply post_ret. intros k x Hk.
    destruct (nth_error_interp _ _ _ _ _ Hk) as (a & c & Ha & Hc & ->).
    exists a, c. split; [exact Ha|]. split; [exact Hc|]. apply interp_between. exact Hb.
Qed.

Lemma interpolate_between_witness :
  draws_unit half_draws /\
  (forall v1 v2 i, match fst (interpolate_value half_draws 0 v1 v2 i) with
                   | Ok v => Qmin v1 v2 <= v <= Qmax v1 v2
                   | Err _ => False end) /\
  (forall vec1 vec2 i, match fst (interpolate_vector half_draws 0 vec1 vec2 i) with
                       | Ok r => forall k x, nth_error r k = Some x ->
                                 exists a c, nth_error vec1 k = Some a /\ nth_error vec2 k = Some c /\
                                             Qmin a c <= x <= Qmax a c
                       | Err _ => False end).
Proof. split; [exact half_draws_unit | apply (interpolate_between half_draws 0 half_draws_unit)]. Defined.

(** generate_crossovers *)
Lemma post_generate_crossovers_loop draw (Hd : draws_unit draw) h n1 n2 k :
  (0 <= h <= 1) ->
  (2 <= length n1.(data_points))%nat -> (2 <= length n2.(data_points))%nat ->
  (exists P, width P n1.(data_points) /\ width P n2.(data_points)) ->
  fingers_wf n1.(fingers) -> fingers_wf n2.(fingers) ->
  post (fun _ => False) (generate_crossovers_loop draw h n1 n2 k)
       (fun l => length l = k /\ forall c, In c l -> crossover_out n1 n2 c).
Proof.
  intros Hh H1 H2 HP F1 F2. induction k as [|k IH]; simpl.
  - apply post_ret. split; [reflexivity | intros c []].
  - eapply post_bind.
    { apply (post_crossover draw Hd h (fun _ => False)).
      - intros Hz. rewrite mutation_den_pos in Hz by lra. discriminate.
      - right. auto.
      - right. auto. }
    intros c Hc. eapply post_bind; [exact IH|]. intros l [Hl Hs].
    apply post_ret. split; [simpl; congruence|]. intros c' [<-|Hc']; auto.
Qed.

(** X2: For parents with at least 2 points of one width and valid fingers, and 0 <= hotness <= 1,
    generate_crossovers returns exactly num_crossovers notes, each a valid crossover of the two
    parents. *)
Theorem generate_crossovers_wf (draw : nat -> Q) (h : Q) (n1 n2 : note) (num : Z) (P : nat) (i : nat)
  (Hd : draws_unit draw) (Hh : 0 <= h <= 1)
  (H1 : (2 <= length n1.(data_points))%nat) (H2 : (2 <= length n2.(data_points))%nat)
  (W1 : width P n1.(data_points)) (W2 : width P n2.(data_points))
  (F1 : fingers_wf n1.(fingers)) (F2 : fingers_wf n2.(fingers)) :
  match fst (generate_crossovers draw h n1 n2 num i) with
  | Ok l => length l = Z.to_nat num /\ forall c, In c l -> crossover_out n1 n2 c
  | Err _ => False
  end.
Proof.
  apply (post_generate_crossovers_loop draw Hd h n1 n2 (Z.to_nat num) Hh H1 H2); eauto.
Qed.

Lemma generate_crossovers_wf_witness :
  match fst (generate_crossovers half_draws 0 human6 human6 6 0%nat) with
  | Ok l => length l = Z.to_nat 6 /\ forall c, In c l -> crossover_out human6 human6 c
  | Err _ => False
  end.
Proof.
  apply (generate_crossovers_wf half_draws 0 human6 human6 6 6 0%nat half_draws_unit).
  - split; discriminate.
  - simpl; lia.
  - simpl; lia.
  - apply width_b_spec. reflexivity.
  - apply width_b_spec. reflexivity.
  - apply fingers_wf_b_spec. reflexivity.
  - apply fingers_wf_b_spec. reflexivity.
Defined.

(** crossover length bound *)
Lemma AGENT_max_points : py_int ((1 / AGENT_POINT_INTERVAL) * 8) = 400%Z.
Proof. vm_compute. reflexivity. Qed.

Lemma Z_le_of_Q (z m : Z) (v : Q) : inject_Z z <= v -> v <= inject_Z m -> (z <= m)%Z.
Proof. intros H1 H2. rewrite Zle_Qle. lra. Qed.

Lemma post_crossover_num_points_le draw (Hd : draws_unit draw) h pts1 pts2 :
  post (fun _ => True) (crossover_num_points draw h pts1 pts2)
       (fun k => (2 <= k <= Z.max 400 (Z.max (Z.of_nat (length pts1)) (Z.of_nat (length pts2))))%Z).
Proof.
  unfold crossover_num_points. eapply post_bind; [apply post_mutate; [exact Hd | intros; exact I]|].
  intros m _. destruct m.
  - cbv zeta. rewrite AGENT_max_points.
    eapply post_conseq; [apply post_randint; [exact Hd | lia]|]. intros k Hk. cbv beta in Hk. lia.
  - set (l1 := inject_Z (Z.of_nat (length pts1))). set (l2 := inject_Z (Z.of_nat (length pts2))).
    apply post_bind with (Q := fun v => Qmin l1 l2 <= v <= Qmax l1 l2).
    { unfold interpolate_value. eapply post_bind; [apply post_blend; exact Hd|].
      intros b Hb. apply post_ret. exact (interp_between l1 l2 b Hb). }
    intros v [Hlo Hhi]. apply post_ret. cbv beta.
    assert (H0 : 0 <= v).
    { eapply Qle_trans; [|exact Hlo]. apply Q.min_glb; unfold l1, l2;
        change 0 with (inject_Z 0); rewrite <- Zle_Qle; lia. }
    destruct (py_int_nonneg _ H0) as [-> Hf].
    assert (Hm : Qmax l1 l2 == inject_Z (Z.max (Z.of_nat (length pts1)) (Z.of_nat (length pts2)))).
    { unfold l1, l2. destruct (Z.max_spec (Z.of_nat (length pts1)) (Z.of_nat (length pts2)))
        as [[Hc ->]|[Hc ->]].
      - apply Q.max_r. rewrite <- Zle_Qle. lia.
      - apply Q.max_l. rewrite <- Zle_Qle. lia. }
    assert (Hfl : (Qfloor v <=
                   Z.max (Z.of_nat (length pts1)) (Z.of_nat (length pts2)))%Z).
    { eapply Z_le_of_Q; [apply Qfloor_le|]. rewrite <- Hm. exact Hhi. }
    lia.
Qed.

(** X3: A note returned by crossover has at most max(400, length of either parent) data points. *)
Theorem crossover_points_bounded (draw : nat -> Q) (h : Q) (n1 n2 : note) (i : nat)
  (Hd : draws_unit draw) :
  match fst (crossover draw h n1 n2 i) with
  | Ok n => (Z.of_nat (length n.(data_points)) <=
             Z.max 400 (Z.max (Z.of_nat (length n1.(data_points)))
                              (Z.of_nat (length n2.(data_points)))))%Z
  | Err _ => True
  end.
Proof.
  revert i. change (post (fun _ => True) (crossover draw h n1 n2)
    (fun n => (Z.of_nat (length n.(data_points)) <=
               Z.max 400 (Z.max (Z.of_nat (length n1.(data_points)))
                                (Z.of_nat (length n2.(data_points)))))%Z)).
  unfold crossover. cbv zeta.
  eapply post_bind; [apply post_true|]. intros p0 _.
  eapply post_bind; [apply post_true|]. intros fs _.
  eapply post_bind; [apply (post_crossover_first_point draw Hd h (fun _ => True) (fun _ => I));
                     left; exact I|].
  intros fp [Hfl _].
  eapply post_bind; [apply post_crossover_num_points_le; exact Hd|]. intros num Hnum. cbv beta in Hnum.
  eapply post_bind; [apply (post_crossover_steps draw Hd h (fun _ => True) (fun _ => I));
                     [left; exact I | lia | lia | exact Hfl]|].
  intros rest [Hr _]. eapply post_bind; [apply post_true|]. intros pz _.
  apply post_ret. simpl length. rewrite Hr, Nat2Z.inj_succ, Z2Nat.id by lia. lia.
Qed.

Lemma crossover_points_bounded_witness :
  match fst (crossover half_draws 0 human6 note5 0%nat) with
  | Ok n => (Z.of_nat (length n.(data_points)) <=
             Z.max 400 (Z.max (Z.of_nat (length human6.(data_points)))
                              (Z.of_nat (length note5.(data_points)))))%Z
  | Err _ => True
  end.
Proof. apply (crossover_points_bounded half_draws 0 human6 note5 0%nat half_draws_unit). Defined.

(** ** Further properties: Playback *)

(** Names the delays of the steps taken in the goal, each non-negative by
    a hypothesis [forall k, 0 <= delay v k]. *)
Ltac bound_delays_io :=
  repeat match goal with
         | H : forall k : nat, 0 <= delay ?v k |- context [delay ?v ?k] =>
             let x := fresh "x" in let Hx := fresh "Hx" in
             pose proof (H k) as Hx; set (x := delay v k) in *
         end.

Lemma play_note_run dup n w :
  n.(data_points) <> [] ->
  (forall p, In p n.(data_points) -> (5 <= length p)%nat) ->
  exists r w', play_note dup n w = (Ok r, w') /\
    r.(played_pause_after) = Some (pause_or_0 n) /\
    w'.(sent) = w.(sent) ++ note_msgs n /\
    w'.(dup_sent) = w.(dup_sent) ++ (if dup then note_msgs n else []) /\
    w'.(delay) = w.(delay) /\
    (delays_ok w ->
     inject_Z (Z.of_nat (length n.(data_points)) - 1) * AGENT_POINT_INTERVAL <= r.(note_duration) /\
     r.(note_duration) + (if Qlt_bool 0 (pause_or_0 n) then pause_or_0 n else 0) <= r.(total_duration) /\
     w.(clock) + r.(total_duration) <= w'.(clock)).
Proof.
  intros Hne Hp. unfold play_note, note_msgs. cbv zeta.
  change (match n.(pause_after) with Some p => p | None => 0 end) with (pause_or_0 n).
  destruct (data_points n) as [|p ps] eqn:Hdp; [congruence|].
  destruct dup; cbv [bind send_message dup_send_message time_now elapse ret];
    cbn [clock sent dup_sent delay steps].
  all: match goal with |- context [play_points ?b 0 ?pts ?w0] =>
    destruct (play_points_spec b 0 pts w0 Hp) as (w2 & H1 & H2 & H3 & L2 & T2); rewrite H1 end.
  all: cbn [clock sent dup_sent delay steps] in H2, H3, L2, T2.
  all: cbv [sleep elapse ret]; cbn [clock sent dup_sent delay steps].
  all: destruct (Qlt_bool 0 (pause_or_0 n)) eqn:Ep.
  all: eexists; eexists; (split; [reflexivity|]); cbv [note_duration played_pause_after total_duration].
  all: split; [reflexivity|].
  all: rewrite H2, H3, <- ?app_assoc, ?app_nil_r; split; [reflexivity|]; split; [reflexivity|].
  all: split; [exact L2|].
  all: intros Hd; specialize (T2 Hd); unfold delays_ok in Hd.
  all: assert (Hd2 : forall k, 0 <= delay w2 k) by (rewrite L2; exact Hd).
  all: try (apply Qlt_bool_iff in Ep); try (apply Qlt_bool_false in Ep).
  all: cbn [clock delay steps Datatypes.length] in *; change (0 <? 0)%nat with false in T2; cbv iota in T2.
  all: rewrite ?Nat2Z.inj_succ in *; unfold Z.succ in *.
  all: replace (Z.of_nat (Datatypes.length ps) + 1 - 1)%Z with (Z.of_nat (Datatypes.length ps)) by lia.
  all: rewrite ?inject_Z_plus in T2; change (inject_Z 1) with 1 in T2.
  all: bound_delays_io; unfold AGENT_POINT_INTERVAL in *.
  all: change (@Datatypes.length (list Q) ps) with (@Datatypes.length point ps) in T2.
  all: split; [lra|]; split; lra.
Qed.
Lemma grows_bind {A B} (m : IOM A) (f : A -> IOM B) :
  grows m -> (forall a, grows (f a)) -> grows (bind m f).
Proof.
  intros Hm Hf w. unfold bind. destruct (Hm w) as [L1 H1].
  destruct (m w) as [[a|e] w1]; simpl in *.
  - destruct (Hf a w1) as [L2 H2]. exists (L1 ++ L2). rewrite H2, H1, app_assoc. reflexivity.
  - exists L1. exact H1.
Qed.

Lemma grows_ret {A} (a : A) : grows (ret a).
Proof. intros w. exists []. rewrite app_nil_r. reflexivity. Qed.

Lemma grows_raise {A} e : grows (A:=A) (raise e).
Proof. intros w. exists []. rewrite app_nil_r. reflexivity. Qed.

Lemma grows_idx {A} (l : list A) k : grows (idx l k).
Proof. unfold idx. destruct (nth_error l k); [apply grows_ret | apply grows_raise]. Qed.

Lemma grows_send a v : grows (send_message a v).
Proof. intros w. exists [(a, v)]. reflexivity. Qed.

Lemma grows_dup d a v : grows (dup_send_message d a v).
Proof. unfold dup_send_message. destruct d; [|apply grows_ret]. intros w. exists []. simpl. rewrite app_nil_r. reflexivity. Qed.

Lemma grows_time : grows time_now.
Proof. intros w. exists []. rewrite app_nil_r. reflexivity. Qed.

Lemma grows_sleep d : grows (sleep d).
Proof. intros w. exists []. simpl. rewrite app_nil_r. reflexivity. Qed.

Lemma grows_catch {A} (m : IOM A) : grows m -> grows (catch m).
Proof.
  intros H w. destruct (H w) as [L HL]. exists L. unfold catch.
  destruct (m w) as [[a|e] w1]; exact HL.
Qed.

Create HintDb grows_db.
#[local] Hint Resolve grows_bind grows_ret grows_raise grows_idx grows_send grows_dup
  grows_time grows_sleep grows_catch : grows_db.

Lemma grows_play_note dup n : grows (play_note dup n).
Proof.
  unfold play_note. cbv zeta. destruct (data_points n) as [|p ps]; [apply grows_ret|].
  apply grows_bind; [apply grows_send|]. intros _.
  apply grows_bind; [apply grows_dup|]. intros _.
  apply grows_bind; [apply grows_time|]. intros t0.
  apply grows_bind.
  { generalize 0%nat. induction (p :: ps) as [|q qs IH]; intros i; [apply grows_ret|].
    simpl. apply grows_bind; [|intros; apply IH].
    unfold play_point. apply grows_bind; [destruct (0 <? i)%nat; auto with grows_db|].
    intros _. repeat (apply grows_bind; [auto with grows_db|]; intros ?). apply grows_dup. }
  intros _. apply grows_bind; [apply grows_time|]. intros t1.
  apply grows_bind; [destruct (Qlt_bool 0 _); auto with grows_db|]. intros _.
  apply grows_bind; [apply grows_time|]. intros. apply grows_ret.
Qed.

Lemma play_notes_ok dup ns w :
  exists w', play_notes dup ns w = (Ok tt, w') /\ exists L, w'.(sent) = w.(sent) ++ L.
Proof.
  revert w. induction ns as [|n ns IH]; intros w; simpl.
  - exists w. split; [reflexivity|]. exists []. rewrite app_nil_r. reflexivity.
  - unfold bind at 1, catch at 1. destruct (grows_play_note dup n w) as [L1 H1].
    destruct (play_note dup n w) as [[r|e] w1]; simpl in H1;
      destruct (IH w1) as (w2 & H2 & L2 & H3); rewrite H2; exists w2; (split; [reflexivity|]);
      exists (L1 ++ L2); rewrite H3, H1, app_assoc; reflexivity.
Qed.

Lemma end_note_msgs : note_msgs END_OF_PHRASE_NOTE = END_OF_PHRASE_MSGS.
Proof. reflexivity. Qed.

Lemma play_end_note dup w :
  exists r w', play_note dup END_OF_PHRASE_NOTE w = (Ok r, w') /\
    w'.(sent) = w.(sent) ++ END_OF_PHRASE_MSGS /\
    w'.(dup_sent) = w.(dup_sent) ++ (if dup then END_OF_PHRASE_MSGS else []) /\
    w'.(delay) = w.(delay) /\
    (delays_ok w -> w.(clock) <= w'.(clock)).
Proof.
  destruct (play_note_run dup END_OF_PHRASE_NOTE w) as (r & w' & H1 & _ & H2 & H3 & H4 & H5).
  - discriminate.
  - intros p [<-|[]]. simpl. lia.
  - exists r, w'. split; [exact H1|]. split; [exact H2|]. split; [exact H3|]. split; [exact H4|].
    intros Hd. destruct (H5 Hd) as (A & B & C).
    assert (E : inject_Z (Z.of_nat (length (data_points END_OF_PHRASE_NOTE)) - 1) * AGENT_POINT_INTERVAL == 0)
      by reflexivity.
    assert (E2 : (if Qlt_bool 0 (pause_or_0 END_OF_PHRASE_NOTE) then pause_or_0 END_OF_PHRASE_NOTE else 0) = 0)
      by reflexivity.
    rewrite E2 in B. lra.
Qed.

(** X6: play_phrase never raises; with no notes or no client it does nothing and returns 0;
    otherwise the client's messages end with the end-of-phrase marker. *)
Theorem play_phrase_ends_with_marker (dup osc_client : bool) (notes : list note) (w : io) :
  (exists t, fst (play_phrase dup osc_client notes w) = Ok t) /\
  ((notes = [] \/ osc_client = false) -> play_phrase dup osc_client notes w = (Ok 0, w)) /\
  (notes <> [] -> osc_client = true ->
   exists L, (snd (play_phrase dup osc_client notes w)).(sent) = w.(sent) ++ L ++ END_OF_PHRASE_MSGS).
Proof.
  destruct notes as [|n ns].
  - simpl. split; [eauto|]. split; [reflexivity | congruence].
  - destruct osc_client.
    + assert (Hrun : exists t L, play_phrase dup true (n :: ns) w = (Ok t, snd (play_phrase dup true (n :: ns) w)) /\
                     (snd (play_phrase dup true (n :: ns) w)).(sent) = w.(sent) ++ L ++ END_OF_PHRASE_MSGS).
      { unfold play_phrase. simpl negb. cbv iota.
        cbv [bind time_now elapse ret negb]. cbv beta iota.
        match goal with |- context [play_notes dup (n :: ns) ?w0] =>
          destruct (play_notes_ok dup (n :: ns) w0) as (w1 & H1 & L & HL); rewrite H1 end.
        unfold catch. destruct (play_end_note dup w1) as (r & w2 & H2 & H3 & _). rewrite H2.
        cbn [snd fst sent]. eexists; exists L. split; [reflexivity|].
        rewrite H3, HL, app_assoc. reflexivity. }
      destruct Hrun as (t & L & Ht & HL). split; [exists t; rewrite Ht; reflexivity|].
      split; [intros [H|H]; discriminate|]. intros _ _. exists L. exact HL.
    + simpl. split; [eauto|]. split; [reflexivity | congruence].
Qed.

Lemma play_note_any dup n w :
  (forall p, In p n.(data_points) -> (5 <= length p)%nat) ->
  exists r w', play_note dup n w = (Ok r, w') /\
    w'.(sent) = w.(sent) ++ note_msgs n /\
    w'.(dup_sent) = w.(dup_sent) ++ (if dup then note_msgs n else []) /\
    w'.(delay) = w.(delay) /\
    (delays_ok w -> w.(clock) + note_play_time n <= w'.(clock)).
Proof.
  intros Hp. destruct (data_points n) eqn:E.
  - exists (mkPlay 0 None 0), w. unfold play_note, note_msgs, note_play_time. rewrite E.
    split; [reflexivity|]. destruct dup; rewrite ?app_nil_r; (split; [reflexivity|]);
      (split; [reflexivity|]); (split; [reflexivity|]); intros _; lra.
  - destruct (play_note_run dup n w) as (r & w' & H1 & _ & H2 & H3 & H4 & H5).
    + rewrite E; discriminate.
    + rewrite E; exact Hp.
    + exists r, w'. split; [exact H1|]. split; [exact H2|]. split; [exact H3|]. split; [exact H4|].
      intros Hd. destruct (H5 Hd) as (A & B & C). unfold note_play_time. rewrite E. rewrite E in A.
      lra.
Qed.

Lemma play_notes_run dup ns w :
  Forall (fun n => Forall (fun p => (5 <= length p)%nat) n.(data_points)) ns ->
  exists w', play_notes dup ns w = (Ok tt, w') /\
    w'.(sent) = w.(sent) ++ flat_map note_msgs ns /\
    w'.(dup_sent) = w.(dup_sent) ++ (if dup then flat_map note_msgs ns else []) /\
    w'.(delay) = w.(delay) /\
    (delays_ok w -> w.(clock) + Qsum (map note_play_time ns) <= w'.(clock)).
Proof.
  revert w. induction ns as [|n ns IH]; intros w Hf.
  - exists w. simpl. destruct dup; rewrite ?app_nil_r; (split; [reflexivity|]);
      (split; [reflexivity|]); (split; [reflexivity|]); (split; [reflexivity|]); intros _; unfold Qsum; simpl; lra.
  - inversion Hf as [|? ? Hn Hns]; subst.
    destruct (play_note_any dup n w) as (r & w1 & H1 & S1 & D1 & L1 & C1).
    { apply Forall_forall. exact Hn. }
    destruct (IH w1 Hns) as (w2 & H2 & S2 & D2 & L2 & C2).
    exists w2. simpl. unfold bind at 1, catch at 1. rewrite H1, H2.
    split; [reflexivity|]. rewrite S2, S1, D2, D1, <- !app_assoc.
    split; [reflexivity|]. split; [destruct dup; simpl; rewrite ?app_nil_r; reflexivity|].
    split; [congruence|]. intros Hd.
    assert (Hd1 : delays_ok w1) by (unfold delays_ok in *; rewrite L1; exact Hd).
    specialize (C1 Hd). specialize (C2 Hd1). unfold Qsum in *. simpl. lra.
Qed.

(** X7: play_phrase with a client on a non-empty list of notes sends each note's messages in order
    followed by the end marker, to the primary sink and, when duplication is on, to the duplicate
    sink; when no step of the environment takes negative time, the time it returns is at least the
    sum of the notes' nominal play times (their point intervals and pauses). *)
Theorem play_phrase_messages (dup : bool) (notes : list note) (w : io) :
  notes <> [] ->
  Forall (fun n => Forall (fun p => (5 <= length p)%nat) n.(data_points)) notes ->
  delays_ok w ->
  exists t w', play_phrase dup true notes w = (Ok t, w') /\
    Qsum (map note_play_time notes) <= t /\
    w'.(sent) = w.(sent) ++ flat_map note_msgs notes ++ END_OF_PHRASE_MSGS /\
    w'.(dup_sent) = w.(dup_sent) ++
                    (if dup then flat_map note_msgs notes ++ END_OF_PHRASE_MSGS else []).
Proof.
  intros Hne Hf Hd. destruct notes as [|n ns]; [congruence|].
  unfold play_phrase. cbv [bind time_now elapse ret negb]. cbv beta iota.
  match goal with |- context [play_notes dup (n :: ns) ?w0] =>
    destruct (play_notes_run dup (n :: ns) w0 Hf) as (w1 & H1 & S1 & D1 & L1 & C1); rewrite H1 end.
  cbn [clock sent dup_sent delay steps] in S1, D1, L1, C1.
  destruct (play_end_note dup w1) as (r & w2 & H2 & S2 & D2 & L2 & C2).
  unfold catch. rewrite H2. cbn [clock sent dup_sent delay steps].
  eexists; eexists. split; [reflexivity|].
  rewrite S2, S1, D2, D1, <- !app_assoc. split.
  - specialize (C1 Hd).
    assert (Hd1 : delays_ok w1) by (unfold delays_ok in *; rewrite L1; exact Hd).
    specialize (C2 Hd1).
    assert (Hd2 : forall k, 0 <= delay w2 k) by (rewrite L2, L1; exact Hd).
    unfold delays_ok in Hd. bound_delays_io. lra.
  - split; [reflexivity|]. destruct dup; rewrite ?app_nil_r; reflexivity.
Qed.

Lemma play_phrase_messages_witness :
  exists t w', play_phrase true true [human6; note5] sample_io = (Ok t, w') /\
    Qsum (map note_play_time [human6; note5]) <= t /\
    w'.(sent) = sample_io.(sent) ++ flat_map note_msgs [human6; note5] ++ END_OF_PHRASE_MSGS /\
    w'.(dup_sent) = sample_io.(dup_sent) ++ flat_map note_msgs [human6; note5] ++ END_OF_PHRASE_MSGS.
Proof.
  apply (play_phrase_messages true [human6; note5] sample_io).
  - discriminate.
  - repeat constructor.
  - intros k. unfold sample_io; cbn [delay]. unfold Qle, Qdiv, Qmult, Qinv; simpl. lia.
Defined.

(** ** Further properties: Finger debouncing *)
Lemma dict_get_set d k v f :
  dict_get (dict_set d k v) f = if Z.eqb f k then Some v else dict_get d f.
Proof.
  induction d as [|[k' v'] d IH]; simpl.
  - destruct (Z.eqb f k); reflexivity.
  - destruct (Z.eqb k k') eqn:E1; simpl.
    + apply Z.eqb_eq in E1; subst k'. destruct (Z.eqb f k); reflexivity.
    + rewrite IH. destruct (Z.eqb f k) eqn:E2, (Z.eqb f k') eqn:E3; try reflexivity.
      apply Z.eqb_eq in E2, E3. subst. rewrite Z.eqb_refl in E1. discriminate.
Qed.

Lemma In_keys_set d k v x :
  In x (map fst (dict_set d k v)) <-> x = k \/ In x (map fst d).
Proof.
  induction d as [|[k' v'] d IH]; simpl.
  - intuition congruence.
  - destruct (Z.eqb k k') eqn:E; simpl.
    + apply Z.eqb_eq in E; subst. intuition congruence.
    + rewrite IH. intuition congruence.
Qed.

Lemma NoDup_keys_set d k v :
  NoDup (map fst d) -> NoDup (map fst (dict_set d k v)).
Proof.
  induction d as [|[k' v'] d IH]; simpl; intros H.
  - constructor; [intros []|constructor].
  - inversion H as [|? ? Hn Hd]; subst. destruct (Z.eqb k k') eqn:E; simpl.
    + apply Z.eqb_eq in E; subst. constructor; assumption.
    + constructor; [|apply IH; exact Hd].
      rewrite In_keys_set. intros [->|Hin]; [rewrite Z.eqb_refl in E; discriminate | contradiction].
Qed.

Lemma In_keys_del d k x :
  In x (map fst (dict_del d k)) -> In x (map fst d).
Proof.
  induction d as [|[k' v'] d IH]; simpl; [tauto|].
  destruct (Z.eqb k k'); simpl; tauto.
Qed.

Lemma NoDup_keys_del d k :
  NoDup (map fst d) -> NoDup (map fst (dict_del d k)).
Proof.
  induction d as [|[k' v'] d IH]; simpl; intros H; [constructor|].
  inversion H as [|? ? Hn Hd]; subst. destruct (Z.eqb k k'); simpl; [exact Hd|].
  constructor; [|apply IH; exact Hd]. intros Hin. apply Hn. eapply In_keys_del; exact Hin.
Qed.

Lemma dict_get_not_key d f : ~ In f (map fst d) -> dict_get d f = None.
Proof.
  induction d as [|[k' v'] d IH]; simpl; intros H; [reflexivity|].
  destruct (Z.eqb f k') eqn:E; [apply Z.eqb_eq in E; subst; tauto|]. apply IH. tauto.
Qed.

Lemma dict_get_del d k f :
  NoDup (map fst d) ->
  dict_get (dict_del d k) f = if Z.eqb f k then None else dict_get d f.
Proof.
  induction d as [|[k' v'] d IH]; simpl; intros H.
  - destruct (Z.eqb f k); reflexivity.
  - inversion H as [|? ? Hn Hd]; subst. destruct (Z.eqb k k') eqn:E1; simpl.
    + apply Z.eqb_eq in E1; subst k'. destruct (Z.eqb f k) eqn:E2.
      * apply Z.eqb_eq in E2; subst. apply dict_get_not_key. exact Hn.
      * reflexivity.
    + rewrite IH by exact Hd. destruct (Z.eqb f k) eqn:E2, (Z.eqb f k') eqn:E3; try reflexivity.
      apply Z.eqb_eq in E2, E3. subst. rewrite Z.eqb_refl in E1. discriminate.
Qed.

Lemma age_finger_keys cur d g : NoDup (map fst d) -> NoDup (map fst (age_finger cur d g)).
Proof.
  intros H. unfold age_finger. destruct (memb_Z g cur); [exact H|].
  destruct (dict_get d g); [|exact H].
  destruct (DEBOUNCE_FRAMES <=? z + 1)%Z; [apply NoDup_keys_del|]; apply NoDup_keys_set; exact H.
Qed.

Lemma age_finger_get cur d g f :
  NoDup (map fst d) ->
  dict_get (age_finger cur d g) f = if Z.eqb f g then aged cur g (dict_get d g) else dict_get d f.
Proof.
  intros H. unfold age_finger, aged. destruct (memb_Z g cur).
  - destruct (Z.eqb f g) eqn:E; [apply Z.eqb_eq in E; subst|]; reflexivity.
  - destruct (dict_get d g) as [c|] eqn:Eg.
    + destruct (DEBOUNCE_FRAMES <=? c + 1)%Z.
      * rewrite dict_get_del by (apply NoDup_keys_set; exact H). rewrite dict_get_set.
        destruct (Z.eqb f g); reflexivity.
      * rewrite dict_get_set. reflexivity.
    + destruct (Z.eqb f g) eqn:E; [apply Z.eqb_eq in E; subst|]; [exact Eg | reflexivity].
Qed.

Lemma age_loop_get cur ks d f :
  NoDup ks -> NoDup (map fst d) ->
  dict_get (fold_left (age_finger cur) ks d) f =
  if in_dec Z.eq_dec f ks then aged cur f (dict_get d f) else dict_get d f.
Proof.
  revert d. induction ks as [|g ks IH]; intros d Hks Hd; simpl; [reflexivity|].
  inversion Hks as [|? ? Hg Hks']; subst.
  rewrite IH by (try exact Hks'; apply age_finger_keys; exact Hd).
  rewrite age_finger_get by exact Hd.
  destruct (Z.eq_dec g f) as [->|Hne].
  - rewrite Z.eqb_refl. destruct (in_dec Z.eq_dec f ks); [contradiction|].
    destruct (in_dec Z.eq_dec f (f :: ks)) as [_|Hn]; [reflexivity|]. exfalso; apply Hn; left; reflexivity.
  - assert (E : Z.eqb f g = false) by (apply Z.eqb_neq; congruence). rewrite E.
    destruct (in_dec Z.eq_dec f ks) as [Hi|Hi], (in_dec Z.eq_dec f (g :: ks)) as [Hj|Hj];
      try reflexivity;
      try (exfalso; apply Hj; right; exact Hi); try (destruct Hj as [Hj|Hj]; [congruence | contradiction]).
Qed.

Lemma age_loop_keys cur ks d : NoDup (map fst d) -> NoDup (map fst (fold_left (age_finger cur) ks d)).
Proof.
  revert d. induction ks as [|g ks IH]; intros d Hd; simpl; [exact Hd|].
  apply IH, age_finger_keys, Hd.
Qed.

Lemma reset_loop_get cs tr f :
  dict_get (fold_left (fun d finger => dict_set d finger 0%Z) cs tr) f =
  if in_dec Z.eq_dec f cs then Some 0%Z else dict_get tr f.
Proof.
  revert tr. induction cs as [|g cs IH]; intros tr; cbn [fold_left]; [reflexivity|].
  rewrite IH, dict_get_set.
  destruct (in_dec Z.eq_dec f (g :: cs)) as [Hj|Hj]; destruct (in_dec Z.eq_dec f cs) as [Hi|Hi];
    destruct (Z.eqb f g) eqn:E; try reflexivity.
  all: first [ apply Z.eqb_neq in E; destruct Hj; [congruence|contradiction]
             | exfalso; apply Hj; right; exact Hi
             | exfalso; apply Hj; left; apply Z.eqb_eq in E; congruence ].
Qed.

Lemma reset_loop_keys cs tr :
  NoDup (map fst tr) -> NoDup (map fst (fold_left (fun d finger => dict_set d finger 0%Z) cs tr)).
Proof.
  revert tr. induction cs as [|g cs IH]; intros tr H; simpl; [exact H|].
  apply IH, NoDup_keys_set, H.
Qed.

Lemma dict_get_key d f c : dict_get d f = Some c -> In f (map fst d).
Proof.
  induction d as [|[k' v'] d IH]; simpl; [discriminate|].
  destruct (Z.eqb f k') eqn:E; [apply Z.eqb_eq in E; auto|]. intros H; right; apply IH, H.
Qed.

Lemma In_set_iter f l : In f (set_iter l) <-> In f l.
Proof. unfold set_iter. rewrite In_sorted_Z. apply nodup_In. Qed.

Lemma In_active d f :
  NoDup (map fst d) -> (In f (active_fingers d) <-> dict_get d f = Some 0%Z).
Proof.
  induction d as [|[k v] d IH]; simpl; intros H; [split; [tauto|discriminate]|].
  inversion H as [|? ? Hn Hd]; subst. unfold active_fingers in *. simpl.
  destruct (Z.eqb v 0) eqn:Ev, (Z.eqb f k) eqn:Ef; simpl.
  - apply Z.eqb_eq in Ev, Ef; subst. tauto.
  - rewrite IH by exact Hd. apply Z.eqb_neq in Ef. intuition congruence.
  - apply Z.eqb_eq in Ef; subst. apply Z.eqb_neq in Ev. split.
    + intros Hin. exfalso. apply Hn. apply in_map_iff in Hin. destruct Hin as ([a b] & <- & Hb).
      apply filter_In in Hb. apply in_map_iff. exists (a, b). tauto.
    + intros E; injection E; intros; congruence.
  - apply IH, Hd.
Qed.

(** Debounce *)
Lemma update_tracking_props (tr : tracking) (touching : list Z) :
  NoDup (map fst tr) ->
  (forall f c, dict_get tr f = Some c -> (0 <= c)%Z) ->
  let tr' := update_tracking tr touching in
  NoDup (map fst tr') /\
  (forall f, dict_get tr' f =
     if in_dec Z.eq_dec f touching then Some 0%Z
     else match dict_get tr f with
          | Some c => if (DEBOUNCE_FRAMES <=? c + 1)%Z then None else Some (c + 1)%Z
          | None => None
          end) /\
  (forall f, In f (active_fingers tr') <-> In f touching).
Proof.
  intros Hnd Hpos tr'.
  set (cur := set_iter touching).
  set (d := fold_left (fun d finger => dict_set d finger 0%Z) cur tr).
  assert (Hd : NoDup (map fst d)) by (apply reset_loop_keys; exact Hnd).
  assert (Htr' : tr' = fold_left (age_finger cur) (map fst d) d) by reflexivity.
  assert (Hget : forall f, dict_get tr' f =
     if in_dec Z.eq_dec f touching then Some 0%Z
     else match dict_get tr f with
          | Some c => if (DEBOUNCE_FRAMES <=? c + 1)%Z then None else Some (c + 1)%Z
          | None => None
          end).
  { intros f. rewrite Htr', age_loop_get by exact Hd.
    assert (Hdf : dict_get d f = if in_dec Z.eq_dec f cur then Some 0%Z else dict_get tr f)
      by apply reset_loop_get.
    rewrite Hdf.
    assert (Hm : memb_Z f cur = true <-> In f touching) by (rewrite memb_Z_In; apply In_set_iter).
    unfold aged.
    destruct (in_dec Z.eq_dec f touching) as [Ht|Ht].
    - assert (Hc : In f cur) by (apply In_set_iter; exact Ht).
      destruct (in_dec Z.eq_dec f cur); [|contradiction].
      destruct (in_dec Z.eq_dec f (map fst d)); [|reflexivity].
      rewrite (proj2 Hm Ht). reflexivity.
    - assert (Hc : ~ In f cur) by (intros Hx; apply Ht; apply (In_set_iter f touching); exact Hx).
      destruct (in_dec Z.eq_dec f cur); [contradiction|].
      assert (Hmf : memb_Z f cur = false) by (destruct (memb_Z f cur) eqn:E; [exfalso; apply Ht, Hm; reflexivity | reflexivity]).
      destruct (in_dec Z.eq_dec f (map fst d)) as [Hk|Hk].
      + rewrite Hmf. reflexivity.
      + assert (Hn : dict_get d f = None) by (apply dict_get_not_key; exact Hk).
        rewrite Hdf in Hn.
        destruct (in_dec Z.eq_dec f cur); [contradiction|]. rewrite Hn. reflexivity. }
  split; [apply age_loop_keys; exact Hd|]. split; [exact Hget|].
  intros f. rewrite In_active by (apply age_loop_keys; exact Hd). fold tr'. rewrite Hget.
  destruct (in_dec Z.eq_dec f touching) as [Ht|Ht]; [tauto|].
  destruct (dict_get tr f) as [c|] eqn:Ec; [|split; [discriminate|tauto]].
  pose proof (Hpos f c Ec).
  destruct (DEBOUNCE_FRAMES <=? c + 1)%Z; split; try discriminate; try tauto.
  intros E; injection E; lia.
Qed.

(** X14: A frame's tracking update resets touching fingers to 0, ages the others by one and drops
    those reaching 20 frames, keeps keys distinct, and leaves exactly the touching fingers active.
    *)
Theorem update_tracking_debounce (tr : tracking) (touching : list Z) :
  NoDup (map fst tr) ->
  (forall f c, dict_get tr f = Some c -> (0 <= c)%Z) ->
  let tr' := update_tracking tr touching in
  NoDup (map fst tr') /\
  (forall f, dict_get tr' f =
     if in_dec Z.eq_dec f touching then Some 0%Z
     else match dict_get tr f with
          | Some c => if (DEBOUNCE_FRAMES <=? c + 1)%Z then None else Some (c + 1)%Z
          | None => None
          end) /\
  (forall f, In f (active_fingers tr') <-> In f touching).
Proof. exact (update_tracking_props tr touching). Qed.

Lemma update_tracking_debounce_witness :
  NoDup (map fst tracking_ab) /\ (forall f c, dict_get tracking_ab f = Some c -> (0 <= c)%Z) /\
  let tr' := update_tracking tracking_ab [2%Z; 3%Z] in
  NoDup (map fst tr') /\
  (forall f, dict_get tr' f =
     if in_dec Z.eq_dec f [2%Z; 3%Z] then Some 0%Z
     else match dict_get tracking_ab f with
          | Some c => if (DEBOUNCE_FRAMES <=? c + 1)%Z then None else Some (c + 1)%Z
          | None => None
          end) /\
  (forall f, In f (active_fingers tr') <-> In f [2%Z; 3%Z]).
Proof.
  assert (H1 : NoDup (map fst tracking_ab)) by (repeat constructor; simpl; lia).
  assert (H2 : forall f c, dict_get tracking_ab f = Some c -> (0 <= c)%Z).
  { intros f c. simpl. destruct (Z.eqb f 1); [intros E; injection E; lia|].
    destruct (Z.eqb f 3); [intros E; injection E; lia|discriminate]. }
  split; [exact H1|]. split; [exact H2|].
  exact (update_tracking_debounce tracking_ab [2%Z; 3%Z] H1 H2).
Defined.

(** ** Further properties: Velocity and hand detection *)
Lemma np_clip_range a lo hi : lo <= hi -> lo <= np_clip a lo hi <= hi.
Proof.
  intros H. unfold np_clip.
  destruct (Qlt_bool a lo) eqn:E1; [apply Qlt_bool_iff in E1 | apply Qlt_bool_false in E1];
  [destruct (Qlt_bool hi lo) eqn:E2 | destruct (Qlt_bool hi a) eqn:E2];
  first [apply Qlt_bool_iff in E2 | apply Qlt_bool_false in E2]; lra.
Qed.

Lemma np_clip_le a lo hi : lo <= hi -> 0 <= a -> 0 <= hi -> 0 <= np_clip a lo hi.
Proof.
  intros H Ha Hh. unfold np_clip.
  destruct (Qlt_bool a lo) eqn:E1; [apply Qlt_bool_iff in E1 | apply Qlt_bool_false in E1];
  [destruct (Qlt_bool hi lo) eqn:E2 | destruct (Qlt_bool hi a) eqn:E2];
  first [apply Qlt_bool_iff in E2 | apply Qlt_bool_false in E2]; lra.
Qed.

Lemma np_clip_ge a lo hi : lo <= hi -> a <= 1 -> lo <= 1 -> np_clip a lo hi <= 1.
Proof.
  intros H Ha Hl. unfold np_clip.
  destruct (Qlt_bool a lo) eqn:E1; [apply Qlt_bool_iff in E1 | apply Qlt_bool_false in E1];
  [destruct (Qlt_bool hi lo) eqn:E2 | destruct (Qlt_bool hi a) eqn:E2];
  first [apply Qlt_bool_iff in E2 | apply Qlt_bool_false in E2]; lra.
Qed.

(** X15: The frame velocity stays in [0, 1], is 0 with no previous position or a non-positive time
    step, and otherwise moves at most 0.05 from the previous velocity. *)
Theorem frame_velocity_bounds (previous_hand_pos : option (Q * Q * Q))
    (previous_time previous_velocity : Q) (hand_pos : Q * Q * Q) (current_time : Q) :
  0 <= previous_velocity <= 1 ->
  let v := frame_velocity previous_hand_pos previous_time previous_velocity hand_pos current_time in
  0 <= v <= 1 /\
  ((previous_hand_pos = None \/ current_time - previous_time <= 0) -> v = 0) /\
  (previous_hand_pos <> None -> 0 < current_time - previous_time ->
   previous_velocity - (5 # 100) <= v <= previous_velocity + (5 # 100)).
Proof.
  intros Hpv v. unfold v, frame_velocity.
  destruct previous_hand_pos as [[[px py] pz]|].
  - destruct (Qlt_bool 0 (current_time - previous_time)) eqn:Et.
    + apply Qlt_bool_iff in Et. destruct hand_pos as [[x y] z].
      set (w := np_clip _ 0 1).
      assert (Hw : 0 <= w <= 1) by (apply np_clip_range; lra).
      pose proof (np_clip_range w (previous_velocity - (5 # 100)) (previous_velocity + (5 # 100))) as Hr.
      split; [split|split].
      * apply np_clip_le; lra.
      * apply np_clip_ge; lra.
      * intros [H|H]; [discriminate | lra].
      * intros _ _. apply Hr. lra.
    + apply Qlt_bool_false in Et. split; [lra|]. split; [reflexivity|]. intros _ H. lra.
  - split; [lra|]. split; [reflexivity|]. intros H; congruence.
Qed.

Lemma frame_velocity_bounds_witness :
  0 <= (1 # 2) <= 1 /\
  let v := frame_velocity (Some (0, 0, 0)) 0 (1 # 2) (1, 0, 0) 1 in
  0 <= v <= 1 /\
  ((Some (0, 0, 0) = None \/ 1 - 0 <= 0) -> v = 0) /\
  (Some (0, 0, 0) <> None -> 0 < 1 - 0 -> (1 # 2) - (5 # 100) <= v <= (1 # 2) + (5 # 100)).
Proof.
  assert (H : 0 <= (1 # 2) <= 1) by (split; vm_compute; discriminate).
  split; [exact H|]. exact (frame_velocity_bounds (Some (0, 0, 0)) 0 (1 # 2) (1, 0, 0) 1 H).
Defined.

Ltac destruct_qlt :=
  repeat match goal with |- context [Qlt_bool ?a ?b] => destruct (Qlt_bool a b) end.

Lemma touching_fingers_eq (hand_landmarks : list landmark) (hand_z distance_threshold : Q) :
  ((length hand_landmarks < 21)%nat ->
   get_touching_fingers hand_landmarks hand_z distance_threshold = Err IndexError) /\
  ((21 <= length hand_landmarks)%nat ->
   get_touching_fingers hand_landmarks hand_z distance_threshold =
   Ok (map fst (filter (fun '(f, i) =>
          Qlt_bool (tip_distance (nth 4 hand_landmarks (mkLm 0 0)) (nth i hand_landmarks (mkLm 0 0)))
                   (distance_threshold - hand_z * (7 # 100)))
        tip_of_finger))).
Proof.
  split; intros H.
  - do 21 (destruct hand_landmarks as [|? hand_landmarks];
           [cbn -[Qlt_bool tip_distance]; destruct_qlt; reflexivity|]).
    simpl in H. lia.
  - do 21 (destruct hand_landmarks as [|? hand_landmarks]; [simpl in H; lia|]).
    cbn -[Qlt_bool tip_distance]. destruct_qlt; reflexivity.
Qed.

(** X9: get_touching_fingers raises IndexError on fewer than 21 landmarks; otherwise it returns, in
    ascending order, the finger numbers 1-4 whose tip is nearer the thumb tip than
    distance_threshold - hand_z * 0.07, the distance being the Euclidean one in x and y
    (tip_distance, its root rounded down to a multiple of 2^-64). *)
Theorem get_touching_fingers_spec (hand_landmarks : list landmark) (hand_z distance_threshold : Q) :
  ((length hand_landmarks < 21)%nat ->
   get_touching_fingers hand_landmarks hand_z distance_threshold = Err IndexError) /\
  ((21 <= length hand_landmarks)%nat ->
   get_touching_fingers hand_landmarks hand_z distance_threshold =
   Ok (map fst (filter (fun '(f, i) =>
          Qlt_bool (tip_distance (nth 4 hand_landmarks (mkLm 0 0)) (nth i hand_landmarks (mkLm 0 0)))
                   (distance_threshold - hand_z * (7 # 100)))
        tip_of_finger))).
Proof. exact (touching_fingers_eq hand_landmarks hand_z distance_threshold). Qed.

Lemma touching_filter_mono (lm : list landmark) (t1 t2 : Q) f :
  t2 <= t1 ->
  In f (map fst (filter (fun '(f, i) =>
          Qlt_bool (tip_distance (nth 4 lm (mkLm 0 0)) (nth i lm (mkLm 0 0))) t2) tip_of_finger)) ->
  In f (map fst (filter (fun '(f, i) =>
          Qlt_bool (tip_distance (nth 4 lm (mkLm 0 0)) (nth i lm (mkLm 0 0))) t1) tip_of_finger)).
Proof.
  intros Ht Hin. apply in_map_iff in Hin. destruct Hin as ([g i] & Hg & Hf).
  apply filter_In in Hf. destruct Hf as [Hi Hq].
  apply in_map_iff. exists (g, i). split; [exact Hg|]. apply filter_In. split; [exact Hi|].
  apply Qlt_bool_iff in Hq. apply Qlt_bool_iff. lra.
Qed.

(** X10: With 21 landmarks, a larger hand_z never adds touching fingers: the fingers touching at z2
    are among those touching at any z1 <= z2. *)
Theorem get_touching_fingers_monotone (hand_landmarks : list landmark) (z1 z2 distance_threshold : Q) :
  (21 <= length hand_landmarks)%nat -> z1 <= z2 ->
  exists fs1 fs2,
    get_touching_fingers hand_landmarks z1 distance_threshold = Ok fs1 /\
    get_touching_fingers hand_landmarks z2 distance_threshold = Ok fs2 /\
    incl fs2 fs1.
Proof.
  intros Hl Hz.
  rewrite (proj2 (touching_fingers_eq hand_landmarks z1 distance_threshold) Hl).
  rewrite (proj2 (touching_fingers_eq hand_landmarks z2 distance_threshold) Hl).
  eexists; eexists; split; [reflexivity|]. split; [reflexivity|].
  intros f. apply touching_filter_mono. nra.
Qed.

Lemma get_touching_fingers_monotone_witness :
  (21 <= length hand21)%nat /\ 0 <= 1 /\
  exists fs1 fs2,
    get_touching_fingers hand21 0 (1 # 10) = Ok fs1 /\
    get_touching_fingers hand21 1 (1 # 10) = Ok fs2 /\
    incl fs2 fs1.
Proof.
  assert (H1 : (21 <= length hand21)%nat) by (vm_compute; lia).
  assert (H2 : 0 <= 1) by (vm_compute; discriminate).
  split; [exact H1|]. split; [exact H2|].
  exact (get_touching_fingers_monotone hand21 0 1 (1 # 10) H1 H2).
Defined.

Lemma nth_colors (lm : list landmark) (g : nat * landmark -> color) i :
  (i < length lm)%nat ->
  nth i (map g (combine (seq 0 (length lm)) lm)) RED = g (i, nth i lm (mkLm 0 0)).
Proof.
  intros Hi.
  assert (Hgen : forall k l, (i < length l)%nat ->
            nth i (map g (combine (seq k (length l)) l)) RED = g ((k + i)%nat, nth i l (mkLm 0 0))).
  { clear Hi. induction i as [|i IH]; intros k l Hl; destruct l as [|a l]; simpl in Hl; try lia.
    - simpl. rewrite Nat.add_0_r. reflexivity.
    - simpl. rewrite IH by lia. f_equal. f_equal. lia. }
  apply (Hgen 0%nat). exact Hi.
Qed.

Lemma finger_colors_eq (hand_landmarks : list landmark) (hand_z distance_threshold : Q) :
  ((length hand_landmarks < 5)%nat ->
   get_finger_colors hand_landmarks hand_z distance_threshold = Err IndexError) /\
  ((5 <= length hand_landmarks)%nat ->
   exists cs, get_finger_colors hand_landmarks hand_z distance_threshold = Ok cs /\
     length cs = length hand_landmarks /\
     nth 4 cs RED = MAGENTA /\
     (forall i, (i < length hand_landmarks)%nat -> i <> 4%nat ->
        nth i cs RED = (if Qlt_bool (tip_distance (nth 4 hand_landmarks (mkLm 0 0))
                                                  (nth i hand_landmarks (mkLm 0 0)))
                                    (distance_threshold - hand_z * (2 # 100))
                        then GREEN else RED))).
Proof.
  split; intros H.
  - do 5 (destruct hand_landmarks as [|? hand_landmarks]; [reflexivity|]). simpl in H. lia.
  - unfold get_finger_colors, nth_r.
    destruct (nth_error hand_landmarks 4) as [thumb|] eqn:E4.
    2: { apply nth_error_None in E4. lia. }
    simpl. eexists. split; [reflexivity|].
    rewrite (nth_error_nth _ _ (mkLm 0 0) E4) in *. clear E4.
    split; [rewrite length_map, length_combine, length_seq; lia|].
    split.
    + rewrite nth_colors by lia. reflexivity.
    + intros i Hi Hne. rewrite nth_colors by exact Hi.
      apply Nat.eqb_neq in Hne. rewrite Hne. reflexivity.
Qed.

(** X11: get_finger_colors raises IndexError on fewer than 5 landmarks; otherwise it gives one
    colour per landmark, magenta for the thumb tip and green or red for the others by the distance
    to the thumb tip (tip_distance, as in get_touching_fingers) against
    distance_threshold - hand_z * 0.02. *)
Theorem get_finger_colors_spec (hand_landmarks : list landmark) (hand_z distance_threshold : Q) :
  ((length hand_landmarks < 5)%nat ->
   get_finger_colors hand_landmarks hand_z distance_threshold = Err IndexError) /\
  ((5 <= length hand_landmarks)%nat ->
   exists cs, get_finger_colors hand_landmarks hand_z distance_threshold = Ok cs /\
     length cs = length hand_landmarks /\
     nth 4 cs RED = MAGENTA /\
     (forall i, (i < length hand_landmarks)%nat -> i <> 4%nat ->
        nth i cs RED = (if Qlt_bool (tip_distance (nth 4 hand_landmarks (mkLm 0 0))
                                                  (nth i hand_landmarks (mkLm 0 0)))
                                    (distance_threshold - hand_z * (2 # 100))
                        then GREEN else RED))).
Proof. exact (finger_colors_eq hand_landmarks hand_z distance_threshold). Qed.

(** X12: With 21 landmarks and hand_z <= 1, a finger tip coloured green (default threshold 0.05) is
    reported by get_touching_fingers (default threshold 0.1). *)
Theorem green_tip_is_touching (hand_landmarks : list landmark) (hand_z : Q) (f : Z) (i : nat) :
  (21 <= length hand_landmarks)%nat -> hand_z <= 1 -> In (f, i) tip_of_finger ->
  exists cs fs,
    get_finger_colors hand_landmarks hand_z (5 # 100) = Ok cs /\
    get_touching_fingers hand_landmarks hand_z (1 # 10) = Ok fs /\
    (nth i cs RED = GREEN -> In f fs).
Proof.
  intros Hl Hz Hfi.
  assert (Hi : (i < 21)%nat /\ i <> 4%nat).
  { destruct Hfi as [E|[E|[E|[E|[]]]]]; injection E; intros; subst; lia. }
  destruct (proj2 (finger_colors_eq hand_landmarks hand_z (5 # 100)) ltac:(lia))
    as (cs & Hcs & _ & _ & Hc).
  exists cs. eexists. split; [exact Hcs|].
  split; [exact (proj2 (touching_fingers_eq hand_landmarks hand_z (1 # 10)) Hl)|].
  rewrite Hc by lia. intros Hg.
  destruct (Qlt_bool _ _) eqn:Eq; [|discriminate].
  apply in_map_iff. exists (f, i). split; [reflexivity|]. apply filter_In. split; [exact Hfi|].
  apply Qlt_bool_iff in Eq. apply Qlt_bool_iff. lra.
Qed.

Lemma green_tip_is_touching_witness :
  (21 <= length hand21)%nat /\ 0 <= 1 /\ In (1%Z, 8%nat) tip_of_finger /\
  exists cs fs,
    get_finger_colors hand21 0 (5 # 100) = Ok cs /\
    get_touching_fingers hand21 0 (1 # 10) = Ok fs /\
    (nth 8 cs RED = GREEN -> In 1%Z fs).
Proof.
  assert (H1 : (21 <= length hand21)%nat) by (vm_compute; lia).
  assert (H2 : 0 <= 1) by (vm_compute; discriminate).
  assert (H3 : In (1%Z, 8%nat) tip_of_finger) by (left; reflexivity).
  split; [exact H1|]. split; [exact H2|]. split; [exact H3|].
  exact (green_tip_is_touching hand21 0 1%Z 8%nat H1 H2 H3).
Defined.

Lemma argmax_loop_lt bi b i l : (bi < i)%nat -> (argmax_loop bi b i l < i + length l)%nat.
Proof.
  revert bi b i. induction l as [|x xs IH]; intros bi b i H; simpl; [lia|].
  destruct (Qlt_bool b x); [specialize (IH i x (S i)) | specialize (IH bi b (S i))]; lia.
Qed.

Lemma np_argmax_lt l k : np_argmax l = Ok k -> (k < length l)%nat.
Proof.
  destruct l as [|x xs]; simpl; [discriminate|]. intros E; injection E as <-.
  pose proof (argmax_loop_lt 0 x 1 xs); lia.
Qed.

Lemma Qsum_unit l : (forall x, In x l -> in_unit x) ->
  0 <= Qsum l /\ Qsum l <= inject_Z (Z.of_nat (length l)).
Proof.
  unfold Qsum. induction l as [|x xs IH]; intros H; cbn [fold_right length].
  { split; unfold Qle; simpl; lia. }
  destruct (H x (or_introl eq_refl)) as [H1 H2].
  destruct IH as [H3 H4]; [intros y Hy; apply H; right; exact Hy|].
  rewrite Nat2Z.inj_succ, <- Z.add_1_r, inject_Z_plus. change (inject_Z 1) with 1. lra.
Qed.

Lemma np_mean_unit l : l <> [] -> (forall x, In x l -> in_unit x) -> in_unit (np_mean l).
Proof.
  intros Hne H. destruct (Qsum_unit l H) as [H1 H2].
  assert (Hp : 0 < inject_Z (Z.of_nat (length l))).
  { destruct l as [|x xs]; [congruence|]. simpl length. rewrite Nat2Z.inj_succ.
    unfold Qlt. simpl. lia. }
  unfold np_mean, in_unit. split.
  - apply Qle_shift_div_l; [exact Hp | lra].
  - apply Qle_shift_div_r; [exact Hp | lra].
Qed.

(** X13: get_hand_position raises ValueError on no landmarks and IndexError on 1 to 17; on 18 or
    more it returns the mean x, the mean y and a z in [0, 1], the means in [0, 1] when all landmarks
    are. *)
Theorem get_hand_position_spec (hand_landmarks : list landmark) :
  (hand_landmarks = [] -> get_hand_position hand_landmarks = Err ValueError) /\
  ((1 <= length hand_landmarks <= 17)%nat -> get_hand_position hand_landmarks = Err IndexError) /\
  ((18 <= length hand_landmarks)%nat ->
   exists avg_x avg_y z, get_hand_position hand_landmarks = Ok (avg_x, avg_y, z) /\
     avg_x = np_mean (map lx hand_landmarks) /\ avg_y = np_mean (map ly hand_landmarks) /\
     in_unit z /\
     ((forall lm, In lm hand_landmarks -> in_unit lm.(lx) /\ in_unit lm.(ly)) ->
      in_unit avg_x /\ in_unit avg_y)).
Proof.
  unfold get_hand_position.
  destruct (np_argmax (map ly hand_landmarks)) as [k|e] eqn:Ek.
  2: { destruct hand_landmarks as [|x xs]; [|discriminate]. split; [intros _; simpl in Ek; injection Ek as <-; reflexivity|].
       split; intros H; simpl in H; lia. }
  pose proof (np_argmax_lt _ _ Ek) as Hk. rewrite length_map in Hk.
  assert (Hne : hand_landmarks <> []) by (intros ->; simpl in Hk; lia).
  simpl. unfold nth_r.
  destruct (nth_error hand_landmarks k) as [lowest|] eqn:El.
  2: { apply nth_error_None in El. lia. }
  cbn [rbind].
  split; [intros; contradiction|]. split.
  - intros H. destruct (nth_error hand_landmarks 17) eqn:E17; [|reflexivity].
    assert (Hs : nth_error hand_landmarks 17 <> None) by congruence.
    apply nth_error_Some in Hs. lia.
  - intros H. destruct (nth_error hand_landmarks 17) eqn:E17.
    2: { apply nth_error_None in E17. lia. }
    cbn [rbind]. do 3 eexists. split; [reflexivity|]. split; [reflexivity|]. split; [reflexivity|].
    split; [apply clip01_unit|].
    intros Hu. split; apply np_mean_unit.
    + destruct hand_landmarks; [congruence|discriminate].
    + intros x Hx. apply in_map_iff in Hx. destruct Hx as (lm & <- & Hlm). apply Hu, Hlm.
    + destruct hand_landmarks; [congruence|discriminate].
    + intros x Hx. apply in_map_iff in Hx. destruct Hx as (lm & <- & Hlm). apply Hu, Hlm.
Qed.

(** ** Further properties: The note recorder *)
Section RecorderInvariant.

Variable FP : list Z -> Prop.

Lemma same_data_wf x y :
  same_data x y -> note_wf y /\ stored_ok y /\ FP y.(fingers) -> note_wf x /\ stored_ok x /\ FP x.(fingers).
Proof.
  intros (H0 & H1 & H2 & H3 & H4 & H5) ((W1 & W2 & W3 & W4 & W5) & (s & S1 & S2 & S3 & S4) & F).
  unfold note_wf, stored_ok. rewrite H0, H1, H2, H3, H4. split; [tauto|].
  split; [exists s; auto | exact F].
Qed.

Lemma same_data_pause y p : same_data (set_pause_after y p) y.
Proof. repeat split; discriminate. Qed.

Lemma same_data_refl y : same_data y y.
Proof. repeat split; auto. Qed.

Lemma same_data_tag k y : same_data (tag_phrase k y) y.
Proof. unfold tag_phrase. destruct (phrase y); [apply same_data_refl|]. repeat split; auto. Qed.

Lemma same_data_backfill t y : same_data (backfill_last t y) y.
Proof.
  unfold backfill_last. destruct (timestamps y); [apply same_data_refl|].
  destruct (Qeq_bool _ _); [apply same_data_pause | apply same_data_refl].
Qed.

Lemma In_update_last {A} (f : A -> A) l x :
  In x (update_last f l) -> exists y, In y l /\ (x = y \/ x = f y).
Proof.
  induction l as [|a l IH]; simpl; [tauto|].
  destruct l as [|b l].
  - intros [<-|[]]. exists a. auto.
  - intros [<-|Hx]; [exists a; auto|]. destruct (IH Hx) as (y & Hy & E). exists y. auto.
Qed.

Lemma spaced_snoc ts t :
  ts <> [] -> spaced ts -> REC_POINT_INTERVAL <= t - last ts 0 -> spaced (ts ++ [t]).
Proof.
  induction ts as [|a ts IH]; intros Hne Hs Ht; [congruence|].
  destruct ts as [|b ts].
  - simpl in *. auto.
  - change (spaced (a :: ((b :: ts) ++ [t]))).
    destruct Hs as [Hab Hs]. simpl app. split; [exact Hab|].
    apply IH; [discriminate | exact Hs | exact Ht].
Qed.

Lemma last_snoc {A} (l : list A) (x d : A) : last (l ++ [x]) d = x.
Proof. induction l as [|a [|b l] IH]; simpl in *; auto. Qed.

(** *** The operations keep [recorder_wf] and raise nothing *)

Lemma save_current_note_wf st :
  recorder_wf FP st -> st.(current_note) <> None ->
  exists st', save_current_note st = (Ok tt, st') /\ recorder_wf FP st' /\
    st'.(current_note) = None /\ st'.(phrase_num) = st.(phrase_num) /\
    st'.(pause_start_time) = st.(pause_start_time) /\ st'.(pause_triggered) = st.(pause_triggered) /\
    st'.(enable_agent) = st.(enable_agent).
Proof.
  intros (Hn & Hc & Hp & Ht) Hne. destruct (current_note st) as [cn|] eqn:Ec; [|congruence].
  destruct Hc as (((C1 & C2 & C3 & C4 & C5) & CF) & C6 & C7).
  destruct (start_time cn) as [s0|] eqn:Es; [|congruence].
  assert (Hts : timestamps cn <> []) by (intros E; rewrite E in C3; destruct (data_points cn); simpl in C3; congruence).
  rewrite (save_current_note_run st cn s0 Ec Hts Es).
  eexists. split; [reflexivity|]. cbn -[Qle_bool].
  set (d := last (timestamps cn) 0 - s0).
  set (cn2 := match pause_after (set_duration cn d) with
              | Some _ => set_duration cn d | None => set_pause_after (set_duration cn d) 0 end).
  assert (W : Qle_bool MIN_NOTE_DURATION d = true -> note_wf cn2 /\ stored_ok cn2 /\ FP cn2.(fingers) /\ phrase cn2 = None).
  { intros Hd. apply Qle_bool_iff in Hd.
    unfold cn2, set_duration, set_pause_after. destruct (pause_after cn) eqn:Ep; simpl.
    - unfold note_wf, stored_ok; simpl. split; [repeat split; try assumption; rewrite Es; discriminate|].
      split; [exists s0; repeat split; try assumption; congruence|].
      split; [exact CF | exact C6].
    - unfold note_wf, stored_ok; simpl. split; [repeat split; try assumption; rewrite Es; discriminate|].
      split; [exists s0; repeat split; try assumption; congruence|].
      split; [exact CF | exact C6]. }
  split; [|repeat split]. split; [|split; [exact I|split; [exact Hp|]]].
  - intros n Hin. destruct (Qle_bool MIN_NOTE_DURATION d) eqn:Hd.
    + apply in_app_or in Hin. destruct Hin as [Hin|[<-|[]]]; [apply Hn, Hin|]. destruct (W eq_refl); tauto.
    + apply Hn, Hin.
  - intros n k Hin Hk. destruct (Qle_bool MIN_NOTE_DURATION d) eqn:Hd.
    + apply in_app_or in Hin. destruct Hin as [Hin|[<-|[]]]; [apply (Ht n k Hin Hk)|].
      exfalso. destruct (pause_after cn); simpl in Hk; congruence.
    + apply (Ht n k Hin Hk).
Qed.

Lemma recorder_wf_pause st ps trig : recorder_wf FP st -> recorder_wf FP (with_pause st ps trig).
Proof. intros H. exact H. Qed.

Lemma close_open_note_wf st :
  recorder_wf FP st ->
  exists st', close_open_note st = (Ok tt, st') /\ recorder_wf FP st' /\
    st'.(current_note) = None /\ st'.(phrase_num) = st.(phrase_num) /\
    st'.(pause_start_time) = st.(pause_start_time) /\ st'.(pause_triggered) = st.(pause_triggered) /\
    st'.(enable_agent) = st.(enable_agent).
Proof.
  intros H. unfold close_open_note. cbv [bind get].
  destruct (current_note st) eqn:Ec.
  - apply save_current_note_wf; [exact H | congruence].
  - exists st. split; [reflexivity|]. split; [exact H|]. split; [exact Ec|]. repeat split.
Qed.

Lemma same_data_trans x y z : same_data x y -> same_data y z -> same_data x z.
Proof.
  intros (A0 & A1 & A2 & A3 & A4 & A5) (B0 & B1 & B2 & B3 & B4 & B5).
  repeat split; try congruence. auto.
Qed.

Lemma start_note_wf fs x y z a v t st :
  FP fs -> recorder_wf FP st ->
  exists st', start_note fs x y z a v t st = (Ok tt, st') /\ recorder_wf FP st'.
Proof.
  intros HF H. unfold start_note. unfold bind at 1.
  destruct (close_open_note_wf st H) as (st1 & E1 & (Hn & _ & Hp & Ht) & _). rewrite E1.
  cbv [bind get put]. eexists. split; [reflexivity|].
  split; [|split; [|split]]; cbn [notes current_note last_record_time phrase_num].
  - intros n Hin. apply In_update_last in Hin. destruct Hin as (m & Hm & [-> | ->]).
    + apply Hn, Hm.
    + apply (same_data_wf _ m); [apply same_data_backfill | apply Hn, Hm].
  - split; [|split; reflexivity]. split; [|exact HF].
    repeat split; simpl; try discriminate; auto.
    intros p [<-|[]]. reflexivity.
  - exact Hp.
  - intros n k Hin Hk. apply In_update_last in Hin. destruct Hin as (m & Hm & [-> | ->]).
    + apply (Ht m k Hm Hk).
    + apply (Ht m k Hm). rewrite <- Hk. unfold backfill_last.
      destruct (timestamps m); [reflexivity|]. destruct (Qeq_bool _ _); reflexivity.
Qed.

Lemma record_point_wf x y z a v t st :
  recorder_wf FP st ->
  exists st', record_point x y z a v t st = (Ok tt, st') /\ recorder_wf FP st'.
Proof.
  intros (Hn & Hc & Hp & Ht). unfold record_point. cbv [bind get].
  destruct (current_note st) as [cn|] eqn:Ec.
  2: { exists st. split; [reflexivity|]. split; [exact Hn|]. rewrite Ec.
       split; [exact I | split; [exact Hp | exact Ht]]. }
  destruct Hc as (((C1 & C2 & C3 & C4 & C5) & CF) & C6 & C7). rewrite C7.
  destruct (Qle_bool REC_POINT_INTERVAL (t - last (timestamps cn) 0)) eqn:Eq.
  2: { exists st. split; [reflexivity|]. split; [exact Hn|]. rewrite Ec.
       split; [|split; [exact Hp | exact Ht]].
       split; [split; [split; [exact C1|split; [exact C2|split; [exact C3|split; [exact C4|exact C5]]]]|exact CF]|].
       split; [exact C6 | exact C7]. }
  destruct (start_time cn) as [s0|] eqn:Es; [|congruence].
  cbv [key ret put]. eexists. split; [reflexivity|].
  assert (Hts : timestamps cn <> []) by (intros E; rewrite E in C3; destruct (data_points cn); simpl in C3; congruence).
  apply Qle_bool_iff in Eq.
  split; [exact Hn|]. split; [|split; [exact Hp | exact Ht]]. cbn [current_note last_record_time].
  split; [|split; [exact C6|]].
  - split; [|exact CF]. unfold note_wf. cbn [data_points timestamps start_time]. split; [|split; [|split; [|split]]].
    + intros E. apply app_eq_nil in E. destruct E as [_ E]. discriminate.
    + intros p Hp'. apply in_app_or in Hp'. destruct Hp' as [Hp'|[<-|[]]]; [apply C2, Hp' | reflexivity].
    + rewrite !length_app, C3. reflexivity.
    + apply spaced_snoc; assumption.
    + first [discriminate | rewrite Es; discriminate].
  - cbn [timestamps]. rewrite last_snoc. reflexivity.
Qed.

Lemma traj_row_ok p : length p = 6%nat -> exists r, traj_row p = Ok r.
Proof.
  intros H. destruct p as [|x1 [|x2 [|x3 [|x4 [|x5 [|x6 [|x7 p]]]]]]]; simpl in H; try lia.
  eexists; reflexivity.
Qed.

Lemma map_r_traj_ok l :
  (forall p, In p l -> length p = 6%nat) -> exists t, map_r traj_row l = Ok t /\ length t = length l.
Proof.
  induction l as [|p l IH]; intros H; [exists []; auto|].
  destruct (traj_row_ok p (H p (or_introl eq_refl))) as [r Er].
  destruct IH as (t & Et & Lt); [intros q Hq; apply H; right; exact Hq|].
  exists (r :: t). simpl. rewrite Er. simpl. rewrite Et. simpl. auto.
Qed.

Lemma note_similarity_ok n1 n2 :
  n1.(data_points) <> [] -> n2.(data_points) <> [] ->
  (forall p, In p n1.(data_points) -> length p = 6%nat) ->
  (forall p, In p n2.(data_points) -> length p = 6%nat) ->
  exists s, note_similarity n1 n2 = Ok s.
Proof.
  intros N1 N2 H1 H2.
  destruct (map_r_traj_ok _ H1) as (t1 & E1 & L1). destruct (map_r_traj_ok _ H2) as (t2 & E2 & L2).
  unfold note_similarity. rewrite E1, E2. cbn [rbind].
  destruct t1 as [|r1 t1]; [destruct (data_points n1); simpl in L1; congruence|].
  destruct t2 as [|r2 t2]; [destruct (data_points n2); simpl in L2; congruence|].
  cbn [path_length rbind]. eexists; reflexivity.
Qed.

Lemma phrase_cohesion_ok l :
  (forall n, In n l -> note_wf n) -> exists c, phrase_cohesion l = Ok c.
Proof.
  intros H. unfold phrase_cohesion.
  assert (Hs : exists ss, consecutive_similarities l = Ok ss).
  { induction l as [|n1 rest IH]; [exists []; reflexivity|].
    destruct rest as [|n2 r]; [exists []; reflexivity|].
    destruct (H n1 (or_introl eq_refl)) as (A1 & A2 & _).
    destruct (H n2 (or_intror (or_introl eq_refl))) as (B1 & B2 & _).
    destruct (note_similarity_ok n1 n2 A1 B1 A2 B2) as [s Es].
    destruct IH as [ss Ess]; [intros n Hn; apply H; right; exact Hn|].
    exists (s :: ss). change (consecutive_similarities (n1 :: n2 :: r)) with
      (s <-r note_similarity n1 n2;; ss <-r consecutive_similarities (n2 :: r);; Ok (s :: ss)).
    rewrite Es, Ess. reflexivity. }
  destruct Hs as [ss Es]. rewrite Es. cbn [rbind]. destruct ss; eexists; reflexivity.
Qed.

Lemma end_phrase_wf t st :
  recorder_wf FP st ->
  exists st', end_phrase t st = (Ok tt, st') /\ recorder_wf FP st'.
Proof.
  intros (Hn & Hc & Hp & Ht). unfold end_phrase. cbv [bind get put].
  set (k := phrase_num st).
  set (ns := update_last (fun n => set_pause_after n LAST_NOTE_PAUSE) (map (tag_phrase k) (notes st))).
  assert (Hns : forall x, In x ns -> exists z, In z (notes st) /\ same_data x z /\
                  phrase x = (tag_phrase k z).(phrase)).
  { intros x Hx. apply In_update_last in Hx. destruct Hx as (y & Hy & Exy).
    apply in_map_iff in Hy. destruct Hy as (z & <- & Hz). exists z. split; [exact Hz|].
    destruct Exy as [-> | ->].
    - split; [apply same_data_tag | reflexivity].
    - split; [eapply same_data_trans; [apply same_data_pause | apply same_data_tag] | reflexivity]. }
  destruct (phrase_cohesion_ok ns) as [c Ec].
  { intros x Hx. destruct (Hns x Hx) as (z & Hz & Sd & _). exact (proj1 (same_data_wf x z Sd (Hn z Hz))). }
  cbv [with_notes]. cbn [notes]. fold ns. rewrite Ec. cbv [lift ret]. cbn.
  eexists. split; [reflexivity|].
  split; [|split; [exact Hc|split]]; cbn [notes phrase_num].
  - intros x Hx. destruct (Hns x Hx) as (z & Hz & Sd & _). apply (same_data_wf x z Sd), Hn, Hz.
  - fold k. destruct (existsb _ _); lia.
  - intros x j Hx Hj. destruct (Hns x Hx) as (z & Hz & _ & Ep). fold k.
    unfold tag_phrase in Ep. destruct (phrase z) as [j'|] eqn:Ez.
    + rewrite Ep, Ez in Hj. injection Hj as <-. destruct (Ht z j' Hz Ez). destruct (existsb _ _); lia.
    + cbn in Ep. rewrite Ep in Hj. injection Hj as <-.
      assert (Ha : existsb (fun n => match phrase n with None => true | Some _ => false end) (notes st) = true).
      { apply existsb_exists. exists z. rewrite Ez. auto. }
      rewrite Ha. lia.
Qed.

Lemma pause_wf t st :
  recorder_wf FP st -> exists b st', pause t st = (Ok b, st') /\ recorder_wf FP st'.
Proof.
  intros H. unfold pause. unfold bind at 1.
  destruct (close_open_note_wf st H) as (st1 & E1 & H1 & C1 & _). rewrite E1.
  cbv [bind get put ret with_current]. cbn [pause_start_time pause_triggered].
  assert (H2 : recorder_wf FP (mkRec (notes st1) None (last_record_time st1) (pause_start_time st1)
                   (phrase_num st1) (pause_triggered st1) (last_phrase_ended st1) (rec_agent st1)
                   (enable_agent st1) (frame_count st1))).
  { destruct H1 as (A & _ & B & C). split; [exact A|]. split; [exact I|]. split; [exact B|exact C]. }
  destruct (pause_start_time st1) as [ps|].
  2: { do 2 eexists. split; [reflexivity|]. exact H2. }
  destruct (_ && _).
  2: { do 2 eexists. split; [reflexivity|]. exact H2. }
  destruct (end_phrase_wf t _ H2) as (st3 & E3 & H3). rewrite E3.
  do 2 eexists. split; [reflexivity|]. exact H3.
Qed.

Lemma fill_gaps_wf l :
  (forall n, In n l -> note_wf n /\ stored_ok n /\ FP n.(fingers)) ->
  exists ns, fill_gaps l = (ns, None) /\
    forall x, In x ns -> exists y, In y l /\ same_data x y /\ phrase x = phrase y.
Proof.
  induction l as [|n1 rest IH]; intros H.
  - exists []. split; [reflexivity|]. intros x [].
  - destruct rest as [|n2 r].
    + exists [n1]. split; [reflexivity|]. intros x [<-|[]]. exists n1. split; [left; reflexivity|].
      split; [apply same_data_refl | reflexivity].
    + rewrite fill_gaps_cons2.
      destruct (H n1 (or_introl eq_refl)) as ((A1 & _ & A3 & _) & _).
      destruct (H n2 (or_intror (or_introl eq_refl))) as ((_ & _ & _ & _ & B5) & _).
      assert (Hts : timestamps n1 <> []) by (intros E; rewrite E in A3; destruct (data_points n1); simpl in A3; congruence).
      rewrite (py_idx_last _ 0 _ Hts).
      destruct (start_time n2) as [s2|]; [|congruence].
      destruct IH as (ns & Ens & Hns); [intros n Hn; apply H; right; exact Hn|].
      rewrite Ens. eexists. split; [reflexivity|].
      intros x [<-|Hx].
      * exists n1. split; [left; reflexivity|].
        destruct (Qeq_bool _ _); [split; [apply same_data_pause | reflexivity]|].
        split; [apply same_data_refl | reflexivity].
      * destruct (Hns x Hx) as (y & Hy & Hs). exists y. split; [right; exact Hy | exact Hs].
Qed.

Lemma finalize_wf t st :
  recorder_wf FP st -> exists st', finalize t st = (Ok tt, st') /\ recorder_wf FP st'.
Proof.
  intros H. unfold finalize. unfold bind at 1.
  destruct (close_open_note_wf st H) as (st1 & E1 & (Hn & Hc & Hp & Ht) & C1 & _). rewrite E1.
  cbv [bind get put ret with_notes].
  destruct (fill_gaps_wf (notes st1) Hn) as (ns & Ens & Hns). rewrite Ens.
  eexists. split; [reflexivity|].
  split; [|split; [|split]]; cbn [notes current_note phrase_num].
  - intros x Hx. destruct (Hns x Hx) as (y & Hy & Sd & _). apply (same_data_wf x y Sd), Hn, Hy.
  - rewrite C1. exact I.
  - exact Hp.
  - intros x k Hx Hk. destruct (Hns x Hx) as (y & Hy & _ & Ep). apply (Ht y k Hy). congruence.
Qed.

Lemma clear_wf st : recorder_wf FP st -> exists st', clear st = (Ok tt, st') /\ recorder_wf FP st'.
Proof.
  intros (_ & _ & Hp & _). eexists. split; [reflexivity|].
  split; [intros n []|]. split; [exact I|]. split; [exact Hp | intros n k []].
Qed.

Lemma run_call_wf c st :
  call_ok FP c -> recorder_wf FP st -> exists st', run_call c st = (Ok tt, st') /\ recorder_wf FP st'.
Proof.
  intros Hc H. destruct c as [fs x y z a v t | x y z a v t | t | t |]; simpl.
  - apply start_note_wf; [exact Hc | exact H].
  - apply record_point_wf, H.
  - destruct (pause_wf t st H) as (b & st' & E & H'). unfold bind. rewrite E. exists st'. auto.
  - apply finalize_wf, H.
  - apply clear_wf, H.
Qed.

Lemma run_calls_wf cs st :
  Forall (call_ok FP) cs -> recorder_wf FP st -> exists st', run_calls cs st = (Ok tt, st') /\ recorder_wf FP st'.
Proof.
  revert st. induction cs as [|c cs IH]; intros st Hc H; simpl.
  - exists st. auto.
  - inversion Hc as [|c' cs' Hc1 Hcs]; subst.
    destruct (run_call_wf c st Hc1 H) as (st1 & E1 & H1). unfold bind. rewrite E1. apply IH; [exact Hcs | exact H1].
Qed.

Lemma init_recorder_wf agent enable_agent : recorder_wf FP (init_recorder agent enable_agent).
Proof. split; [intros n []|]. split; [exact I|]. split; [cbn; lia | intros n k []]. Qed.

End RecorderInvariant.

(** X17: A fresh NoteRecorder driven by any sequence of calls never raises; its notes stay well
    formed, closed with a duration of at least 0.1 s and a pause, and keep the finger property the
    start_note calls had. *)
Theorem recorder_calls_safe (FP : list Z -> Prop) (agent : option agent) (enable_agent : bool)
  (cs : list rec_call) :
  Forall (call_ok FP) cs ->
  let (r, st) := run_calls cs (init_recorder agent enable_agent) in
  r = Ok tt /\ recorder_wf FP st.
Proof.
  intros Hc. destruct (run_calls_wf FP cs (init_recorder agent enable_agent) Hc (init_recorder_wf FP agent enable_agent)) as (st & E & H).
  rewrite E. auto.
Qed.

Lemma traj_row_bad p : length p <> 6%nat -> traj_row p = Err ValueError.
Proof.
  intros H. destruct p as [|x1 [|x2 [|x3 [|x4 [|x5 [|x6 [|x7 p]]]]]]]; simpl in H; try lia; reflexivity.
Qed.

Lemma map_r_traj_bad l :
  (exists p, In p l /\ length p <> 6%nat) -> map_r traj_row l = Err ValueError.
Proof.
  induction l as [|q l IH]; intros (p & Hp & Hl); [destruct Hp|].
  simpl. destruct Hp as [<-|Hp].
  - rewrite (traj_row_bad q Hl). reflexivity.
  - rewrite IH by (exists p; auto). destruct (traj_row q) eqn:Eq; [reflexivity|].
    apply traj_row_err in Eq. subst. reflexivity.
Qed.

(** X18: note_similarity raises ValueError if a point of either note does not have 6 values, raises
    AxisError (mean of an empty difference) if either note has no points, and otherwise returns a
    value. *)
Theorem note_similarity_errors (note1 note2 : note) :
  ((exists p, (In p note1.(data_points) \/ In p note2.(data_points)) /\ length p <> 6%nat) ->
   note_similarity note1 note2 = Err ValueError) /\
  ((forall p, In p note1.(data_points) \/ In p note2.(data_points) -> length p = 6%nat) ->
   (note1.(data_points) = [] \/ note2.(data_points) = []) ->
   note_similarity note1 note2 = Err AxisError) /\
  ((forall p, In p note1.(data_points) \/ In p note2.(data_points) -> length p = 6%nat) ->
   note1.(data_points) <> [] -> note2.(data_points) <> [] ->
   exists s, note_similarity note1 note2 = Ok s).
Proof.
  split; [|split].
  - intros (p & [H1|H2] & Hl); unfold note_similarity.
    + rewrite map_r_traj_bad by (exists p; auto). reflexivity.
    + destruct (map_r traj_row (data_points note1)) eqn:E1; cbn [rbind].
      2: { apply map_r_traj_err in E1. subst. reflexivity. }
      rewrite map_r_traj_bad by (exists p; auto). reflexivity.
  - intros H [E|E]; unfold note_similarity.
    + destruct (map_r_traj_ok (data_points note2)) as (t2 & E2 & _); [intros p Hp; apply H; auto|].
      rewrite E. simpl. rewrite E2. reflexivity.
    + destruct (map_r_traj_ok (data_points note1)) as (t1 & E1 & L1); [intros p Hp; apply H; auto|].
      rewrite E, E1. simpl.
      destruct t1; [reflexivity|]. simpl. reflexivity.
  - intros H N1 N2. apply note_similarity_ok; auto.
Qed.

Lemma recorder_calls_safe_witness :
  Forall (call_ok (fun fs => fs <> [])) sample_calls /\
  (let (r, st) := run_calls sample_calls (init_recorder None false) in
   r = Ok tt /\ recorder_wf (fun fs => fs <> []) st).
Proof.
  assert (Hc : Forall (call_ok (fun fs => fs <> [])) sample_calls).
  { apply Forall_cons; [cbn; discriminate|]. apply Forall_cons; [exact I|].
    apply Forall_cons; [exact I|]. apply Forall_nil. }
  split; [exact Hc|]. apply (recorder_calls_safe (fun fs => fs <> []) None false sample_calls Hc).
Defined.

(** ** Further properties: Note timing, mutation and the frame loop *)

(** X5: when no step of the environment takes negative time, play_note on a note with points (each
    of at least 5 values) blocks at least (points - 1) * 0.02 s over its points, returns pause_after
    or 0 as its pause, blocks at least that pause more when it is positive, and returns a total
    duration that the clock has advanced by. *)
Theorem play_note_timing (dup : bool) (n : note) (w : io) :
  n.(data_points) <> [] ->
  (forall p, In p n.(data_points) -> (5 <= length p)%nat) ->
  delays_ok w ->
  exists r w', play_note dup n w = (Ok r, w') /\
    inject_Z (Z.of_nat (length n.(data_points)) - 1) * AGENT_POINT_INTERVAL <= r.(note_duration) /\
    r.(played_pause_after) = Some (pause_or_0 n) /\
    r.(note_duration) + (if Qlt_bool 0 (pause_or_0 n) then pause_or_0 n else 0) <= r.(total_duration) /\
    w.(clock) + r.(total_duration) <= w'.(clock).
Proof.
  intros Hne Hp Hd.
  destruct (play_note_run dup n w Hne Hp) as (r & w' & E & H1 & _ & _ & _ & H2).
  destruct (H2 Hd) as (A & B & C).
  exists r, w'. split; [exact E|]. split; [exact A|]. split; [exact H1|]. split; [exact B|exact C].
Qed.

Lemma play_note_timing_witness :
  exists r w', play_note true human6 sample_io = (Ok r, w') /\
    inject_Z (Z.of_nat (length (data_points human6)) - 1) * AGENT_POINT_INTERVAL <= r.(note_duration) /\
    r.(played_pause_after) = Some (pause_or_0 human6) /\
    r.(note_duration) + (if Qlt_bool 0 (pause_or_0 human6) then pause_or_0 human6 else 0) <=
      r.(total_duration) /\
    sample_io.(clock) + r.(total_duration) <= w'.(clock).
Proof.
  apply (play_note_timing true human6 sample_io).
  - discriminate.
  - intros p Hp. simpl in Hp. destruct Hp as [<-|[<-|[]]]; simpl; lia.
  - intros k. unfold sample_io; cbn [delay]. unfold Qle, Qdiv, Qmult, Qinv; simpl. lia.
Defined.

Lemma mutation_den_range h : 0 <= h <= 1 -> 15 <= mutation_den h <= 1000.
Proof. unfold mutation_den. intros H. lra. Qed.

Lemma inv_le_anti a b : 0 < b -> b <= a -> 1 / a <= 1 / b.
Proof.
  intros Hb Hab. apply Qle_shift_div_l; [exact Hb|].
  setoid_replace (1 / a * b) with (b / a) by (field; intros E; rewrite E in Hab; lra).
  apply Qle_shift_div_r; lra.
Qed.

(** X4: For 0 <= hotness <= 1, _mutate never raises and consumes one draw; it mutates iff the draw
    is below 1/((1-hotness)*985+15), a chance between 1/1000 and 1/15 that grows with hotness. *)
Theorem mutate_chance (draw : nat -> Q) (h : Q) (i : nat) :
  0 <= h <= 1 ->
  mutate draw h i = (Ok (Qlt_bool (draw i) (1 / mutation_den h)), S i) /\
  1 # 1000 <= 1 / mutation_den h <= 1 # 15 /\
  (forall h', h <= h' <= 1 -> 1 / mutation_den h <= 1 / mutation_den h').
Proof.
  intros Hh. destruct (mutation_den_range h Hh) as [D1 D2].
  split; [|split; [split|]].
  - unfold mutate. destruct (Qeq_bool (mutation_den h) 0) eqn:E.
    + apply Qeq_bool_eq in E. lra.
    + reflexivity.
  - change (1 # 1000) with (1 / 1000). apply inv_le_anti; lra.
  - change (1 # 15) with (1 / 15). apply inv_le_anti; lra.
  - intros h' Hh'. destruct (mutation_den_range h' ltac:(lra)) as [D3 D4].
    apply inv_le_anti; [lra|]. unfold mutation_den. lra.
Qed.

Lemma mutate_chance_witness :
  0 <= 1 # 2 <= 1 /\
  mutate half_draws (1 # 2) 0%nat = (Ok (Qlt_bool (half_draws 0%nat) (1 / mutation_den (1 # 2))), 1%nat) /\
  1 # 1000 <= 1 / mutation_den (1 # 2) <= 1 # 15 /\
  (forall h', 1 # 2 <= h' <= 1 -> 1 / mutation_den (1 # 2) <= 1 / mutation_den h').
Proof.
  assert (H : 0 <= 1 # 2 <= 1) by (split; vm_compute; discriminate).
  split; [exact H|]. exact (mutate_chance half_draws (1 # 2) 0%nat H).
Defined.

Lemma get_hand_position_err lm e :
  get_hand_position lm = Err e -> e = IndexError \/ e = ValueError.
Proof.
  unfold get_hand_position. destruct (np_argmax (map ly lm)) as [k|e'] eqn:Ea; cbn [rbind].
  2: { intros E; injection E as <-. destruct (map ly lm); [|discriminate]. injection Ea as <-. auto. }
  unfold nth_r. destruct (nth_error lm k); cbn [rbind]; [|intros E; injection E as <-; auto].
  destruct (nth_error lm 17); cbn [rbind]; [discriminate|]. intros E; injection E as <-; auto.
Qed.

Lemma tip_filter_range p fs :
  Ok (map fst (filter p tip_of_finger)) = Ok fs -> forall f, In f fs -> (1 <= f <= 4)%Z.
Proof.
  intros E f Hf. assert (Efs : fs = map fst (filter p tip_of_finger)) by congruence. subst fs.
  apply in_map_iff in Hf. destruct Hf as ([g i] & Hgf & Hg). apply filter_In in Hg.
  destruct Hg as [Hg _]. simpl in Hgf. subst g.
  destruct Hg as [E'|[E'|[E'|[E'|[]]]]]; injection E'; intros; subst; lia.
Qed.

Lemma touching_range lm z dt fs :
  get_touching_fingers lm z dt = Ok fs -> forall f, In f fs -> (1 <= f <= 4)%Z.
Proof.
  intros E f Hf. destruct (touching_fingers_eq lm z dt) as [H1 H2].
  destruct (Nat.lt_ge_cases (length lm) 21) as [Hl|Hl].
  - rewrite (H1 Hl) in E. discriminate.
  - rewrite (H2 Hl) in E. exact (tip_filter_range _ fs E f Hf).
Qed.

Lemma frame_detect_err lm e : frame_detect lm = Err e -> e = IndexError \/ e = ValueError.
Proof.
  unfold frame_detect. destruct (get_hand_position lm) as [[[x y] z]|e'] eqn:Ep; cbn [rbind].
  - destruct (get_touching_fingers lm z (1 # 10)) as [fs|e'] eqn:Et; cbn [rbind]; [discriminate|].
    intros E; injection E as <-. destruct (touching_fingers_eq lm z (1 # 10)) as [H1 H2].
    destruct (Nat.lt_ge_cases (length lm) 21) as [Hl|Hl].
    + rewrite (H1 Hl) in Et. injection Et as <-. auto.
    + rewrite (H2 Hl) in Et. discriminate.
  - intros E; injection E as <-. apply (get_hand_position_err lm), Ep.
Qed.

Lemma frame_detect_range lm hp touching :
  frame_detect lm = Ok (hp, touching) -> forall f, In f touching -> (1 <= f <= 4)%Z.
Proof.
  unfold frame_detect. destruct (get_hand_position lm) as [[[x y] z]|e'] eqn:Ep; cbn [rbind];
    [|discriminate].
  destruct (get_touching_fingers lm z (1 # 10)) as [fs|e'] eqn:Et; cbn [rbind]; [|discriminate].
  intros E; injection E as _ <-. apply (touching_range lm z (1 # 10)), Et.
Qed.

Lemma NoDup_map_fst_filter (p : Z * Z -> bool) (d : tracking) :
  NoDup (map fst d) -> NoDup (map fst (filter p d)).
Proof.
  induction d as [|[k v] d IH]; intros H; simpl; [constructor|].
  inversion H as [|? ? Hn Hd]; subst.
  destruct (p (k, v)); simpl; [|apply IH, Hd].
  constructor; [|apply IH, Hd].
  intros Hin. apply Hn. apply in_map_iff in Hin. destruct Hin as ([k' v'] & Ek & Hk).
  apply filter_In in Hk. apply in_map_iff. exists (k', v'). split; [exact Ek | exact (proj1 Hk)].
Qed.

Lemma note_collection_call_ok active prev hp a v t :
  NoDup active -> (forall f, In f active -> (1 <= f <= 4)%Z) ->
  call_ok fingers_ok (note_collection_call active prev hp a v t).
Proof.
  intros Hnd Hr. unfold note_collection_call. destruct hp as [[x y] z].
  destruct active as [|f0 fs]; [exact I|].
  destruct (list_eq_dec _ _ _); [exact I|]. cbn.
  split; [discriminate|]. split; [exact Hnd|]. apply Forall_forall, Hr.
Qed.

Lemma main_frame_ok t0 t hand s :
  track_ok s.(finger_tracking) ->
  let (r, s') := main_frame t0 t hand s in
  track_ok s'.(finger_tracking) /\
  match hand with
  | None => r = Ok None
  | Some (lm, _) =>
      match frame_detect lm with
      | Err e => r = Err e
      | Ok _ => exists c, r = Ok (Some c) /\ call_ok fingers_ok c
      end
  end.
Proof.
  intros Hs. unfold main_frame. destruct hand as [[lm a]|]; [|split; [exact I | reflexivity]].
  destruct (frame_detect lm) as [[hp touching]|e] eqn:Ef.
  - set (tr0 := match finger_tracking s with Some d => d | None => [] end).
    assert (H0 : NoDup (map fst tr0) /\ (forall f c, dict_get tr0 f = Some c -> (0 <= c)%Z)).
    { unfold tr0. destruct (finger_tracking s) as [d|]; [exact Hs|].
      split; [constructor | intros f c E; discriminate]. }
    destruct H0 as [Hk Hc].
    destruct (update_tracking_props tr0 touching Hk Hc) as (Hk' & Hget & Hact).
    cbn [finger_tracking]. split.
    + split; [exact Hk'|]. intros f c E. rewrite Hget in E.
      destruct (in_dec Z.eq_dec f touching); [injection E as <-; lia|].
      destruct (dict_get tr0 f) as [c0|] eqn:E0; [|discriminate].
      specialize (Hc f c0 E0). destruct (DEBOUNCE_FRAMES <=? c0 + 1)%Z; [discriminate|].
      injection E as <-. lia.
    + eexists. split; [reflexivity|]. apply note_collection_call_ok.
      * apply NoDup_map_fst_filter, Hk'.
      * intros f Hf. apply (frame_detect_range lm hp touching Ef), Hact, Hf.
  - split; [exact Hs | reflexivity].
Qed.

Lemma main_loop_ok t0 frames s st :
  track_ok s.(finger_tracking) -> recorder_wf fingers_ok st ->
  let '(r, (_, st')) := main_loop t0 frames s st in
  r = match first_detect_error frames with None => Ok tt | Some e => Err e end /\
  recorder_wf fingers_ok st'.
Proof.
  revert s st. induction frames as [|[t hand] rest IH]; intros s st Hs Hst; simpl.
  - auto.
  - pose proof (main_frame_ok t0 t hand s Hs) as Hf.
    destruct (main_frame t0 t hand s) as [r s'].
    destruct Hf as [Hs' Hr]. destruct hand as [[lm a]|].
    + destruct (frame_detect lm) as [v|e].
      * destruct Hr as (c & -> & Hc).
        destruct (run_call_wf fingers_ok c st Hc Hst) as (st' & -> & Hst'). apply IH; assumption.
      * subst r. auto.
    + subst r. apply IH; assumption.
Qed.

Lemma first_detect_error_kind frames e :
  first_detect_error frames = Some e -> e = IndexError \/ e = ValueError.
Proof.
  induction frames as [|[t [[lm a]|]] rest IH]; simpl; [discriminate| |exact IH].
  destruct (frame_detect lm) as [v|e'] eqn:Ef; [exact IH|].
  intros E; injection E as <-. exact (frame_detect_err lm e' Ef).
Qed.

(** X16: The frame loop driving a fresh recorder ends with the first exception of hand detection
    (an IndexError or ValueError of get_hand_position or get_touching_fingers) if a frame raises
    one, and runs through all frames otherwise: no recorder call it makes raises. Every recorded
    note has a non-empty, repeat-free list of finger numbers in 1-4. *)
Theorem main_loop_notes_fingers (session_start_time t0 : Q)
  (frames : list (Q * option (list landmark * Q))) (agent : option agent) (enable_agent : bool) :
  let '(r, (_, st)) := main_loop session_start_time frames (init_main t0)
                                 (init_recorder agent enable_agent) in
  r = match first_detect_error frames with None => Ok tt | Some e => Err e end /\
  (forall e, first_detect_error frames = Some e -> e = IndexError \/ e = ValueError) /\
  recorder_wf fingers_ok st.
Proof.
  pose proof (main_loop_ok session_start_time frames (init_main t0) (init_recorder agent enable_agent)
                I (init_recorder_wf fingers_ok agent enable_agent)) as H.
  destruct (main_loop session_start_time frames (init_main t0) (init_recorder agent enable_agent))
    as [r [s st]].
  destruct H as [H1 H2]. split; [exact H1|]. split; [exact (first_detect_error_kind frames)|exact H2].
Qed.

(** ** Further properties: time order of the notes *)
Lemma chronological_same l l' : Forall2 same_times l l' -> chronological l -> chronological l'.
Proof.
  induction 1 as [|a b l l' Hab H IH]; [auto|].
  destruct H as [|c d l l' Hcd H']; [simpl; auto|].
  simpl. intros [H1 H2]. split.
  - intros s2 Hs x Hx. destruct Hab as [Ta Sa]. destruct Hcd as [Tc Sc].
    rewrite <- Ta in Hx. rewrite <- Sc in Hs. exact (H1 s2 Hs x Hx).
  - apply IH. exact H2.
Qed.

Lemma Forall2_update_last {A} (R : A -> A -> Prop) (f : A -> A) l :
  (forall x, R x x) -> (forall x, R x (f x)) -> Forall2 R l (update_last f l).
Proof.
  intros Hr Hf. induction l as [|a l IH]; simpl; [constructor|].
  destruct l as [|b l]; constructor; auto.
Qed.

Lemma Forall2_map_same {A} (R : A -> A -> Prop) (g : A -> A) l :
  (forall x, R x (g x)) -> Forall2 R l (map g l).
Proof. intros H. induction l; constructor; auto. Qed.

Lemma Forall2_In_r {A} (R : A -> A -> Prop) l l' :
  Forall2 R l l' -> forall y, In y l' -> exists x, In x l /\ R x y.
Proof.
  intros H. induction H as [|a b l l' Hab H IH]; intros y; [intros []|].
  intros Hin. destruct Hin as [E|Hy]; [subst; exists a; split; [left; reflexivity | exact Hab]|]. destruct (IH y Hy) as (x & Hx & Rx). exists x; split; [right; exact Hx | exact Rx].
Qed.

Lemma Forall2_refl {A} (R : A -> A -> Prop) l : (forall x, R x x) -> Forall2 R l l.
Proof. intros H. induction l; constructor; auto. Qed.

Lemma chronological_snoc l cn :
  chronological l ->
  (forall s, cn.(start_time) = Some s -> forall n x, In n l -> In x n.(timestamps) -> x <= s) ->
  chronological (l ++ [cn]).
Proof.
  induction l as [|a l IH]; intros Hc H; [exact I|].
  destruct l as [|b l].
  - simpl. split; [|exact I]. intros s2 Hs x Hx. apply (H s2 Hs a x); [left|]; auto.
  - change (chronological (a :: b :: (l ++ [cn]))). destruct Hc as [Hab Hc]. split; [exact Hab|].
    apply IH; [exact Hc|]. intros s Hs n x Hn Hx. apply (H s Hs n x); [right|]; auto.
Qed.

(** The notes after a change that keeps samples and starts and keeps pauses
    non-negative. *)
Lemma rec_chrono_notes T st ns :
  rec_chrono T st -> Forall2 same_times st.(notes) ns ->
  (forall n, In n ns -> pause_ok n) ->
  rec_chrono T (with_notes st ns).
Proof.
  intros (Hn & Hc & Hcur) HF Hp. split; [|split]; cbn [with_notes notes current_note].
  - intros n Hin. split; [apply Hp, Hin|].
    destruct (Forall2_In_r _ _ _ HF n Hin) as (y & Hy & [Ty _]). rewrite <- Ty. apply Hn, Hy.
  - apply (chronological_same _ _ HF Hc).
  - destruct (current_note st) as [cn|]; [|exact I].
    destruct Hcur as (P & X & S). split; [exact P|]. split; [exact X|].
    intros s Hs n x Hin Hx. destruct (Forall2_In_r _ _ _ HF n Hin) as (y & Hy & [Ty _]).
    rewrite <- Ty in Hx. apply (S s Hs y x Hy Hx).
Qed.

Lemma rec_chrono_mono T T' st : T <= T' -> rec_chrono T st -> rec_chrono T' st.
Proof.
  intros HT (Hn & Hc & Hcur). split; [|split; [exact Hc|]].
  - intros n Hin. destruct (Hn n Hin) as [P X]. split; [exact P|]. intros x Hx. specialize (X x Hx). lra.
  - destruct (current_note st); [|exact I]. destruct Hcur as (P & X & S).
    split; [exact P|]. split; [|exact S]. intros x Hx. specialize (X x Hx). lra.
Qed.

Lemma rec_chrono_pause_fields T st ps trig : rec_chrono T st -> rec_chrono T (with_pause st ps trig).
Proof. intros H. exact H. Qed.

Lemma last_In_ne {A} (l : list A) (d : A) : l <> [] -> In (last l d) l.
Proof.
  induction l as [|a l IH]; intros H; [congruence|].
  destruct l as [|b l]; [left; reflexivity|]. right. apply IH. discriminate.
Qed.

Lemma py_idx_last_In {St A} (l : list A) (s s' : St) a :
  py_idx l (-1) s = (Ok a, s') -> In a l.
Proof.
  destruct l as [|b l].
  - unfold py_idx. simpl. discriminate.
  - rewrite (py_idx_last (b :: l) b s) by discriminate. intros E. injection E as <- _.
    exact (last_In_ne (b :: l) b ltac:(discriminate)).
Qed.

(** *** Each operation keeps [rec_chrono], whatever its outcome *)

Lemma save_current_note_chrono T st :
  rec_chrono T st -> rec_chrono T (snd (save_current_note st)).
Proof.
  intros H. destruct (current_note st) as [cn|] eqn:Ec.
  2: { unfold save_current_note. cbv [bind get]. rewrite Ec. exact H. }
  destruct (timestamps cn) as [|t0 ts] eqn:Et.
  { unfold save_current_note. cbv [bind get]. rewrite Ec, Et. exact H. }
  assert (Hne : timestamps cn <> []) by (rewrite Et; discriminate).
  destruct (start_time cn) as [s0|] eqn:Es.
  2: { unfold save_current_note. cbv [bind get]. rewrite Ec, (py_idx_last _ 0 _ Hne), Es. exact H. }
  rewrite (save_current_note_run st cn s0 Ec Hne Es). cbn [snd].
  destruct H as (Hn & Hc & Hcur). rewrite Ec in Hcur. destruct Hcur as (P & X & S).
  set (cn2 := match pause_after (set_duration cn (last (timestamps cn) 0 - s0)) with
              | None => set_pause_after (set_duration cn (last (timestamps cn) 0 - s0)) 0
              | Some _ => set_duration cn (last (timestamps cn) 0 - s0) end).
  assert (P2 : pause_ok cn2 /\ timestamps cn2 = timestamps cn /\ start_time cn2 = start_time cn).
  { unfold cn2, set_duration, set_pause_after. cbn [pause_after].
    destruct (pause_after cn) as [p|] eqn:Ep; cbn; (split; [|split; reflexivity]).
    - intros q E. injection E as <-. apply P, Ep.
    - intros q E. injection E as <-. lra. }
  destruct P2 as (P2 & T2 & S2).
  split; [|split; [|exact I]]; cbn [notes].
  - intros n Hin. destruct (Qle_bool _ _); [|apply Hn, Hin].
    apply in_app_or in Hin. destruct Hin as [Hin|[<-|[]]]; [apply Hn, Hin|].
    split; [exact P2|]. rewrite T2. exact X.
  - destruct (Qle_bool _ _); [|exact Hc].
    apply chronological_snoc; [exact Hc|]. rewrite S2. exact (S).
Qed.

Lemma close_open_note_chrono T st :
  rec_chrono T st -> rec_chrono T (snd (close_open_note st)).
Proof.
  intros H. unfold close_open_note. cbv [bind get].
  destruct (current_note st); [apply save_current_note_chrono, H | exact H].
Qed.

Lemma backfill_same t n : same_times n (backfill_last t n).
Proof.
  unfold backfill_last. destruct (timestamps n) eqn:Et; [split; reflexivity|].
  destruct (Qeq_bool _ _); split; (reflexivity || (cbn; rewrite ?Et; reflexivity)).
Qed.

Lemma backfill_pause t n : pause_ok n -> pause_ok (backfill_last t n).
Proof.
  unfold backfill_last. destruct (timestamps n); [auto|].
  destruct (Qeq_bool _ _); [|auto]. intros _ p E. cbn in E. injection E as <-.
  unfold py_max. destruct (Qlt_bool _ _) eqn:E; [apply Qlt_bool_iff in E; lra | lra].
Qed.

Lemma start_note_chrono T fs x y z a v t st :
  T <= t -> rec_chrono T st -> rec_chrono t (snd (start_note fs x y z a v t st)).
Proof.
  intros HT H. pose proof (close_open_note_chrono T st H) as H1.
  cbv [start_note bind]. destruct (close_open_note st) as [[u|e] st1]; cbn [snd] in H1 |- *.
  2: { exact (rec_chrono_mono T t st1 HT H1). }
  cbv [get put]. destruct H1 as (Hn & Hc & _).
  assert (HF : Forall2 same_times (notes st1) (update_last (backfill_last t) (notes st1))).
  { apply Forall2_update_last; [intros n; split; reflexivity | apply backfill_same]. }
  split; [|split]; cbn [notes current_note].
  - intros n Hin. apply In_update_last in Hin. destruct Hin as (m & Hm & [-> | ->]).
    + destruct (Hn m Hm) as [P X]. split; [exact P|]. intros q Hq. specialize (X q Hq). lra.
    + destruct (Hn m Hm) as [P X]. split; [apply backfill_pause, P|].
      destruct (backfill_same t m) as [Tm _]. rewrite <- Tm. intros q Hq. specialize (X q Hq). lra.
  - apply (chronological_same _ _ HF Hc).
  - cbn. split; [intros p E; discriminate|]. split; [intros q [<-|[]]; lra|].
    intros s E n q Hin Hq. injection E as <-.
    destruct (Forall2_In_r _ _ _ HF n Hin) as (m & Hm & [Tm _]). rewrite <- Tm in Hq.
    destruct (Hn m Hm) as [_ X]. specialize (X q Hq). lra.
Qed.

Lemma record_point_chrono T x y z a v t st :
  T <= t -> rec_chrono T st -> rec_chrono t (snd (record_point x y z a v t st)).
Proof.
  intros HT H. pose proof (rec_chrono_mono T t st HT H) as H'.
  cbv [record_point bind get].
  destruct (current_note st) as [cn|] eqn:Ec; [|exact H'].
  destruct (last_record_time st) as [lrt|]; [|exact H'].
  destruct (Qle_bool _ _); [|exact H'].
  destruct (start_time cn) as [s0|] eqn:Es; [|exact H'].
  cbv [key ret put]. cbn [snd].
  destruct H as (Hn & Hc & Hcur). rewrite Ec in Hcur. destruct Hcur as (P & X & S).
  split; [|split]; cbn [notes current_note].
  - intros n Hin. destruct (Hn n Hin) as [Pn Xn]. split; [exact Pn|]. intros q Hq. specialize (Xn q Hq). lra.
  - exact Hc.
  - cbn. split; [exact P|]. split; [|rewrite <- Es; exact S].
    intros q Hq. apply in_app_or in Hq. destruct Hq as [Hq|[<-|[]]]; [specialize (X q Hq); lra | lra].
Qed.

Lemma tag_phrase_fields k n :
  same_times n (tag_phrase k n) /\ pause_after (tag_phrase k n) = pause_after n.
Proof. unfold tag_phrase. destruct (phrase n); repeat split. Qed.

Lemma Forall2_update_last_map {A} (R : A -> A -> Prop) (f g : A -> A) l :
  (forall x, R x (g x)) -> (forall x, R x (f (g x))) -> Forall2 R l (update_last f (map g l)).
Proof.
  intros Hg Hf. induction l as [|a l IH]; simpl; [constructor|].
  destruct l as [|b l]; simpl; constructor; auto.
Qed.

Lemma end_phrase_chrono T t st :
  rec_chrono T st -> rec_chrono T (snd (end_phrase t st)).
Proof.
  intros H.
  set (ns := update_last (fun n => set_pause_after n LAST_NOTE_PAUSE) (map (tag_phrase (phrase_num st)) (notes st))).
  assert (Hw : rec_chrono T (with_notes st ns)).
  { apply rec_chrono_notes; [exact H| |].
    - apply Forall2_update_last_map; intros n; [apply tag_phrase_fields|].
      destruct (tag_phrase_fields (phrase_num st) n) as [[A1 A2] _]. split; [exact A1 | exact A2].
    - intros n Hin. apply In_update_last in Hin. destruct Hin as (m & Hm & E).
      apply in_map_iff in Hm. destruct Hm as (z & <- & Hz).
      destruct (tag_phrase_fields (phrase_num st) z) as [_ Pz].
      destruct H as (Hn & _). destruct (Hn z Hz) as [P _].
      destruct E as [-> | ->].
      + intros p E. rewrite Pz in E. apply P, E.
      + intros p E. cbn in E. injection E as <-. unfold LAST_NOTE_PAUSE. lra. }
  cbv [end_phrase bind get put lift ret raise]. fold ns.
  destruct (phrase_cohesion ns); exact Hw.
Qed.

Lemma pause_chrono T t st :
  rec_chrono T st -> rec_chrono T (snd (pause t st)).
Proof.
  intros H. pose proof (close_open_note_chrono T st H) as H1.
  cbv [pause bind]. destruct (close_open_note st) as [[u|e] st1]; cbn [snd] in H1 |- *; [|exact H1].
  cbv [get put ret].
  assert (H2 : rec_chrono T (with_current st1 None)).
  { destruct H1 as (A & B & _). split; [exact A|]. split; [exact B | exact I]. }
  destruct (pause_start_time (with_current st1 None)) as [ps|]; [|exact H2].
  destruct (_ && _); [|exact H2].
  pose proof (end_phrase_chrono T t _ H2) as H3.
  destruct (end_phrase t (with_current st1 None)) as [[u'|e'] st3]; cbn [snd] in H3 |- *; exact H3.
Qed.

Lemma fill_gaps_chrono l :
  chronological l -> (forall n, In n l -> pause_ok n) ->
  Forall2 same_times l (fst (fill_gaps l)) /\ (forall n, In n (fst (fill_gaps l)) -> pause_ok n).
Proof.
  induction l as [|n1 rest IH]; intros Hc Hp.
  { split; [constructor | exact Hp]. }
  destruct rest as [|n2 r].
  { split; [apply Forall2_refl; split; reflexivity | exact Hp]. }
  assert (Hrefl : Forall2 same_times (n1 :: n2 :: r) (n1 :: n2 :: r))
    by (apply Forall2_refl; split; reflexivity).
  rewrite fill_gaps_cons2.
  destruct (py_idx (timestamps n1) (-1) tt) as [[et|e] u] eqn:Ei; [|split; [exact Hrefl | exact Hp]].
  apply py_idx_last_In in Ei.
  destruct (start_time n2) as [s2|] eqn:Es; [|split; [exact Hrefl | exact Hp]].
  destruct Hc as [H12 Hc].
  destruct (IH Hc) as [F P]; [intros n Hn; apply Hp; right; exact Hn|].
  destruct (fill_gaps (n2 :: r)) as [rest' e'] eqn:Er. cbn [fst] in F, P |- *.
  split.
  - constructor; [|exact F]. destruct (Qeq_bool _ _); split; reflexivity.
  - intros n [<-|Hn]; [|apply P, Hn].
    destruct (Qeq_bool _ _); [|apply Hp; left; reflexivity].
    intros p E. cbn in E. injection E as <-. specialize (H12 s2 Es et Ei). lra.
Qed.

Lemma finalize_chrono T t st :
  rec_chrono T st -> rec_chrono T (snd (finalize t st)).
Proof.
  intros H. pose proof (close_open_note_chrono T st H) as H1.
  cbv [finalize bind]. destruct (close_open_note st) as [[u|e] st1]; cbn [snd] in H1 |- *; [|exact H1].
  cbv [get put].
  pose proof H1 as HH. destruct H1 as (Hn & Hc & Hcur).
  destruct (fill_gaps_chrono (notes st1) Hc) as [F P]; [intros n Hn'; apply (Hn n Hn')|].
  destruct (fill_gaps (notes st1)) as [ns e] eqn:Ef. cbn [fst] in F, P.
  assert (Hw : rec_chrono T (with_notes st1 ns)) by (apply rec_chrono_notes; [exact HH | exact F | exact P]).
  destruct e; exact Hw.
Qed.

Lemma clear_chrono T st : rec_chrono T (snd (clear st)).
Proof. split; [intros n []|]. split; exact I. Qed.

Lemma run_call_chrono T c st :
  rec_chrono T st -> (match call_time c with Some t => T <= t | None => True end) ->
  rec_chrono (match call_time c with Some t => t | None => T end) (snd (run_call c st)).
Proof.
  intros H Ht. destruct c as [fs x y z a v t | x y z a v t | t | t |]; cbn [call_time] in Ht |- *.
  - apply (start_note_chrono T); assumption.
  - apply (record_point_chrono T); assumption.
  - apply (rec_chrono_mono T t); [exact Ht|]. pose proof (pause_chrono T t st H) as Hp.
    cbn [run_call]. unfold bind. destruct (pause t st) as [[b|e] st1]; exact Hp.
  - apply finalize_chrono, H.
  - apply clear_chrono.
Qed.

Lemma run_calls_chrono cs T st :
  times_from T cs -> rec_chrono T st -> exists T', rec_chrono T' (snd (run_calls cs st)).
Proof.
  revert T st. induction cs as [|c cs IH]; intros T st Hts H.
  - exists T. exact H.
  - assert (Ht : match call_time c with Some t => T <= t | None => True end)
      by (cbn [times_from] in Hts; destruct (call_time c); [apply Hts | exact I]).
    assert (Hr : times_from (match call_time c with Some t => t | None => T end) cs)
      by (cbn [times_from] in Hts; destruct (call_time c); [apply Hts | exact Hts]).
    pose proof (run_call_chrono T c st H Ht) as H1.
    cbn [run_calls]. unfold bind.
    destruct (run_call c st) as [[u|e] st1]; cbn [snd] in H1 |- *.
    + exact (IH _ st1 Hr H1).
    + eexists. exact H1.
Qed.

Lemma init_recorder_chrono T agent enable_agent : rec_chrono T (init_recorder agent enable_agent).
Proof. split; [intros n []|]. split; exact I. Qed.

(** X19: When the calls pass non-decreasing timestamps, a fresh NoteRecorder keeps its stored notes
    in time order (each note's samples no later than the next note's start) and never gives a stored
    note a negative pause_after, whatever the calls' outcomes. *)
Theorem recorder_notes_chronological (T : Q) (agent : option agent) (enable_agent : bool)
  (cs : list rec_call) :
  times_from T cs ->
  let st := snd (run_calls cs (init_recorder agent enable_agent)) in
  chronological st.(notes) /\
  (forall n p, In n st.(notes) -> n.(pause_after) = Some p -> 0 <= p).
Proof.
  intros Hts. destruct (run_calls_chrono cs T _ Hts (init_recorder_chrono T agent enable_agent))
    as (T' & Hn & Hc & _).
  split; [exact Hc|]. intros n p Hin Hp. exact (proj1 (Hn n Hin) p Hp).
Qed.

Lemma recorder_notes_chronological_witness :
  times_from 0 sample_calls /\
  (let st := snd (run_calls sample_calls (init_recorder None false)) in
   chronological st.(notes) /\
   (forall n p, In n st.(notes) -> n.(pause_after) = Some p -> 0 <= p)).
Proof.
  assert (H : times_from 0 sample_calls).
  { cbn. split; [lra|]. split; [lra|]. split; [lra | exact I]. }
  split; [exact H|]. exact (recorder_notes_chronological 0 None false sample_calls H).
Defined.
